(** * Constraint satisfaction solvers of [003_Sati_de_Restr]

    Shallow embedding of the CSP class and of the solvers built on it
    (backtracking, MRV/LCV backtracking, forward checking, AC-3 / MAC,
    conflict-directed backjumping, min-conflicts, cutset conditioning and
    its tree solver) and of the problem classes they are run on, followed by
    the properties the specification states about them and by further
    properties of the code. *)

From stdpp Require Import gmap strings list fin_maps sorting pretty.

Set Warnings "-clear-no-such-hyp".

Open Scope Z_scope.
Open Scope nat_scope.

(** ** Results of a call

    A Python call either returns a value or raises ([KeyError] on a missing
    dictionary key, [IndexError] on [random.choice([])], [ValueError] on
    [min([])] or on a failed tuple unpacking).  Recursive functions and the
    [while] loop of AC-3 are defined with a step budget; [Agotado] is the
    answer of the model when the budget is too small, and the entry points
    compute a budget that is shown to be enough. *)

Inductive resultado (A : Type) : Type :=
| Valor (a : A)
| Excepcion
| Agotado.

Arguments Valor {A} a.
Arguments Excepcion {A}.
Arguments Agotado {A}.

#[global] Instance resultado_ret : MRet resultado := λ A a, Valor a.

#[global] Instance resultado_bind : MBind resultado := λ A B k r,
  match r with
  | Valor a => k a
  | Excepcion => Excepcion
  | Agotado => Agotado
  end.

(** [d[k]] on a dictionary. *)
Definition indexar {V} (d : gmap string V) (k : string) : resultado V :=
  match d !! k with
  | Some v => Valor v
  | None => Excepcion
  end.

(** What a solver entry point hands back: a dictionary, [None], or (for the
    backjumping driver, whose recursion returns heterogeneous values) a set
    of variables. *)
Inductive retorno : Type :=
| Asignacion (a : gmap string Z)
| Ninguno
| Conjunto (s : gset string).

(** ** The CSP class (001_Proble_Satis_Restri.py and its copies)

    [restricciones] is a dictionary from tuples of variables to predicates;
    it is kept as an association list in insertion order, since the solvers
    both look keys up and iterate over [items()].  [vecinos] maps a variable
    to a Python [set]; the list gives the elements in iteration order. *)

Record CSP : Type := {
  variables : list string;
  dominios : gmap string (list Z);
  restricciones : list (list string * (list Z → bool));
  vecinos : gmap string (list string)
}.

(** [s.add(x)] on a set kept as a duplicate-free list. *)
Definition agregar (x : string) (s : list string) : list string :=
  if bool_decide (x ∈ s) then s else s ++ [x].

(** The two inner loops of [_calcular_vecinos] for one constraint key. *)
Fixpoint vecinos_de_par (var1 : string) (alcance : list string)
    (vec : gmap string (list string)) : resultado (gmap string (list string)) :=
  match alcance with
  | [] => Valor vec
  | var2 :: resto =>
      if bool_decide (var1 ≠ var2) then
        s ← indexar vec var1;
        vecinos_de_par var1 resto (<[var1 := agregar var2 s]> vec)
      else vecinos_de_par var1 resto vec
  end.

Fixpoint vecinos_de_alcance (pendientes alcance : list string)
    (vec : gmap string (list string)) : resultado (gmap string (list string)) :=
  match pendientes with
  | [] => Valor vec
  | var1 :: resto =>
      vec' ← vecinos_de_par var1 alcance vec;
      vecinos_de_alcance resto alcance vec'
  end.

Fixpoint vecinos_de_claves (claves : list (list string))
    (vec : gmap string (list string)) : resultado (gmap string (list string)) :=
  match claves with
  | [] => Valor vec
  | alcance :: resto =>
      vec' ← vecinos_de_alcance alcance alcance vec;
      vecinos_de_claves resto vec'
  end.

Definition _calcular_vecinos (vars : list string)
    (restr : list (list string * (list Z → bool)))
    : resultado (gmap string (list string)) :=
  vecinos_de_claves (restr.*1) (list_to_map ((λ v, (v, [])) <$> vars)).

(** [CSP.__init__]. *)
Definition nuevo_CSP (vars : list string) (doms : gmap string (list Z))
    (restr : list (list string * (list Z → bool))) : resultado CSP :=
  vec ← _calcular_vecinos vars restr;
  Valor {| variables := vars; dominios := doms; restricciones := restr;
           vecinos := vec |}.

(** [tuple(asignacion[v] for v in alcance)], defined exactly when
    [all(v in asignacion for v in alcance)]. *)
Definition valores_de (asig : gmap string Z) (alcance : list string)
    : option (list Z) :=
  mapM (λ v, asig !! v) alcance.

(** One constraint is violated by [asig]: all of its scope is assigned and
    its predicate is false on the assigned values. *)
Definition violada (asig : gmap string Z)
    (r : list string * (list Z → bool)) : bool :=
  match valores_de asig r.1 with
  | Some vs => negb (r.2 vs)
  | None => false
  end.

(** [CSP.es_consistente]. *)
Definition es_consistente (csp : CSP) (var : string) (valor : Z)
    (asignacion : gmap string Z) : bool :=
  let asignacion_temp := <[var := valor]> asignacion in
  forallb (λ r, negb (bool_decide (var ∈ r.1) && violada asignacion_temp r))
          (restricciones csp).

(** [CSP.obtener_valores_legales]. *)
Definition obtener_valores_legales (csp : CSP) (var : string)
    (asignacion : gmap string Z) : resultado (list Z) :=
  d ← indexar (dominios csp) var;
  Valor (filter (λ valor, es_consistente csp var valor asignacion) d).

(** [{var: csp.dominios[var].copy() for var in csp.variables}], the private
    copy of the domains that forward checking and AC-3 start from. *)
Fixpoint copiar_dominios (csp : CSP) (vars : list string)
    (acc : gmap string (list Z)) : resultado (gmap string (list Z)) :=
  match vars with
  | [] => Valor acc
  | var :: resto =>
      d ← indexar (dominios csp) var;
      copiar_dominios csp resto (<[var := d]> acc)
  end.

(** [min(vars, key=clave)]: the first element of least key; the key of every
    element is computed, in order.  Raises on the empty list. *)
Fixpoint minimo_desde (clave : string → resultado nat) (mejor : string)
    (k : nat) (vars : list string) : resultado string :=
  match vars with
  | [] => Valor mejor
  | v :: resto =>
      kv ← clave v;
      if bool_decide (kv < k) then minimo_desde clave v kv resto
      else minimo_desde clave mejor k resto
  end.

Definition minimo (clave : string → resultado nat) (vars : list string)
    : resultado string :=
  match vars with
  | [] => Excepcion
  | v :: resto =>
      k ← clave v;
      minimo_desde clave v k resto
  end.

(** [sorted(l, key=clave)]: the keys are computed first, one per element and
    in order; the sort is stable. *)
Fixpoint con_claves (clave : Z → resultado Z) (l : list Z)
    : resultado (list (Z * Z)) :=
  match l with
  | [] => Valor []
  | x :: resto =>
      k ← clave x;
      kl ← con_claves clave resto;
      Valor ((k, x) :: kl)
  end.

Fixpoint insertar_por_clave (kx : Z * Z) (l : list (Z * Z)) : list (Z * Z) :=
  match l with
  | [] => [kx]
  | ky :: l' =>
      if bool_decide (ky.1 ≤ kx.1)%Z then ky :: insertar_por_clave kx l'
      else kx :: l
  end.

Definition ordenar_por_clave (clave : Z → resultado Z) (l : list Z)
    : resultado (list Z) :=
  kl ← con_claves clave l;
  Valor ((foldl (λ acc kx, insertar_por_clave kx acc) [] kl).*2).

(** The same instance with another domain map: the object [csp] once
    [csp.dominios] holds [doms]. *)
Definition con_dominios (csp : CSP) (doms : gmap string (list Z)) : CSP :=
  {| variables := variables csp; dominios := doms;
     restricciones := restricciones csp; vecinos := vecinos csp |}.

(** ** Plain backtracking (002_Bus_Vuel_Atras.py) *)

Module Backtracking.

(** [_seleccionar_variable_no_asignada]: the first variable, in the order of
    [csp.variables], that is not a key of the assignment; [None] when there
    is none. *)
Definition _seleccionar_variable_no_asignada (csp : CSP)
    (asignacion : gmap string Z) : option string :=
  List.find (λ v, bool_decide (asignacion !! v = None)) (variables csp).

(** The [for valor in ...] loop of [_backtrack]; [rec] is the recursive
    call.  The dictionary is mutated in place by the source and restored by
    [del asignacion[var]] before the next value is tried, so every iteration
    starts from [asignacion]. *)
Fixpoint probar (rec : gmap string Z → resultado (option (gmap string Z)))
    (csp : CSP) (var : string) (asignacion : gmap string Z)
    (valores : list Z) : resultado (option (gmap string Z)) :=
  match valores with
  | [] => Valor None
  | valor :: resto =>
      if es_consistente csp var valor asignacion then
        r ← rec (<[var := valor]> asignacion);
        match r with
        | Some sol => Valor (Some sol)
        | None => probar rec csp var asignacion resto
        end
      else probar rec csp var asignacion resto
  end.

(** [SolucionadorBacktracking._backtrack]. *)
Fixpoint _backtrack (fuel : nat) (csp : CSP) (asignacion : gmap string Z)
    : resultado (option (gmap string Z)) :=
  match fuel with
  | O => Agotado
  | S fuel' =>
      if bool_decide (size asignacion = length (variables csp)) then
        Valor (Some asignacion)
      else
        match _seleccionar_variable_no_asignada csp asignacion with
        | None => Excepcion
        | Some var =>
            valores ← indexar (dominios csp) var;
            probar (_backtrack fuel' csp) csp var asignacion valores
        end
  end.

(** [SolucionadorBacktracking.resolver]. *)
Definition resolver (csp : CSP) : resultado retorno :=
  r ← _backtrack (S (length (variables csp))) csp ∅;
  Valor (match r with Some sol => Asignacion sol | None => Ninguno end).

(** The [for valor in ...] loop of [_backtrack] with the counters
    [(asignaciones_probadas, retrocesos)] of the solver object. *)
Fixpoint probar_contado
    (rec : gmap string Z → nat * nat
           → resultado (option (gmap string Z) * (nat * nat)))
    (csp : CSP) (var : string) (asignacion : gmap string Z)
    (valores : list Z) (c : nat * nat)
    : resultado (option (gmap string Z) * (nat * nat)) :=
  match valores with
  | [] => Valor (None, c)
  | valor :: resto =>
      let c := (S c.1, c.2) in
      if es_consistente csp var valor asignacion then
        r ← rec (<[var := valor]> asignacion) c;
        match r.1 with
        | Some sol => Valor (Some sol, r.2)
        | None =>
            probar_contado rec csp var asignacion resto (r.2.1, S r.2.2)
        end
      else probar_contado rec csp var asignacion resto c
  end.

(** [SolucionadorBacktracking._backtrack], counters included. *)
Fixpoint _backtrack_contado (fuel : nat) (csp : CSP)
    (asignacion : gmap string Z) (c : nat * nat)
    : resultado (option (gmap string Z) * (nat * nat)) :=
  match fuel with
  | O => Agotado
  | S fuel' =>
      if bool_decide (size asignacion = length (variables csp)) then
        Valor (Some asignacion, c)
      else
        match _seleccionar_variable_no_asignada csp asignacion with
        | None => Excepcion
        | Some var =>
            valores ← indexar (dominios csp) var;
            probar_contado (_backtrack_contado fuel' csp) csp var asignacion
              valores c
        end
  end.

(** [SolucionadorBacktracking.resolver] together with the values of
    [asignaciones_probadas] and [retrocesos] after the call. *)
Definition resolver_contado (csp : CSP) : resultado (retorno * (nat * nat)) :=
  r ← _backtrack_contado (S (length (variables csp))) csp ∅ (0, 0);
  Valor (match r.1 with Some sol => Asignacion sol | None => Ninguno end, r.2).

End Backtracking.

(** ** Backtracking with MRV and LCV (002_Bus_Vuel_Atras.py) *)

Module BacktrackingMejorado.

(** The nested function [contar_valores_legales] of
    [_seleccionar_variable_mrv]. *)
Definition contar_valores_legales (csp : CSP) (asignacion : gmap string Z)
    (var : string) : resultado nat :=
  legales ← obtener_valores_legales csp var asignacion;
  Valor (length legales).

(** [SolucionadorBacktrackingMejorado._seleccionar_variable_mrv]. *)
Definition _seleccionar_variable_mrv (csp : CSP) (asignacion : gmap string Z)
    : resultado string :=
  let variables_no_asignadas :=
    filter (λ v, asignacion !! v = None) (variables csp) in
  minimo (contar_valores_legales csp asignacion) variables_no_asignadas.

(** The [for vecino in self.csp.vecinos[var]] loop of [contar_conflictos]. *)
Fixpoint sumar_conflictos (csp : CSP) (asignacion asignacion_temp : gmap string Z)
    (vs : list string) (conflictos : Z) : resultado Z :=
  match vs with
  | [] => Valor conflictos
  | vecino :: resto =>
      if bool_decide (asignacion !! vecino = None) then
        antes ← obtener_valores_legales csp vecino asignacion;
        despues ← obtener_valores_legales csp vecino asignacion_temp;
        sumar_conflictos csp asignacion asignacion_temp resto
          (conflictos + (Z.of_nat (length antes) - Z.of_nat (length despues)))%Z
      else sumar_conflictos csp asignacion asignacion_temp resto conflictos
  end.

(** The nested function [contar_conflictos] of [_ordenar_valores_lcv]. *)
Definition contar_conflictos (csp : CSP) (var : string)
    (asignacion : gmap string Z) (valor : Z) : resultado Z :=
  let asignacion_temp := <[var := valor]> asignacion in
  vs ← indexar (vecinos csp) var;
  sumar_conflictos csp asignacion asignacion_temp vs 0%Z.

(** [SolucionadorBacktrackingMejorado._ordenar_valores_lcv]. *)
Definition _ordenar_valores_lcv (csp : CSP) (var : string)
    (asignacion : gmap string Z) : resultado (list Z) :=
  valores_legales ← obtener_valores_legales csp var asignacion;
  ordenar_por_clave (contar_conflictos csp var asignacion) valores_legales.

(** [SolucionadorBacktrackingMejorado._backtrack]; its [for] loop is, word
    for word, the one of [SolucionadorBacktracking._backtrack]. *)
Fixpoint _backtrack (fuel : nat) (csp : CSP) (asignacion : gmap string Z)
    : resultado (option (gmap string Z)) :=
  match fuel with
  | O => Agotado
  | S fuel' =>
      if bool_decide (size asignacion = length (variables csp)) then
        Valor (Some asignacion)
      else
        var ← _seleccionar_variable_mrv csp asignacion;
        valores ← _ordenar_valores_lcv csp var asignacion;
        Backtracking.probar (_backtrack fuel' csp) csp var asignacion valores
  end.

(** [SolucionadorBacktrackingMejorado.resolver]. *)
Definition resolver (csp : CSP) : resultado retorno :=
  r ← _backtrack (S (length (variables csp))) csp ∅;
  Valor (match r with Some sol => Asignacion sol | None => Ninguno end).

End BacktrackingMejorado.

(** ** Forward checking (003_Comp_Hacia_Del.py) *)

Module ForwardChecking.

(** [SolucionadorForwardChecking._seleccionar_variable_mrv]. *)
Definition _seleccionar_variable_mrv (csp : CSP) (asignacion : gmap string Z)
    (dominios : gmap string (list Z)) : resultado string :=
  let variables_no_asignadas :=
    filter (λ v, asignacion !! v = None) (variables csp) in
  minimo (λ v, d ← indexar dominios v; Valor (length d)) variables_no_asignadas.

(** The [for vecino in self.csp.vecinos[var]] loop of [_forward_check], on
    the deep copy [dominios_nuevos]; [asignacion] already holds [var]. *)
Fixpoint _forward_check_bucle (csp : CSP) (asignacion : gmap string Z)
    (vs : list string) (dominios_nuevos : gmap string (list Z))
    : resultado (gmap string (list Z) * bool) :=
  match vs with
  | [] => Valor (dominios_nuevos, true)
  | vecino :: resto =>
      if bool_decide (asignacion !! vecino = None) then
        d ← indexar dominios_nuevos vecino;
        let valores_validos :=
          filter (λ valor_vecino,
                    es_consistente csp vecino valor_vecino
                      (<[vecino := valor_vecino]> asignacion) = true) d in
        let dominios_nuevos := <[vecino := valores_validos]> dominios_nuevos in
        if bool_decide (valores_validos = []) then Valor (dominios_nuevos, false)
        else _forward_check_bucle csp asignacion resto dominios_nuevos
      else _forward_check_bucle csp asignacion resto dominios_nuevos
  end.

(** [SolucionadorForwardChecking._forward_check]. *)
Definition _forward_check (csp : CSP) (var : string) (valor : Z)
    (asignacion : gmap string Z) (dominios : gmap string (list Z))
    : resultado (gmap string (list Z) * bool) :=
  vs ← indexar (vecinos csp) var;
  _forward_check_bucle csp asignacion vs dominios.

(** The [for valor in dominios[var]] loop of [_backtrack]. *)
Fixpoint probar
    (rec : gmap string Z → gmap string (list Z)
           → resultado (option (gmap string Z)))
    (csp : CSP) (var : string) (asignacion : gmap string Z)
    (dominios : gmap string (list Z)) (valores : list Z)
    : resultado (option (gmap string Z)) :=
  match valores with
  | [] => Valor None
  | valor :: resto =>
      if es_consistente csp var valor asignacion then
        let asignacion' := <[var := valor]> asignacion in
        p ← _forward_check csp var valor asignacion' dominios;
        let '(dominios_nuevos, exito) := (p : gmap string (list Z) * bool) in
        if exito then
          r ← rec asignacion' dominios_nuevos;
          match r with
          | Some sol => Valor (Some sol)
          | None => probar rec csp var asignacion dominios resto
          end
        else probar rec csp var asignacion dominios resto
      else probar rec csp var asignacion dominios resto
  end.

(** [SolucionadorForwardChecking._backtrack]. *)
Fixpoint _backtrack (fuel : nat) (csp : CSP) (asignacion : gmap string Z)
    (dominios : gmap string (list Z)) : resultado (option (gmap string Z)) :=
  match fuel with
  | O => Agotado
  | S fuel' =>
      if bool_decide (size asignacion = length (variables csp)) then
        Valor (Some asignacion)
      else
        var ← _seleccionar_variable_mrv csp asignacion dominios;
        valores ← indexar dominios var;
        probar (_backtrack fuel' csp) csp var asignacion dominios valores
  end.

(** [SolucionadorForwardChecking.resolver]. *)
Definition resolver (csp : CSP) : resultado retorno :=
  dominios_actuales ← copiar_dominios csp (variables csp) ∅;
  r ← _backtrack (S (length (variables csp))) csp ∅ dominios_actuales;
  Valor (match r with Some sol => Asignacion sol | None => Ninguno end).

End ForwardChecking.

(** ** Conflict-directed backjumping (005_Salt_Atras_Diri_Conf.py) *)

Module Backjumping.

(** The three kinds of value [_backjump] returns: the assignment (a [dict]),
    a conflict set (a [set]) or the string ["FALLO"].  A returned set is an
    object that is also stored in [conjuntos_conflicto]; [origen] is the key
    under which it is stored, so that the in-place [remove] of the caller can
    be replayed on the store. *)
Inductive salida : Type :=
| Exito (a : gmap string Z)
| Conflicto (origen : string) (s : gset string)
| Fallo.

(** [CSP.obtener_variables_conflicto]. *)
Definition obtener_variables_conflicto (csp : CSP) (var : string) (valor : Z)
    (asignacion : gmap string Z) : gset string :=
  let asignacion_temp := <[var := valor]> asignacion in
  foldl (λ (conflictos : gset string) r,
           if bool_decide (var ∈ r.1) && violada asignacion_temp r then
             conflictos ∪
             list_to_set
               (filter (λ v, v ≠ var ∧ is_Some (asignacion !! v)) r.1)
           else conflictos)
        ∅ (restricciones csp).

(** [_seleccionar_variable]. *)
Definition _seleccionar_variable (csp : CSP) (asignacion : gmap string Z)
    : option string :=
  List.find (λ v, bool_decide (asignacion !! v = None)) (variables csp).

(** The [for valor in self.csp.dominios[var]] loop of [_backjump] followed by
    its final [return]; [rec] is the recursive call, [cc] the shared
    dictionary [conjuntos_conflicto].  [cc !!! var] reads an entry that the
    call wrote on entry. *)
Fixpoint probar
    (rec : gmap string Z → gmap string (gset string)
           → resultado (salida * gmap string (gset string)))
    (csp : CSP) (var : string) (asignacion : gmap string Z)
    (valores : list Z) (cc : gmap string (gset string))
    : resultado (salida * gmap string (gset string)) :=
  match valores with
  | [] =>
      if bool_decide (cc !!! var = (∅ : gset string)) then Valor (Fallo, cc)
      else Valor (Conflicto var (cc !!! var), cc)
  | valor :: resto =>
      if es_consistente csp var valor asignacion then
        r ← rec (<[var := valor]> asignacion) cc;
        match r with
        | (Exito sol, cc') => Valor (Exito sol, cc')
        | (Conflicto origen conjunto_conf, cc') =>
            if bool_decide (var ∈ conjunto_conf) then
              let conjunto_conf' := conjunto_conf ∖ {[var]} in
              let cc1 := <[origen := conjunto_conf']> cc' in
              probar rec csp var asignacion resto
                     (<[var := cc1 !!! var ∪ conjunto_conf']> cc1)
            else Valor (Conflicto origen conjunto_conf, cc')
        | (Fallo, cc') => probar rec csp var asignacion resto cc'
        end
      else
        let conflictos := obtener_variables_conflicto csp var valor asignacion in
        probar rec csp var asignacion resto
               (<[var := cc !!! var ∪ conflictos]> cc)
  end.

(** [SolucionadorBackjumping._backjump]; the [nivel] argument of the source
    is only passed along and is left out. *)
Fixpoint _backjump (fuel : nat) (csp : CSP) (asignacion : gmap string Z)
    (conjuntos_conflicto : gmap string (gset string))
    : resultado (salida * gmap string (gset string)) :=
  match fuel with
  | O => Agotado
  | S fuel' =>
      if bool_decide (size asignacion = length (variables csp)) then
        Valor (Exito asignacion, conjuntos_conflicto)
      else
        match _seleccionar_variable csp asignacion with
        | None => Excepcion
        | Some var =>
            let cc := <[var := ∅]> conjuntos_conflicto in
            valores ← indexar (dominios csp) var;
            probar (_backjump fuel' csp) csp var asignacion valores cc
        end
  end.

(** [SolucionadorBackjumping.resolver]: whatever [_backjump] returned is
    handed back, except that ["FALLO"] becomes [None]. *)
Definition resolver (csp : CSP) : resultado retorno :=
  let conjuntos_conflicto : gmap string (gset string) :=
    list_to_map ((λ v, (v, ∅)) <$> variables csp) in
  r ← _backjump (S (length (variables csp))) csp ∅ conjuntos_conflicto;
  Valor (match r.1 with
         | Exito sol => Asignacion sol
         | Conflicto _ s => Conjunto s
         | Fallo => Ninguno
         end).

End Backjumping.

(** ** Constraint propagation: AC-3 and MAC (004_Propa_de_Restri.py) *)

Module Propagacion.

(** [CSP._calcular_arcos]; the loop header [for (var1, var2) in ...] raises
    on a key that is not a pair.  The source runs it in [__init__] and keeps
    the list in [self.arcos]. *)
Fixpoint _calcular_arcos (claves : list (list string))
    : resultado (list (string * string)) :=
  match claves with
  | [] => Valor []
  | [var1; var2] :: resto =>
      arcos ← _calcular_arcos resto;
      Valor ((var1, var2) :: (var2, var1) :: arcos)
  | _ :: _ => Excepcion
  end.

Definition arcos (csp : CSP) : resultado (list (string * string)) :=
  _calcular_arcos ((restricciones csp).*1).

(** [clave in self.restricciones] and [self.restricciones[clave]]. *)
Definition buscar (clave : list string)
    (restr : list (list string * (list Z → bool))) : option (list Z → bool) :=
  snd <$> List.find (λ r, bool_decide (r.1 = clave)) restr.

(** [CSP.es_consistente_binaria]. *)
Definition es_consistente_binaria (csp : CSP) (var1 : string) (valor1 : Z)
    (var2 : string) (valor2 : Z) : bool :=
  match buscar [var1; var2] (restricciones csp) with
  | Some f => f [valor1; valor2]
  | None =>
      match buscar [var2; var1] (restricciones csp) with
      | Some f => f [valor2; valor1]
      | None => true
      end
  end.

(** [l.remove(x)]: drops the first occurrence. *)
Fixpoint quitar (x : Z) (l : list Z) : list Z :=
  match l with
  | [] => []
  | y :: l' => if bool_decide (x = y) then l' else y :: quitar x l'
  end.

(** First loop of [revisar_arco]: the list [valores_a_eliminar];
    [dominios[xj]] is read once per value of [dominios[xi]]. *)
Fixpoint valores_a_eliminar (csp : CSP) (xi xj : string)
    (dominios : gmap string (list Z)) (di : list Z) : resultado (list Z) :=
  match di with
  | [] => Valor []
  | valor_i :: resto =>
      dj ← indexar dominios xj;
      eliminar ← valores_a_eliminar csp xi xj dominios resto;
      if existsb (λ valor_j, es_consistente_binaria csp xi valor_i xj valor_j) dj
      then Valor eliminar
      else Valor (valor_i :: eliminar)
  end.

(** [revisar_arco]: returns [(revisado, num_podas)] and the dictionary
    [dominios] after the in-place removals. *)
Definition revisar_arco (csp : CSP) (xi xj : string)
    (dominios : gmap string (list Z))
    : resultado (bool * nat * gmap string (list Z)) :=
  di ← indexar dominios xi;
  eliminar ← valores_a_eliminar csp xi xj dominios di;
  let di' := foldl (λ d valor, quitar valor d) di eliminar in
  Valor (bool_decide (eliminar ≠ []), length eliminar, <[xi := di']> dominios).

(** The [while cola] loop of [ac3]. *)
Fixpoint ac3_bucle (fuel : nat) (csp : CSP) (cola : list (string * string))
    (dominios : gmap string (list Z))
    : resultado (bool * gmap string (list Z)) :=
  match fuel with
  | O => Agotado
  | S fuel' =>
      match cola with
      | [] => Valor (true, dominios)
      | (xi, xj) :: resto =>
          r ← revisar_arco csp xi xj dominios;
          let '(revisado, _, dominios') := (r : bool * nat * gmap string (list Z)) in
          if revisado then
            di ← indexar dominios' xi;
            if bool_decide (di = []) then Valor (false, dominios')
            else
              vs ← indexar (vecinos csp) xi;
              ac3_bucle fuel' csp
                (resto ++ ((λ xk, (xk, xi)) <$> filter (λ xk, xk ≠ xj) vs))
                dominios'
          else ac3_bucle fuel' csp resto dominios'
      end
  end.

(** Budget of the loop: every revision that re-enqueues arcs removes a value,
    and it enqueues at most as many arcs as the largest neighbour set. *)
Definition total_valores (dominios : gmap string (list Z)) : nat :=
  sum_list (length <$> (map_to_list dominios).*2).

Definition max_vecinos (csp : CSP) : nat :=
  max_list (length <$> (map_to_list (vecinos csp)).*2).

Definition presupuesto (csp : CSP) (cola : list (string * string))
    (dominios : gmap string (list Z)) : nat :=
  S (length cola + S (max_vecinos csp) * total_valores dominios).

(** [ac3]. *)
Definition ac3 (csp : CSP) (cola_arcos : option (list (string * string)))
    : resultado (bool * gmap string (list Z)) :=
  dominios ← copiar_dominios csp (variables csp) ∅;
  cola ← match cola_arcos with
         | None => arcos csp
         | Some c => Valor c
         end;
  ac3_bucle (presupuesto csp cola dominios) csp cola dominios.

(** [SolucionadorMAC._seleccionar_variable_mrv]. *)
Definition _seleccionar_variable_mrv (csp : CSP) (asignacion : gmap string Z)
    (dominios : gmap string (list Z)) : resultado string :=
  let variables_no_asignadas :=
    filter (λ v, asignacion !! v = None) (variables csp) in
  minimo (λ v, d ← indexar dominios v; Valor (length d)) variables_no_asignadas.

(** The statements of [_backtrack] between [asignacion[var] = valor] and the
    test of [exito]: the propagation that follows an assignment.  The copy
    [dominios_nuevos] of the current domains, with [var] narrowed to
    [[valor]], is rebound to the second component of what [ac3] returns. *)
Definition propagar (csp : CSP) (var : string) (valor : Z)
    (asignacion : gmap string Z) (dominios : gmap string (list Z))
    : resultado (bool * gmap string (list Z)) :=
  let asignacion' := <[var := valor]> asignacion in
  let dominios_nuevos := <[var := [valor]]> dominios in
  vs ← indexar (vecinos csp) var;
  let arcos_afectados :=
    (λ vecino, (vecino, var)) <$> filter (λ vecino, asignacion' !! vecino = None) vs in
  r ← ac3 csp (Some arcos_afectados);
  let '(exito, dominios_nuevos) := (r : bool * gmap string (list Z)) in
  Valor (exito, dominios_nuevos).

(** The [for valor in dominios[var]] loop of [SolucionadorMAC._backtrack]. *)
Fixpoint probar
    (rec : gmap string Z → gmap string (list Z)
           → resultado (option (gmap string Z)))
    (csp : CSP) (var : string) (asignacion : gmap string Z)
    (dominios : gmap string (list Z)) (valores : list Z)
    : resultado (option (gmap string Z)) :=
  match valores with
  | [] => Valor None
  | valor :: resto =>
      p ← propagar csp var valor asignacion dominios;
      let '(exito, dominios_nuevos) := (p : bool * gmap string (list Z)) in
      if exito then
        r ← rec (<[var := valor]> asignacion) dominios_nuevos;
        match r with
        | Some sol => Valor (Some sol)
        | None => probar rec csp var asignacion dominios resto
        end
      else probar rec csp var asignacion dominios resto
  end.

(** [SolucionadorMAC._backtrack]. *)
Fixpoint _backtrack (fuel : nat) (csp : CSP) (asignacion : gmap string Z)
    (dominios : gmap string (list Z)) : resultado (option (gmap string Z)) :=
  match fuel with
  | O => Agotado
  | S fuel' =>
      if bool_decide (size asignacion = length (variables csp)) then
        Valor (Some asignacion)
      else
        var ← _seleccionar_variable_mrv csp asignacion dominios;
        valores ← indexar dominios var;
        probar (_backtrack fuel' csp) csp var asignacion dominios valores
  end.

(** [SolucionadorMAC.resolver]. *)
Definition resolver (csp : CSP) : resultado retorno :=
  p ← ac3 csp None;
  let '(exito, dominios_iniciales) := (p : bool * gmap string (list Z)) in
  if exito then
    r ← _backtrack (S (length (variables csp))) csp ∅ dominios_iniciales;
    Valor (match r with Some sol => Asignacion sol | None => Ninguno end)
  else Valor Ninguno.

End Propagacion.

(** ** Min-conflicts local search (006_Bus_Loc_Min_Confli.py) *)

Module MinConflicts.

(** The global generator of the [random] module, as an explicit stream of
    draws that is threaded through the calls. *)
Definition azar : Type := nat → nat.

(** [random.choice(l)]; raises [IndexError] on the empty list. *)
Definition choice {A} (l : list A) (g : azar) : resultado (A * azar) :=
  match l !! (g 0 mod length l) with
  | Some x => Valor (x, λ n, g (S n))
  | None => Excepcion
  end.

(** [CSP.contar_conflictos]. *)
Definition contar_conflictos (csp : CSP) (var : string) (valor : Z)
    (asignacion : gmap string Z) : nat :=
  let asignacion_temp := <[var := valor]> asignacion in
  length (filter (λ r, bool_decide (var ∈ r.1) && violada asignacion_temp r = true)
                 (restricciones csp)).

(** The set built by [CSP.obtener_variables_en_conflicto]. *)
Definition variables_conflicto (csp : CSP) (asignacion : gmap string Z)
    : gset string :=
  foldl (λ (s : gset string) r,
           if violada asignacion r then s ∪ list_to_set r.1 else s)
        ∅ (restricciones csp).

(** [CSP.obtener_variables_en_conflicto]: [list(variables_conflicto)]. *)
Definition obtener_variables_en_conflicto (csp : CSP)
    (asignacion : gmap string Z) : list string :=
  elements (variables_conflicto csp asignacion).

(** [{var: random.choice(csp.dominios[var]) for var in csp.variables}]. *)
Fixpoint asignacion_inicial (csp : CSP) (vars : list string) (g : azar)
    (acc : gmap string Z) : resultado (gmap string Z * azar) :=
  match vars with
  | [] => Valor (acc, g)
  | var :: resto =>
      d ← indexar (dominios csp) var;
      c ← choice d g;
      asignacion_inicial csp resto c.2 (<[var := c.1]> acc)
  end.

(** The loop that collects [valores_minimos]; [min_conflictos] starts at
    [float('inf')], here [None]. *)
Definition minimizar (csp : CSP) (var : string) (asignacion : gmap string Z)
    (valores : list Z) : option nat * list Z :=
  foldl (λ (st : option nat * list Z) valor,
           let num_conflictos := contar_conflictos csp var valor asignacion in
           match st.1 with
           | None => (Some num_conflictos, [valor])
           | Some min_conflictos =>
               if bool_decide (num_conflictos < min_conflictos)
               then (Some num_conflictos, [valor])
               else if bool_decide (num_conflictos = min_conflictos)
                    then (st.1, st.2 ++ [valor])
                    else st
           end)
        (None, []) valores.

(** The [for paso in range(max_pasos)] loop of [min_conflicts] and the
    [return None] after it. *)
Fixpoint bucle (csp : CSP) (pasos : nat) (asignacion : gmap string Z)
    (g : azar) : resultado retorno :=
  match pasos with
  | O => Valor Ninguno
  | S pasos' =>
      let variables_conflicto := obtener_variables_en_conflicto csp asignacion in
      if bool_decide (variables_conflicto = []) then Valor (Asignacion asignacion)
      else
        c ← choice variables_conflicto g;
        let var := c.1 in
        d ← indexar (dominios csp) var;
        let valores_minimos := (minimizar csp var asignacion d).2 in
        c' ← choice valores_minimos c.2;
        bucle csp pasos' (<[var := c'.1]> asignacion) c'.2
  end.

(** [min_conflicts]. *)
Definition min_conflicts (csp : CSP) (max_pasos : nat) (g : azar)
    : resultado retorno :=
  a ← asignacion_inicial csp (variables csp) g ∅;
  bucle csp max_pasos a.1 a.2.

(** The [for paso in range(max_pasos)] loop of
    [min_conflicts_con_estadisticas] and the [return] after it. *)
Fixpoint bucle_estadisticas (csp : CSP) (pasos : nat)
    (asignacion : gmap string Z) (g : azar) (cambios : nat)
    (historial_conflictos : list nat)
    : resultado (retorno * nat * list nat) :=
  match pasos with
  | O => Valor (Ninguno, cambios, historial_conflictos)
  | S pasos' =>
      let variables_conflicto := obtener_variables_en_conflicto csp asignacion in
      let num_conflictos := length variables_conflicto in
      let historial_conflictos := historial_conflictos ++ [num_conflictos] in
      if bool_decide (variables_conflicto = []) then
        Valor (Asignacion asignacion, cambios, historial_conflictos)
      else
        c ← choice variables_conflicto g;
        let var := c.1 in
        d ← indexar (dominios csp) var;
        let valores_minimos := (minimizar csp var asignacion d).2 in
        c' ← choice valores_minimos c.2;
        let nuevo_valor := c'.1 in
        actual ← indexar asignacion var;
        let cambios :=
          if bool_decide (actual ≠ nuevo_valor) then S cambios else cambios in
        bucle_estadisticas csp pasos' (<[var := nuevo_valor]> asignacion) c'.2
          cambios historial_conflictos
  end.

(** [min_conflicts_con_estadisticas]: the triple
    [(asignacion, cambios, historial_conflictos)]. *)
Definition min_conflicts_con_estadisticas (csp : CSP) (max_pasos : nat)
    (g : azar) : resultado (retorno * nat * list nat) :=
  a ← asignacion_inicial csp (variables csp) g ∅;
  bucle_estadisticas csp max_pasos a.1 a.2 0 [].

End MinConflicts.

(** ** Cutset conditioning (007_Acondi_Corte.py)

    A Python [set] of variables is kept as the list of its elements in
    iteration order; where the source builds the set itself
    ([encontrar_cutset_simple], [acondicionamiento_cutset]) the order taken
    is the order of insertion. *)

Module Cutset.

(** The [for vecino in csp.vecinos[var]] loop of [dfs]; [rec] is the
    recursive call, the state is [(visitados, orden)]. *)
Fixpoint recorrer
    (rec : string → gset string * list string
           → resultado (gset string * list string))
    (vars : list string) (vs : list string) (st : gset string * list string)
    : resultado (gset string * list string) :=
  match vs with
  | [] => Valor st
  | vecino :: resto =>
      if bool_decide (vecino ∈ vars) && bool_decide (vecino ∉ st.1) then
        st' ← rec vecino st;
        recorrer rec vars resto st'
      else recorrer rec vars resto st
  end.

(** The nested function [dfs] of [ordenar_topologicamente]. *)
Fixpoint dfs (fuel : nat) (csp : CSP) (vars : list string) (var : string)
    (st : gset string * list string) : resultado (gset string * list string) :=
  match fuel with
  | O => Agotado
  | S fuel' =>
      let visitados := {[var]} ∪ st.1 in
      vs ← indexar (vecinos csp) var;
      st' ← recorrer (dfs fuel' csp vars) vars vs (visitados, st.2);
      Valor (st'.1, st'.2 ++ [var])
  end.

(** [ordenar_topologicamente]. *)
Definition ordenar_topologicamente (csp : CSP) (raiz : string)
    (vars : list string) : resultado (list string) :=
  st ← dfs (S (length vars)) csp vars raiz (∅, []);
  Valor st.2.

(** Phase 1 of [resolver_arbol_csp]; the state is [csp.dominios], which the
    source overwrites.  [false] stands for the early [return None]. *)
Fixpoint fase1 (csp : CSP) (asignacion : gmap string Z) (orden : list string)
    (dominios : gmap string (list Z))
    : resultado (bool * gmap string (list Z)) :=
  match orden with
  | [] => Valor (true, dominios)
  | var :: resto =>
      if bool_decide (is_Some (asignacion !! var)) then
        fase1 csp asignacion resto dominios
      else
        d ← indexar dominios var;
        let valores_validos :=
          filter (λ valor, es_consistente csp var valor asignacion = true) d in
        if bool_decide (valores_validos = []) then Valor (false, dominios)
        else fase1 csp asignacion resto (<[var := valores_validos]> dominios)
  end.

(** Phase 2 of [resolver_arbol_csp]. *)
Fixpoint fase2 (csp : CSP) (dominios : gmap string (list Z))
    (orden : list string) (asignacion : gmap string Z)
    : resultado (option (gmap string Z)) :=
  match orden with
  | [] => Valor (Some asignacion)
  | var :: resto =>
      if bool_decide (is_Some (asignacion !! var)) then
        fase2 csp dominios resto asignacion
      else
        d ← indexar dominios var;
        match List.find (λ valor, es_consistente csp var valor asignacion) d with
        | Some valor => fase2 csp dominios resto (<[var := valor]> asignacion)
        | None => Valor None
        end
  end.

(** [resolver_arbol_csp]: what is returned, and [csp.dominios] after the
    call. *)
Definition resolver_arbol_csp (csp : CSP) (vars : list string)
    (asignacion : gmap string Z)
    : resultado (retorno * gmap string (list Z)) :=
  match vars with
  | [] => Valor (Asignacion asignacion, dominios csp)
  | raiz :: _ =>
      orden ← ordenar_topologicamente csp raiz vars;
      p ← fase1 csp asignacion (reverse orden) (dominios csp);
      let '(exito, dominios') := (p : bool * gmap string (list Z)) in
      if exito then
        r ← fase2 csp dominios' orden asignacion;
        Valor (match r with Some sol => Asignacion sol | None => Ninguno end,
               dominios')
      else Valor (Ninguno, dominios')
  end.

(** [set(l)], elements in order of first insertion. *)
Definition conjunto (l : list string) : list string :=
  foldl (λ s x, agregar x s) [] l.

(** [max(vars, key=clave)]: the first element of greatest key. *)
Fixpoint maximo_desde (clave : string → resultado nat) (mejor : string)
    (k : nat) (vars : list string) : resultado string :=
  match vars with
  | [] => Valor mejor
  | v :: resto =>
      kv ← clave v;
      if bool_decide (k < kv) then maximo_desde clave v kv resto
      else maximo_desde clave mejor k resto
  end.

Definition maximo (clave : string → resultado nat) (vars : list string)
    : resultado string :=
  match vars with
  | [] => Excepcion
  | v :: resto =>
      k ← clave v;
      maximo_desde clave v k resto
  end.

(** The [for vecino in csp.vecinos[nodo]] loop of [tiene_ciclo_bfs]; the
    state is [(visitados, cola)], [true] stands for [return True]. *)
Fixpoint explorar_vecinos (vars : list string) (nodo : string)
    (padre : option string) (vs : list string)
    (st : gset string * list (string * option string))
    : bool * (gset string * list (string * option string)) :=
  match vs with
  | [] => (false, st)
  | vecino :: resto =>
      if bool_decide (vecino ∉ vars) then
        explorar_vecinos vars nodo padre resto st
      else if bool_decide (vecino ∉ st.1) then
        explorar_vecinos vars nodo padre resto
          ({[vecino]} ∪ st.1, st.2 ++ [(vecino, Some nodo)])
      else if bool_decide (Some vecino ≠ padre) then (true, st)
      else explorar_vecinos vars nodo padre resto st
  end.

(** The [while cola] loop of [tiene_ciclo_bfs]. *)
Fixpoint bfs_bucle (fuel : nat) (csp : CSP) (vars : list string)
    (st : gset string * list (string * option string))
    : resultado (bool * gset string) :=
  match fuel with
  | O => Agotado
  | S fuel' =>
      match st.2 with
      | [] => Valor (false, st.1)
      | (nodo, padre) :: cola =>
          vs ← indexar (vecinos csp) nodo;
          let r := explorar_vecinos vars nodo padre vs (st.1, cola) in
          if r.1 then Valor (true, r.2.1) else bfs_bucle fuel' csp vars r.2
      end
  end.

(** [tiene_ciclo_bfs]: the answer, and the set [visitados] after the call. *)
Definition tiene_ciclo_bfs (csp : CSP) (inicio : string) (vars : list string)
    (visitados : gset string) : resultado (bool * gset string) :=
  bfs_bucle (S (S (length vars))) csp vars
    ({[inicio]} ∪ visitados, [(inicio, None)]).

(** The [for inicio in variables] loop of [es_aciclico]. *)
Fixpoint es_aciclico_bucle (csp : CSP) (vars : list string)
    (pendientes : list string) (visitados : gset string) : resultado bool :=
  match pendientes with
  | [] => Valor true
  | inicio :: resto =>
      if bool_decide (inicio ∉ visitados) then
        r ← tiene_ciclo_bfs csp inicio vars visitados;
        if (r : bool * gset string).1 then Valor false
        else es_aciclico_bucle csp vars resto r.2
      else es_aciclico_bucle csp vars resto visitados
  end.

(** [es_aciclico]. *)
Definition es_aciclico (csp : CSP) (vars : list string) : resultado bool :=
  if bool_decide (length vars ≤ 1) then Valor true
  else es_aciclico_bucle csp vars vars ∅.

(** The key of [max] in [encontrar_cutset_simple]:
    [len(csp.vecinos[v] & variables_restantes)]. *)
Definition grado (csp : CSP) (restantes : list string) (v : string)
    : resultado nat :=
  vs ← indexar (vecinos csp) v;
  Valor (length (filter (λ x, x ∈ restantes) (vs : list string))).

(** The [while] loop of [encontrar_cutset_simple]; the state is
    [(cutset, variables_restantes)]. *)
Fixpoint encontrar_cutset_bucle (fuel : nat) (csp : CSP)
    (cutset restantes : list string) : resultado (list string) :=
  match fuel with
  | O => Agotado
  | S fuel' =>
      aciclico ← es_aciclico csp restantes;
      if (aciclico : bool) then Valor cutset
      else
        var_max_grado ← maximo (grado csp restantes) restantes;
        encontrar_cutset_bucle fuel' csp (agregar var_max_grado cutset)
          (filter (λ x, x ≠ var_max_grado) restantes)
  end.

(** [encontrar_cutset_simple]. *)
Definition encontrar_cutset_simple (csp : CSP) : resultado (list string) :=
  let variables_restantes := conjunto (variables csp) in
  encontrar_cutset_bucle (S (length variables_restantes)) csp []
    variables_restantes.

(** The nested function [backtrack] of [generar_combinaciones]; the state is
    the dictionary [asignacion_actual], updated in place, and the list
    [combinaciones].  [vars] is [variables[idx:]]. *)
Fixpoint backtrack (vars : list string) (dominios : list (list Z)) (idx : nat)
    (asignacion_actual : gmap string Z) (combinaciones : list (gmap string Z))
    : resultado (gmap string Z * list (gmap string Z)) :=
  match vars with
  | [] => Valor (asignacion_actual, combinaciones ++ [asignacion_actual])
  | var :: resto =>
      match dominios !! idx with
      | None => Excepcion
      | Some d =>
          (fix bucle (valores : list Z)
               (st : gmap string Z * list (gmap string Z)) :=
             match valores with
             | [] => Valor st
             | valor :: mas =>
                 st' ← backtrack resto dominios (S idx)
                         (<[var := valor]> st.1) st.2;
                 if bool_decide (is_Some (st'.1 !! var))
                 then bucle mas (delete var st'.1, st'.2)
                 else Excepcion
             end) d (asignacion_actual, combinaciones)
      end
  end.

(** [generar_combinaciones]. *)
Definition generar_combinaciones (vars : list string) (doms : list (list Z))
    : resultado (list (gmap string Z)) :=
  match vars with
  | [] => Valor [∅]
  | _ =>
      st ← backtrack vars doms 0 ∅ [];
      Valor st.2
  end.

(** The [for asignacion_cutset in ...] loop of [acondicionamiento_cutset];
    [doms] is [csp.dominios] as the previous calls of [resolver_arbol_csp]
    left it. *)
Fixpoint probar_combinaciones (csp : CSP) (restantes : list string)
    (combinaciones : list (gmap string Z)) (doms : gmap string (list Z))
    : resultado (retorno * gmap string (list Z)) :=
  match combinaciones with
  | [] => Valor (Ninguno, doms)
  | asignacion_cutset :: resto =>
      r ← resolver_arbol_csp (con_dominios csp doms) restantes
            asignacion_cutset;
      match (r : retorno * gmap string (list Z)).1 with
      | Ninguno => probar_combinaciones csp restantes resto r.2
      | _ => Valor r
      end
  end.

(** [acondicionamiento_cutset]: what is returned, and [csp.dominios] after
    the call. *)
Definition acondicionamiento_cutset (csp : CSP)
    : resultado (retorno * gmap string (list Z)) :=
  cutset ← encontrar_cutset_simple csp;
  dominios_cutset ← mapM (indexar (dominios csp)) cutset;
  combinaciones ← generar_combinaciones cutset dominios_cutset;
  let variables_restantes :=
    filter (λ x, x ∉ cutset) (conjunto (variables csp)) in
  probar_combinaciones csp variables_restantes combinaciones (dominios csp).

End Cutset.

(** ** Vocabulary of the specification *)

(** The predicate of every constraint holds on the values the assignment
    gives to its scope. *)
Definition satisface (csp : CSP) (a : gmap string Z) : Prop :=
  ∀ r, r ∈ restricciones csp → ∃ vs, valores_de a r.1 = Some vs ∧ r.2 vs = true.

(** One value per variable. *)
Definition completa (csp : CSP) (a : gmap string Z) : Prop :=
  dom a = list_to_set (variables csp).

(** Every assigned value is taken from the domain of its variable. *)
Definition en_dominios (doms : gmap string (list Z)) (a : gmap string Z) : Prop :=
  ∀ var valor, a !! var = Some valor → ∃ d, doms !! var = Some d ∧ valor ∈ d.

(** A solution: a complete assignment, over the domains, that satisfies every
    constraint. *)
Definition solucion (csp : CSP) (a : gmap string Z) : Prop :=
  completa csp a ∧ en_dominios (dominios csp) a ∧ satisface csp a.

(** The scope of every constraint mentions declared variables only. *)
Definition alcances_declarados (csp : CSP) : Prop :=
  ∀ r v, r ∈ restricciones csp → v ∈ r.1 → v ∈ variables csp.

(** No constraint has the empty tuple as its key. *)
Definition alcances_no_vacios (csp : CSP) : Prop :=
  ∀ r, r ∈ restricciones csp → r.1 ≠ [].

(** The input contract: distinct variables, a domain for each of them, and
    constraints over non-empty tuples of declared variables. *)
Definition bien_formado (csp : CSP) : Prop :=
  NoDup (variables csp)
  ∧ (∀ v, v ∈ variables csp → is_Some (dominios csp !! v))
  ∧ alcances_declarados csp
  ∧ alcances_no_vacios csp.

(** Two assignments give the same value to the variables of [s]. *)
Definition coinciden (s : gset string) (a a' : gmap string Z) : Prop :=
  ∀ x, x ∈ s → a' !! x = a !! x.

(** Arc revision as the specification words it: [a] and [b] are compatible
    when every constraint keyed by the pair, in either orientation, holds. *)
Definition compatible_todas (csp : CSP) (xi : string) (a : Z) (xj : string)
    (b : Z) : bool :=
  forallb (λ r, (if bool_decide (r.1 = [xi; xj]) then r.2 [a; b] else true)
                && (if bool_decide (r.1 = [xj; xi]) then r.2 [b; a] else true))
          (restricciones csp).

Definition revision_especificada (csp : CSP) (xi xj : string) (di dj : list Z)
    : list Z :=
  filter (λ a, existsb (compatible_todas csp xi a xj) dj = true) di.

(** ** Auxiliary notions of the proofs *)

(** Every constraint over a non-empty tuple whose scope is fully assigned
    holds: what incremental consistency checking maintains. *)
Definition consistente_parcial (csp : CSP) (a : gmap string Z) : Prop :=
  ∀ r, r ∈ restricciones csp → r.1 ≠ [] → violada a r = false.

(** What every solver built on [es_consistente] maintains: the assigned
    variables are declared and the assignment is consistent so far. *)
Definition estado_parcial (csp : CSP) (a : gmap string Z) : Prop :=
  dom a ⊆ list_to_set (variables csp) ∧ consistente_parcial csp a.

(** The partial assignments that plain backtracking walks through. *)
Definition estado_valido (csp : CSP) (a : gmap string Z) : Prop :=
  dom a ⊆ list_to_set (variables csp)
  ∧ en_dominios (dominios csp) a
  ∧ consistente_parcial csp a.

(** Frame of a call of [_backjump] on [a]: the entries of
    [conjuntos_conflicto] of the assigned variables are untouched, and a
    returned set is stored under an unassigned variable. *)
Definition marco (a : gmap string Z) (cc : gmap string (gset string))
    (r : resultado (Backjumping.salida * gmap string (gset string))) : Prop :=
  match r with
  | Valor (s, cc') =>
      (∀ x, x ∈ dom a → cc' !! x = cc !! x)
      ∧ match s with
        | Backjumping.Conflicto origen _ => origen ∉ dom a
        | _ => True
        end
  | _ => True
  end.

(** What a result of [_backjump] on [a] says about plain backtracking
    [rec_bt]: a returned assignment is the one backtracking returns; a
    conflict set is a non-empty set of assigned variables whose values alone
    make backtracking fail; ["FALLO"] means that backtracking fails whatever
    the values of the assigned variables. *)
Definition simula (rec_bt : gmap string Z → resultado (option (gmap string Z)))
    (a : gmap string Z)
    (r : resultado (Backjumping.salida * gmap string (gset string))) : Prop :=
  match r with
  | Valor (Backjumping.Exito sol, _) => rec_bt a = Valor (Some sol)
  | Valor (Backjumping.Fallo, _) =>
      ∀ a', dom a' = dom a → rec_bt a' = Valor None
  | Valor (Backjumping.Conflicto _ s, _) =>
      s ≠ ∅ ∧ s ⊆ dom a
      ∧ ∀ a', dom a' = dom a → coinciden s a a' → rec_bt a' = Valor None
  | Excepcion => rec_bt a = Excepcion
  | Agotado => rec_bt a = Agotado
  end.

(** The same for the loop over the values that are still to be tried, where
    [c] is the conflict set accumulated so far. *)
Definition simula_bucle
    (rec_bt : gmap string Z → resultado (option (gmap string Z)))
    (csp : CSP) (var : string) (a : gmap string Z) (valores : list Z)
    (c : gset string)
    (r : resultado (Backjumping.salida * gmap string (gset string))) : Prop :=
  match r with
  | Valor (Backjumping.Exito sol, _) =>
      Backtracking.probar rec_bt csp var a valores = Valor (Some sol)
  | Valor (Backjumping.Fallo, _) =>
      c = ∅
      ∧ ∀ a', dom a' = dom a →
              Backtracking.probar rec_bt csp var a' valores = Valor None
  | Valor (Backjumping.Conflicto _ s, _) =>
      s ≠ ∅ ∧ s ⊆ dom a
      ∧ ((c ⊆ s
          ∧ ∀ a', dom a' = dom a → coinciden s a a' →
                  Backtracking.probar rec_bt csp var a' valores = Valor None)
         ∨ (∀ a' l, dom a' = dom a → coinciden s a a' →
                    Backtracking.probar rec_bt csp var a' l = Valor None))
  | Excepcion => Backtracking.probar rec_bt csp var a valores = Excepcion
  | Agotado => Backtracking.probar rec_bt csp var a valores = Agotado
  end.

(** The value [a] of [xi] has a partner in [dj], the domain of [xj]. *)
Definition soportado (csp : CSP) (xi xj : string) (dj : list Z) (a : Z) : bool :=
  existsb (λ b, Propagacion.es_consistente_binaria csp xi a xj b) dj.

(** Invariant of the AC-3 loop: the working domains cover the variables, are
    contained in the canonical ones, and still contain every solution. *)
Definition invariante_ac3 (csp : CSP) (doms : gmap string (list Z)) : Prop :=
  dom doms = list_to_set (variables csp)
  ∧ (∀ x d, doms !! x = Some d →
            ∃ d0, dominios csp !! x = Some d0 ∧ d ⊆ d0)
  ∧ (∀ sol, solucion csp sol → en_dominios doms sol).

(** A call of [dfs] returns or raises, and only adds to [visitados]. *)
Definition dfs_termina (vars : list string) (st : gset string * list string)
    (r : resultado (gset string * list string)) : Prop :=
  match r with
  | Valor st' => st.1 ⊆ st'.1
  | Excepcion => True
  | Agotado => False
  end.

(** The measure of the [while] loop of [tiene_ciclo_bfs]: the length of the
    queue plus the number of variables not yet visited. *)
Definition medida_bfs (vars : list string)
    (st : gset string * list (string * option string)) : nat :=
  length st.2 + size (list_to_set vars ∖ st.1 : gset string).

(** ** Vocabulary of the further properties *)

(** A run of a systematic solver decides the instance: it hands back a
    solution, or [None] when there is none. *)
Definition decide_instancia (csp : CSP) (r : resultado retorno) : Prop :=
  (∃ sol, r = Valor (Asignacion sol) ∧ solucion csp sol)
  ∨ (r = Valor Ninguno ∧ ∀ a, ¬ solucion csp a).

(** A binary instance: every key is a pair of two different variables, and
    no pair is a key in both orientations. *)
Definition binario (csp : CSP) : Prop :=
  (∀ r, r ∈ restricciones csp → ∃ x y, r.1 = [x; y] ∧ x ≠ y)
  ∧ (∀ x y, [x; y] ∈ (restricciones csp).*1 →
            [y; x] ∉ (restricciones csp).*1).

(** The pair [(x, y)] is an arc of the instance. *)
Definition es_arco (csp : CSP) (x y : string) : Prop :=
  [x; y] ∈ (restricciones csp).*1 ∨ [y; x] ∈ (restricciones csp).*1.

(** The arc [(xi, xj)] is consistent in [doms]: every value of [xi] has a
    partner in the domain of [xj]. *)
Definition arco_consistente (csp : CSP) (doms : gmap string (list Z))
    (xi xj : string) : Prop :=
  ∀ di dj a, doms !! xi = Some di → doms !! xj = Some dj → a ∈ di →
    ∃ b, b ∈ dj ∧ Propagacion.es_consistente_binaria csp xi a xj b = true.

(** Every declared variable has a non-empty domain. *)
Definition dominios_no_vacios (csp : CSP) : Prop :=
  ∀ v, v ∈ variables csp → ∃ d, dominios csp !! v = Some d ∧ d ≠ [].

(** The number of constraints that the assignment violates. *)
Definition numero_violadas (csp : CSP) (a : gmap string Z) : nat :=
  length (filter (λ r, violada a r = true) (restricciones csp)).

(** The assignments of [vars] that take the value of each variable in the
    domain at the same position, in the order of generation: the first
    variable changes slowest. *)
Fixpoint combinaciones_de (vars : list string) (doms : list (list Z))
    : list (gmap string Z) :=
  match vars, doms with
  | var :: vars', d :: doms' =>
      d ≫= λ valor, (λ m, <[var := valor]> m) <$> combinaciones_de vars' doms'
  | _, _ => [∅]
  end.


(** [v] occurs in [l] at an earlier position than some occurrence of [p]. *)
Definition aparece_antes (l : list string) (v p : string) : Prop :=
  ∃ l1 l2, l = l1 ++ v :: l2 ∧ p ∈ l2.

(** ** Invariants used in their proofs *)

(** What forward checking maintains about its working domains [doms] along
    the assignment [a]: every variable has an entry, the entries are
    contained in the canonical domains, and every solution that extends [a]
    still takes its values in them. *)
Definition dominios_de_trabajo (csp : CSP) (a : gmap string Z)
    (doms : gmap string (list Z)) : Prop :=
  dom doms = list_to_set (variables csp)
  ∧ (∀ x d, doms !! x = Some d → ∃ d0, dominios csp !! x = Some d0 ∧ d ⊆ d0)
  ∧ (∀ s, solucion csp s → a ⊆ s → en_dominios doms s).

(** What a call of a solver's recursive search on [a] may return: a complete
    valid state, [None] when no solution extends [a], and no exception. *)
Definition busqueda_correcta (csp : CSP) (a : gmap string Z)
    (r : resultado (option (gmap string Z))) : Prop :=
  match r with
  | Valor (Some sol) => estado_valido csp sol ∧ size sol = length (variables csp)
  | Valor None => ∀ s, solucion csp s → ¬ a ⊆ s
  | Excepcion => False
  | Agotado => True
  end.

(** What every systematic solver's search returns, whatever the instance:
    as many keys as [csp.variables] has entries, all of them declared. *)
Definition claves_declaradas (csp : CSP) (sol : gmap string Z) : Prop :=
  dom sol ⊆ list_to_set (variables csp) ∧ size sol = length (variables csp).

(** Invariant of the AC-3 loop for arc consistency: every arc of the
    instance is waiting in the queue or is consistent. *)
Definition invariante_arcos (csp : CSP) (cola : list (string * string))
    (doms : gmap string (list Z)) : Prop :=
  dom doms = list_to_set (variables csp)
  ∧ (∀ x y, (x, y) ∈ cola → x ≠ y ∧ x ∈ variables csp ∧ y ∈ variables csp)
  ∧ (∀ x y, es_arco csp x y → (x, y) ∈ cola ∨ arco_consistente csp doms x y).

(** The loop of [backtrack] over the values of one variable. *)
Definition bucle_backtrack (var : string) (resto : list string)
    (dominios : list (list Z)) (idx : nat) :=
  fix bucle (valores : list Z) (st : gmap string Z * list (gmap string Z))
      : resultado (gmap string Z * list (gmap string Z)) :=
    match valores with
    | [] => Valor st
    | valor :: mas =>
        st' ← Cutset.backtrack resto dominios (S idx) (<[var := valor]> st.1) st.2;
        if bool_decide (is_Some (st'.1 !! var))
        then bucle mas (delete var st'.1, st'.2)
        else Excepcion
    end.

(** What a call [dfs(var)] adds to the state [(visitados, orden)]: the new
    entries [ns ++ [var]] of [orden], which are exactly the newly visited
    variables; each of them but [var] stands before a neighbour of it, and
    every neighbour in [vars] of each of them is visited. *)
Definition dfs_agrega (csp : CSP) (vars : list string) (var : string)
    (st st' : gset string * list string) : Prop :=
  ∃ ns, st'.2 = st.2 ++ ns ++ [var]
    ∧ st'.1 = st.1 ∪ list_to_set (ns ++ [var])
    ∧ NoDup (ns ++ [var])
    ∧ (∀ v, v ∈ ns ++ [var] → v ∉ st.1)
    ∧ (∀ v, v ∈ ns → v ∈ vars)
    ∧ (∀ v s w, v ∈ ns ++ [var] → vecinos csp !! v = Some s → w ∈ s →
                w ∈ vars → w ∈ st'.1)
    ∧ (∀ v, v ∈ ns →
         ∃ p s, aparece_antes (ns ++ [var]) v p
                ∧ vecinos csp !! p = Some s ∧ v ∈ s).

(** The same for the loop over the neighbours [vs] of a visited variable;
    a new entry that stands before no neighbour of it is one of [vs]. *)
Definition recorrer_agrega (csp : CSP) (vars vs : list string)
    (st st' : gset string * list string) : Prop :=
  ∃ ns, st'.2 = st.2 ++ ns
    ∧ st'.1 = st.1 ∪ list_to_set ns
    ∧ NoDup ns
    ∧ (∀ v, v ∈ ns → (v ∉ st.1) ∧ v ∈ vars)
    ∧ (∀ v s w, v ∈ ns → vecinos csp !! v = Some s → w ∈ s →
                w ∈ vars → w ∈ st'.1)
    ∧ (∀ w, w ∈ vs → w ∈ vars → w ∈ st'.1)
    ∧ (∀ v, v ∈ ns →
         (∃ p s, aparece_antes ns v p ∧ vecinos csp !! p = Some s ∧ v ∈ s)
         ∨ v ∈ vs).

(** The order of the keys that [sorted] establishes. *)
Definition por_clave (p q : Z * Z) : Prop := (p.1 ≤ q.1)%Z.

(** What a counted search from [a] with counters [c] returns, against the
    search without counters: the same answer; no more backtracks than tried
    values; on success, one tried value more for each variable that was
    still to be assigned. *)
Definition cuenta_correcta (csp : CSP) (a : gmap string Z) (c : nat * nat)
    (sin_contar : resultado (option (gmap string Z)))
    (r : resultado (option (gmap string Z) * (nat * nat))) : Prop :=
  match r with
  | Valor (o, c') =>
      sin_contar = Valor o
      ∧ c.1 ≤ c'.1 ∧ c'.2 + c.1 ≤ c'.1 + c.2
      ∧ (is_Some o →
         c'.2 + c.1 + (length (variables csp) - size a) ≤ c'.1 + c.2)
  | Excepcion => sin_contar = Excepcion
  | Agotado => sin_contar = Agotado
  end.

(** ** Example instances *)

Definition distintos (vs : list Z) : bool :=
  match vs with
  | [a; b] => negb (Z.eqb a b)
  | _ => false
  end.

(** Two variables over [[1, 2]] that must differ. *)
Definition dos_variables : CSP :=
  {| variables := ["A"; "B"];
     dominios := {[ "A" := [1; 2]%Z; "B" := [1; 2]%Z ]};
     restricciones := [(["A"; "B"], distintos)];
     vecinos := {[ "A" := ["B"]; "B" := ["A"] ]} |}.

(** Two variables over [[1, 2]]; the only allowed pair is [(2, 2)]. *)
Definition ambos_dos (vs : list Z) : bool :=
  match vs with
  | [a; b] => Z.eqb a 2 && Z.eqb b 2
  | _ => false
  end.

Definition solo_dos : CSP :=
  {| variables := ["A"; "B"];
     dominios := {[ "A" := [1; 2]%Z; "B" := [1; 2]%Z ]};
     restricciones := [(["A"; "B"], ambos_dos)];
     vecinos := {[ "A" := ["B"]; "B" := ["A"] ]} |}.

(** The pair [(A, B)] constrained under both orientations of its key. *)
Definition doble_clave : CSP :=
  {| variables := ["A"; "B"];
     dominios := {[ "A" := [1]%Z; "B" := [1]%Z ]};
     restricciones := [(["A"; "B"], λ _, true); (["B"; "A"], λ _, false)];
     vecinos := {[ "A" := ["B"]; "B" := ["A"] ]} |}.

(** A triangle to be coloured with two colours. *)
Definition triangulo : CSP :=
  {| variables := ["A"; "B"; "C"];
     dominios := {[ "A" := [0; 1]%Z; "B" := [0; 1]%Z; "C" := [0; 1]%Z ]};
     restricciones :=
       [(["A"; "B"], distintos); (["A"; "C"], distintos); (["B"; "C"], distintos)];
     vecinos := {[ "A" := ["B"; "C"]; "B" := ["A"; "C"]; "C" := ["A"; "B"] ]} |}.

(** One variable and a constraint over the empty tuple that never holds. *)
Definition alcance_vacio : CSP :=
  {| variables := ["A"];
     dominios := {[ "A" := [0]%Z ]};
     restricciones := [([], λ _, false)];
     vecinos := {[ "A" := [] ]} |}.

(** Four queens, one per column; the value is the row. *)
Definition reina (col1 col2 : Z) (vs : list Z) : bool :=
  match vs with
  | [v1; v2] =>
      negb (Z.eqb v1 v2)
      && negb (Z.eqb (Z.abs (v1 - v2)) (Z.abs (col1 - col2)))
  | _ => false
  end.

Definition reinas4 : CSP :=
  {| variables := ["Q0"; "Q1"; "Q2"; "Q3"];
     dominios := {[ "Q0" := [0; 1; 2; 3]%Z; "Q1" := [0; 1; 2; 3]%Z;
                    "Q2" := [0; 1; 2; 3]%Z; "Q3" := [0; 1; 2; 3]%Z ]};
     restricciones :=
       [(["Q0"; "Q1"], reina 0 1); (["Q0"; "Q2"], reina 0 2);
        (["Q0"; "Q3"], reina 0 3); (["Q1"; "Q2"], reina 1 2);
        (["Q1"; "Q3"], reina 1 3); (["Q2"; "Q3"], reina 2 3)];
     vecinos := {[ "Q0" := ["Q1"; "Q2"; "Q3"]; "Q1" := ["Q0"; "Q2"; "Q3"];
                   "Q2" := ["Q0"; "Q1"; "Q3"]; "Q3" := ["Q0"; "Q1"; "Q2"] ]} |}.

(** ** The problem classes (001_Proble_Satis_Restri.py, 003_Comp_Hacia_Del.py) *)

Module Problemas.

(** [restricciones[clave] = f] on the dictionary kept as an association
    list: an existing key keeps its place and takes the new value. *)
Fixpoint asignar_clave (clave : list string) (f : list Z → bool)
    (restr : list (list string * (list Z → bool)))
    : list (list string * (list Z → bool)) :=
  match restr with
  | [] => [(clave, f)]
  | r :: resto =>
      if bool_decide (r.1 = clave) then (clave, f) :: resto
      else r :: asignar_clave clave f resto
  end.

(** [f"Q{i}"]. *)
Definition nombre_reina (i : nat) : string := "Q" +:+ pretty i.

(** The pairs [(i, j)] of the loops [for i in range(n)], [for j in
    range(i + 1, n)]. *)
Definition pares (n : nat) : list (nat * nat) :=
  i ← seq 0 n; j ← seq (S i) (n - S i); [(i, j)].

(** [ProblemaReinas.__init__]. *)
Definition ProblemaReinas (n : nat) : resultado CSP :=
  let variables := nombre_reina <$> seq 0 n in
  let dominios : gmap string (list Z) :=
    foldl (λ d var, <[var := Z.of_nat <$> seq 0 n]> d) ∅ variables in
  let restricciones :=
    foldl (λ restr ij,
             asignar_clave [nombre_reina ij.1; nombre_reina ij.2]
               (reina (Z.of_nat ij.1) (Z.of_nat ij.2)) restr)
          [] (pares n) in
  nuevo_CSP variables dominios restricciones.

(** [ProblemaColoracionGrafo.__init__] of 003_Comp_Hacia_Del.py, where the
    colours are [list(range(num_colores))]. *)
Definition ProblemaColoracionGrafo (nodos : list string)
    (aristas : list (string * string)) (num_colores : nat) : resultado CSP :=
  let colores := Z.of_nat <$> seq 0 num_colores in
  let dominios : gmap string (list Z) :=
    foldl (λ d nodo, <[nodo := colores]> d) ∅ nodos in
  let restricciones :=
    foldl (λ restr ar, asignar_clave [ar.1; ar.2] distintos restr) [] aristas in
  nuevo_CSP nodos dominios restricciones.

End Problemas.

(** * Properties *)

(** The example instances are what [CSP.__init__] builds. *)
Lemma dos_variables_init :
  nuevo_CSP (variables dos_variables) (dominios dos_variables)
            (restricciones dos_variables) = Valor dos_variables.
Proof. vm_compute. reflexivity. Qed.

Lemma solo_dos_init :
  nuevo_CSP (variables solo_dos) (dominios solo_dos) (restricciones solo_dos)
  = Valor solo_dos.
Proof. vm_compute. reflexivity. Qed.

Lemma doble_clave_init :
  nuevo_CSP (variables doble_clave) (dominios doble_clave)
            (restricciones doble_clave) = Valor doble_clave.
Proof. vm_compute. reflexivity. Qed.

Lemma triangulo_init :
  nuevo_CSP (variables triangulo) (dominios triangulo) (restricciones triangulo)
  = Valor triangulo.
Proof. vm_compute. reflexivity. Qed.

Lemma alcance_vacio_init :
  nuevo_CSP (variables alcance_vacio) (dominios alcance_vacio)
            (restricciones alcance_vacio) = Valor alcance_vacio.
Proof. vm_compute. reflexivity. Qed.

Lemma dos_variables_bt :
  Backtracking.resolver dos_variables
  = Valor (Asignacion {[ "A" := 1%Z; "B" := 2%Z ]}).
Proof. vm_compute. reflexivity. Qed.

Lemma dos_variables_bj :
  Backjumping.resolver dos_variables
  = Valor (Asignacion {[ "A" := 1%Z; "B" := 2%Z ]}).
Proof. vm_compute. reflexivity. Qed.

Lemma triangulo_bt : Backtracking.resolver triangulo = Valor Ninguno.
Proof. vm_compute. reflexivity. Qed.

Lemma triangulo_bj : Backjumping.resolver triangulo = Valor Ninguno.
Proof. vm_compute. reflexivity. Qed.

(** ** Behaviour on the example instances *)

Lemma satisface_dos_variables_no :
  ¬ satisface dos_variables {[ "A" := 1%Z; "B" := 1%Z ]}.
Proof.
  intros H. destruct (H (["A"; "B"], distintos)) as (vs & Hvs & Hf).
  - apply list_elem_of_singleton. reflexivity.
  - vm_compute in Hvs. injection Hvs as <-. discriminate Hf.
Qed.

(** C1, as stated, fails for a constraint over the empty tuple: no solver
    evaluates it, and plain backtracking returns an assignment although the
    constraint is false. *)
Lemma backtracking_alcance_vacio :
  Backtracking.resolver alcance_vacio = Valor (Asignacion {[ "A" := 0%Z ]})
  ∧ ¬ satisface alcance_vacio {[ "A" := 0%Z ]}.
Proof.
  split; [vm_compute; reflexivity|].
  intros H. destruct (H ([], λ _, false)) as (vs & _ & Hf).
  - apply list_elem_of_singleton. reflexivity.
  - discriminate Hf.
Qed.

(** The MAC solver does not check the assigned values against each other: on
    two variables over [[1, 2]] that must differ, [SolucionadorMAC.resolver]
    returns the assignment [{A: 1, B: 1}], on which the predicate of the
    constraint on [(A, B)] does not hold. *)
Lemma mac_devuelve_asignacion_inconsistente :
  ∃ a, Propagacion.resolver dos_variables = Valor (Asignacion a)
       ∧ a = {[ "A" := 1%Z; "B" := 1%Z ]}
       ∧ ¬ satisface dos_variables a.
Proof.
  exists {[ "A" := 1%Z; "B" := 1%Z ]}. split; [|split].
  - vm_compute. reflexivity.
  - reflexivity.
  - apply satisface_dos_variables_no.
Qed.

Lemma reinas4_init :
  nuevo_CSP (variables reinas4) (dominios reinas4) (restricciones reinas4)
  = Valor reinas4.
Proof. vm_compute. reflexivity. Qed.

(** On the queens problem of the demonstration, with four queens, plain
    backtracking finds a placement and the MAC solver puts every queen on
    row 0. *)
Lemma reinas4_bt_y_mac :
  Backtracking.resolver reinas4
  = Valor (Asignacion {[ "Q0" := 1%Z; "Q1" := 3%Z; "Q2" := 0%Z; "Q3" := 2%Z ]})
  ∧ Propagacion.resolver reinas4
    = Valor (Asignacion {[ "Q0" := 0%Z; "Q1" := 0%Z; "Q2" := 0%Z;
                           "Q3" := 0%Z ]}).
Proof. split; vm_compute; reflexivity. Qed.

(** On the same instance, the demonstration of 007_Acondi_Corte.py,
    [acondicionamiento_cutset] takes [Q0] and [Q1] as the cutset and returns
    an assignment with both on row 0: the constraint between two cutset
    variables is never evaluated.  The call also leaves [csp.dominios]
    changed. *)
Lemma cutset_reinas4 :
  ∃ doms,
    Cutset.acondicionamiento_cutset reinas4
    = Valor (Asignacion {[ "Q0" := 0%Z; "Q1" := 0%Z; "Q2" := 3%Z;
                           "Q3" := 1%Z ]}, doms)
    ∧ dominios reinas4 !! "Q2" = Some [0; 1; 2; 3]%Z
    ∧ doms !! "Q2" = Some [3]%Z.
Proof. eexists. split; [|split]; vm_compute; reflexivity. Qed.

(** C2, for the tree solver of cutset conditioning: with [A] fixed to 1,
    [resolver_arbol_csp] returns a solution and leaves [csp.dominios["B"]]
    equal to [[2]], while it was [[1, 2]] before the call. *)
Theorem arbol_modifica_dominios :
  ∃ doms,
    Cutset.resolver_arbol_csp dos_variables ["B"] {[ "A" := 1%Z ]}
    = Valor (Asignacion {[ "A" := 1%Z; "B" := 2%Z ]}, doms)
    ∧ dominios dos_variables !! "B" = Some [1; 2]%Z
    ∧ doms !! "B" = Some [2]%Z.
Proof.
  eexists. split; [|split].
  - vm_compute. reflexivity.
  - vm_compute. reflexivity.
  - vm_compute. reflexivity.
Qed.

(** C3: the propagation that follows an assignment in the MAC solver does not
    depend on the domains of the current search state, and after [A = 1] the
    recursive call receives domains in which [A] still has [[1, 2]]. *)
Theorem mac_propaga_dominios_canonicos :
  (∀ csp var valor asignacion d1 d2,
     Propagacion.propagar csp var valor asignacion d1
     = Propagacion.propagar csp var valor asignacion d2)
  ∧ ∃ doms,
      Propagacion.propagar dos_variables "A" 1%Z ∅ (dominios dos_variables)
      = Valor (true, doms)
      ∧ doms !! "A" = Some [1; 2]%Z
      ∧ doms !! "B" = Some [1; 2]%Z.
Proof.
  split.
  - reflexivity.
  - eexists. split; [|split]; vm_compute; reflexivity.
Qed.

Lemma solo_dos_solucion : solucion solo_dos {[ "A" := 2%Z; "B" := 2%Z ]}.
Proof.
  split; [|split].
  - unfold completa. compute_done.
  - intros var valor H.
    destruct (decide (var = "A")) as [->|HA];
      [|destruct (decide (var = "B")) as [->|HB]].
    + exists [1; 2]%Z. split; [reflexivity|].
      rewrite lookup_insert_eq in H. injection H as <-. set_solver.
    + exists [1; 2]%Z. split; [reflexivity|].
      rewrite lookup_insert_ne, lookup_singleton_eq in H by done.
      injection H as <-. set_solver.
    + rewrite lookup_insert_ne, lookup_singleton_ne in H by done. discriminate.
  - intros r Hr. apply list_elem_of_singleton in Hr as ->.
    exists [2; 2]%Z. split; reflexivity.
Qed.

(** C4: on two variables joined by one constraint that only allows [(2, 2)],
    with nothing fixed, the tree solver returns [None] whichever variable it
    takes as root, although [{A: 2, B: 2}] satisfies the constraint. *)
Theorem arbol_no_encuentra_solucion :
  solucion solo_dos {[ "A" := 2%Z; "B" := 2%Z ]}
  ∧ Cutset.resolver_arbol_csp solo_dos ["A"; "B"] ∅
    = Valor (Ninguno, dominios solo_dos)
  ∧ Cutset.resolver_arbol_csp solo_dos ["B"; "A"] ∅
    = Valor (Ninguno, dominios solo_dos).
Proof.
  split; [apply solo_dos_solucion|].
  split; vm_compute; reflexivity.
Qed.

(** C5, as stated, fails when both [(A, B)] and [(B, A)] are keys: the value 1
    of [A] has no partner in the domain of [B] that satisfies both constraints,
    and [revisar_arco] keeps it. *)
Lemma revisar_arco_ignora_clave_inversa :
  Propagacion.revisar_arco doble_clave "A" "B" (dominios doble_clave)
  = Valor (false, 0, dominios doble_clave)
  ∧ dominios doble_clave !! "A" = Some [1]%Z
  ∧ dominios doble_clave !! "B" = Some [1]%Z
  ∧ revision_especificada doble_clave "A" "B" [1]%Z [1]%Z = [].
Proof. repeat split; vm_compute; reflexivity. Qed.

(** C6, as stated, fails: min-conflicts out of steps and backtracking out of
    candidates return the same value on the triangle with two colours. *)
Lemma fallos_indistinguibles :
  MinConflicts.min_conflicts triangulo 5 (λ _, 0) = Valor Ninguno
  ∧ Backtracking.resolver triangulo = Valor Ninguno.
Proof. split; vm_compute; reflexivity. Qed.

(** C7, as stated, fails for a constraint over the empty tuple: its scope is
    vacuously declared, it is violated by every assignment, and
    [min_conflicts] returns an assignment. *)
Lemma min_conflicts_alcance_vacio :
  alcances_declarados alcance_vacio
  ∧ ∃ a, MinConflicts.min_conflicts alcance_vacio 1 (λ _, 0)
         = Valor (Asignacion a)
         ∧ ¬ satisface alcance_vacio a.
Proof.
  split.
  - intros r v Hr Hv. apply list_elem_of_singleton in Hr as ->.
    simpl in Hv. set_solver.
  - eexists. split; [vm_compute; reflexivity|].
    intros H. destruct (H ([], λ _, false)) as (vs & _ & Hf).
    + apply list_elem_of_singleton. reflexivity.
    + discriminate Hf.
Qed.

(** ** Sequencing of calls *)

Lemma ligar_Valor {A B} (r : resultado A) (k : A → resultado B) b :
  r ≫= k = Valor b → ∃ a, r = Valor a ∧ k a = Valor b.
Proof. destruct r as [a| |]; [|done|done]. intros H. by exists a. Qed.

Lemma ligar_no_agotado {A B} (r : resultado A) (k : A → resultado B) :
  r ≠ Agotado → (∀ a, r = Valor a → k a ≠ Agotado) → r ≫= k ≠ Agotado.
Proof. destruct r as [a| |]; [|done|done]. intros _ H. by apply H. Qed.

(** ** Consistency checks *)

Section basicos.

Lemma valores_de_coinciden (a a' : gmap string Z) (alcance : list string) :
  (∀ x, x ∈ alcance → a' !! x = a !! x) →
  valores_de a' alcance = valores_de a alcance.
Proof.
  intros H. unfold valores_de. apply Forall_mapM_ext.
  apply Forall_forall. intros x Hx. by apply H.
Qed.

Lemma valores_de_insert_ne (a : gmap string Z) var valor alcance :
  var ∉ alcance →
  valores_de (<[var := valor]> a) alcance = valores_de a alcance.
Proof.
  intros H. apply valores_de_coinciden. intros x Hx.
  apply lookup_insert_ne. intros ->. done.
Qed.

Lemma valores_de_is_Some (a : gmap string Z) alcance :
  is_Some (valores_de a alcance) ↔ ∀ x, x ∈ alcance → is_Some (a !! x).
Proof.
  unfold valores_de. rewrite mapM_is_Some, Forall_forall. done.
Qed.

Lemma valores_de_vacia alcance :
  alcance ≠ [] → valores_de ∅ alcance = None.
Proof.
  destruct alcance as [|x l]; [done|]. intros _.
  apply eq_None_not_Some. rewrite valores_de_is_Some.
  intros H. destruct (H x) as [v Hv]; [left|]. by rewrite lookup_empty in Hv.
Qed.

Lemma es_consistente_true csp var valor a :
  es_consistente csp var valor a = true ↔
  ∀ r, r ∈ restricciones csp → var ∈ r.1 →
       violada (<[var := valor]> a) r = false.
Proof.
  unfold es_consistente. rewrite forallb_forall.
  split; intros H r Hr.
  - intros Hv. apply list_elem_of_In in Hr. specialize (H r Hr).
    rewrite bool_decide_true in H by done. simpl in H.
    by destruct (violada _ r).
  - apply list_elem_of_In in Hr.
    destruct (bool_decide_reflect (var ∈ r.1)) as [Hv|Hv]; simpl; [|done].
    by rewrite (H r Hr Hv).
Qed.

Lemma es_consistente_false csp var valor a :
  es_consistente csp var valor a = false ↔
  ∃ r, r ∈ restricciones csp ∧ var ∈ r.1
       ∧ violada (<[var := valor]> a) r = true.
Proof.
  split.
  - intros H. unfold es_consistente in H.
    induction (restricciones csp) as [|r l IH]; [done|].
    simpl in H. apply andb_false_iff in H as [H|H].
    + exists r. split; [left|].
      apply negb_false_iff, andb_true_iff in H as [Hv Hviol].
      by apply bool_decide_eq_true in Hv.
    + destruct (IH H) as (r' & Hr' & Hrest). exists r'. split; [by right|done].
  - intros (r & Hr & Hv & Hviol). apply not_true_iff_false. intros H.
    rewrite es_consistente_true in H. rewrite (H r Hr Hv) in Hviol. done.
Qed.

End basicos.

(** ** Plain backtracking: the budget is enough *)

Section backtracking.
Import Backtracking.
Context (csp : CSP).

Lemma seleccionar_Some a var :
  _seleccionar_variable_no_asignada csp a = Some var →
  var ∈ variables csp ∧ a !! var = None.
Proof.
  intros H. apply find_some in H as [Hin Hb].
  apply bool_decide_eq_true in Hb. by rewrite list_elem_of_In.
Qed.

Lemma seleccionar_None a :
  _seleccionar_variable_no_asignada csp a = None →
  ∀ v, v ∈ variables csp → is_Some (a !! v).
Proof.
  intros H v Hv. apply list_elem_of_In in Hv.
  pose proof (find_none _ _ H v Hv) as Hb. simpl in Hb.
  apply bool_decide_eq_false in Hb. by apply not_eq_None_Some.
Qed.

Lemma seleccionar_dom a a' :
  dom a' = dom a →
  _seleccionar_variable_no_asignada csp a'
  = _seleccionar_variable_no_asignada csp a.
Proof.
  intros Hd. unfold _seleccionar_variable_no_asignada.
  induction (variables csp) as [|v l IH]; [done|]. simpl.
  rewrite IH.
  assert (bool_decide (a' !! v = None) = bool_decide (a !! v = None)) as ->;
    [|done].
  apply bool_decide_ext. rewrite <- !not_elem_of_dom. by rewrite Hd.
Qed.

Lemma probar_no_agotado rec var a valores :
  (∀ valor, rec (<[var := valor]> a) ≠ Agotado) →
  probar rec csp var a valores ≠ Agotado.
Proof.
  intros Hrec. induction valores as [|valor resto IH]; [done|]. simpl.
  destruct (es_consistente csp var valor a); [|done].
  specialize (Hrec valor). destruct (rec _) as [[sol|]| |]; done.
Qed.

Lemma _backtrack_no_agotado fuel a :
  size a ≤ length (variables csp) →
  length (variables csp) - size a < fuel →
  _backtrack fuel csp a ≠ Agotado.
Proof.
  revert a. induction fuel as [|fuel IH]; intros a Hle Hlt; [lia|]. simpl.
  case_bool_decide as Hsz; [done|].
  destruct (_seleccionar_variable_no_asignada csp a) as [var|] eqn:Hsel; [|done].
  apply seleccionar_Some in Hsel as [Hin Hnone].
  unfold indexar. destruct (dominios csp !! var) as [valores|]; [|done]. simpl.
  apply probar_no_agotado. intros valor. apply IH.
  - rewrite map_size_insert_None by done. lia.
  - rewrite map_size_insert_None by done. lia.
Qed.

Lemma resolver_no_agotado : resolver csp ≠ Agotado.
Proof.
  unfold resolver.
  pose proof (_backtrack_no_agotado (S (length (variables csp))) ∅) as H.
  rewrite map_size_empty in H.
  destruct (_backtrack _ csp ∅) as [r| |]; [done|done|].
  exfalso. apply H; [lia|lia|done].
Qed.

End backtracking.

(** ** Plain backtracking: returned assignments are solutions *)

Section backtracking_correcto.
Import Backtracking.
Context (csp : CSP).

Lemma estado_valido_vacio : estado_valido csp ∅.
Proof.
  split; [|split].
  - rewrite dom_empty_L. set_solver.
  - intros var valor H. by rewrite lookup_empty in H.
  - intros r Hr Hne. unfold violada. by rewrite valores_de_vacia.
Qed.

Lemma estado_valido_insert a var valor d :
  estado_valido csp a → var ∈ variables csp → a !! var = None →
  dominios csp !! var = Some d → valor ∈ d →
  es_consistente csp var valor a = true →
  estado_valido csp (<[var := valor]> a).
Proof.
  intros (Hdom & Hen & Hcons) Hin Hnone Hd Hv Hc. split; [|split].
  - rewrite dom_insert_L. set_solver.
  - intros x vx Hx. destruct (decide (x = var)) as [->|Hne].
    + rewrite lookup_insert_eq in Hx. injection Hx as <-. eauto.
    + rewrite lookup_insert_ne in Hx by done. eauto.
  - intros r Hr Hne. destruct (decide (var ∈ r.1)) as [Hvr|Hvr].
    + rewrite es_consistente_true in Hc. by apply Hc.
    + unfold violada. rewrite valores_de_insert_ne by done. by apply Hcons.
Qed.

Lemma probar_correcto rec var a d valores sol :
  (∀ valor s, valor ∈ d → es_consistente csp var valor a = true →
     rec (<[var := valor]> a) = Valor (Some s) →
     estado_valido csp s ∧ size s = length (variables csp)) →
  valores ⊆ d →
  probar rec csp var a valores = Valor (Some sol) →
  estado_valido csp sol ∧ size sol = length (variables csp).
Proof.
  intros Hrec. induction valores as [|valor resto IH]; intros Hsub H; [done|].
  simpl in H.
  assert (resto ⊆ d) as Hresto by set_solver.
  destruct (es_consistente csp var valor a) eqn:Hc; [|by apply IH].
  destruct (rec _) as [[s|]| |] eqn:Hr; simpl in H; try done.
  - injection H as <-. apply (Hrec valor); [set_solver|done|done].
  - by apply IH.
Qed.

Lemma _backtrack_correcto fuel a sol :
  estado_valido csp a →
  _backtrack fuel csp a = Valor (Some sol) →
  estado_valido csp sol ∧ size sol = length (variables csp).
Proof.
  revert a sol. induction fuel as [|fuel IH]; intros a sol Ha H; [done|].
  simpl in H. case_bool_decide as Hsz.
  - injection H as <-. done.
  - destruct (_seleccionar_variable_no_asignada csp a) as [var|] eqn:Hsel;
      [|done].
    apply seleccionar_Some in Hsel as [Hin Hnone].
    unfold indexar in H.
    destruct (dominios csp !! var) as [d|] eqn:Hd; [|done]. simpl in H.
    apply (probar_correcto (_backtrack fuel csp) var a d d sol); [|done|done].
    intros valor s Hv Hc Hr.
    apply (IH _ _ (estado_valido_insert _ _ _ _ Ha Hin Hnone Hd Hv Hc) Hr).
Qed.

Lemma estado_completo_solucion a :
  bien_formado csp → estado_valido csp a → size a = length (variables csp) →
  solucion csp a.
Proof.
  intros (Hnd & Hdoms & Hdecl & Hne) (Hdom & Hen & Hcons) Hsz.
  assert (dom a = list_to_set (variables csp)) as Heq.
  { apply set_eq. apply set_subseteq_size_equiv; [done|].
    rewrite size_dom, size_list_to_set by done. lia. }
  split; [done|]. split; [done|].
  intros r Hr.
  assert (is_Some (valores_de a r.1)) as [vs Hvs].
  { apply valores_de_is_Some. intros x Hx. apply elem_of_dom. rewrite Heq.
    apply elem_of_list_to_set. by apply (Hdecl r). }
  exists vs. split; [done|].
  pose proof (Hcons r Hr (Hne r Hr)) as Hv. unfold violada in Hv.
  rewrite Hvs in Hv. by apply negb_false_iff in Hv.
Qed.

Lemma probar_no_excepcion rec var a valores :
  (∀ valor, rec (<[var := valor]> a) ≠ Excepcion) →
  probar rec csp var a valores ≠ Excepcion.
Proof.
  intros Hrec. induction valores as [|valor resto IH]; [done|]. simpl.
  destruct (es_consistente csp var valor a); [|done].
  specialize (Hrec valor). destruct (rec _) as [[sol|]| |]; done.
Qed.

Lemma _backtrack_no_excepcion fuel a :
  bien_formado csp → dom a ⊆ list_to_set (variables csp) →
  _backtrack fuel csp a ≠ Excepcion.
Proof.
  intros Hbf. pose proof Hbf as (Hnd & Hdoms & _).
  revert a. induction fuel as [|fuel IH]; intros a Hdom; [done|]. simpl.
  case_bool_decide as Hsz; [done|].
  destruct (_seleccionar_variable_no_asignada csp a) as [var|] eqn:Hsel.
  - apply seleccionar_Some in Hsel as [Hin Hnone].
    unfold indexar. destruct (Hdoms var Hin) as [d ->]. simpl.
    apply probar_no_excepcion. intros valor. apply IH.
    rewrite dom_insert_L. set_solver.
  - exfalso. apply Hsz.
    pose proof (seleccionar_None _ _ Hsel) as Hall.
    assert (dom a = list_to_set (variables csp)) as Heq.
    { apply set_eq. intros x. split; [set_solver|].
      rewrite elem_of_list_to_set, elem_of_dom. apply Hall. }
    rewrite <- size_dom, Heq. by apply size_list_to_set.
Qed.

Lemma resolver_correcto sol :
  bien_formado csp → resolver csp = Valor (Asignacion sol) → solucion csp sol.
Proof.
  intros Hbf H. unfold resolver in H.
  destruct (_backtrack _ csp ∅) as [[s|]| |] eqn:Hb; simpl in H; try done.
  injection H as <-.
  destruct (_backtrack_correcto _ _ _ estado_valido_vacio Hb) as [Hv Hsz].
  by apply estado_completo_solucion.
Qed.

Lemma resolver_insatisfacible :
  bien_formado csp → (∀ a, ¬ solucion csp a) → resolver csp = Valor Ninguno.
Proof.
  intros Hbf Hno.
  pose proof (resolver_no_agotado csp) as Hag.
  pose proof (resolver_correcto) as Hc.
  unfold resolver in *.
  pose proof (_backtrack_no_excepcion (S (length (variables csp))) ∅ Hbf) as Hex.
  destruct (_backtrack _ csp ∅) as [[s|]| |] eqn:Hb; simpl in *.
  - exfalso. by apply (Hno s), Hc.
  - done.
  - exfalso. apply Hex; [|done]. rewrite dom_empty_L. set_solver.
  - done.
Qed.

End backtracking_correcto.

(** ** Solvers built on the incremental consistency check *)

Section correccion_comun.
Context (csp : CSP).

Lemma minimo_desde_elem_of clave mejor k vars v :
  minimo_desde clave mejor k vars = Valor v → v = mejor ∨ v ∈ vars.
Proof.
  revert mejor k. induction vars as [|x l IH]; intros mejor k H; simpl in H.
  - injection H as <-. by left.
  - apply ligar_Valor in H as (kx & _ & H). case_bool_decide.
    + apply IH in H as [->|H]; right; [left|by right].
    + apply IH in H as [->|H]; [by left|]. right. by right.
Qed.

Lemma minimo_elem_of clave vars v : minimo clave vars = Valor v → v ∈ vars.
Proof.
  destruct vars as [|x l]; [done|]. simpl. intros H.
  apply ligar_Valor in H as (k & _ & H).
  apply minimo_desde_elem_of in H as [->|H]; [left|by right].
Qed.

Lemma no_asignada_elem_of (a : gmap string Z) v :
  v ∈ filter (λ v, a !! v = None) (variables csp) →
  v ∈ variables csp ∧ a !! v = None.
Proof. intros H. by apply list_elem_of_filter in H as [H1 H2]. Qed.

Lemma estado_parcial_vacio : alcances_no_vacios csp → estado_parcial csp ∅.
Proof.
  intros Hne. split.
  - rewrite dom_empty_L. set_solver.
  - intros r Hr _. unfold violada. rewrite valores_de_vacia; [done|].
    by apply Hne.
Qed.

Lemma estado_parcial_insert a var valor :
  estado_parcial csp a → var ∈ variables csp →
  es_consistente csp var valor a = true →
  estado_parcial csp (<[var := valor]> a).
Proof.
  intros (Hdom & Hcons) Hin Hc. split.
  - rewrite dom_insert_L. set_solver.
  - intros r Hr Hne. destruct (decide (var ∈ r.1)) as [Hvr|Hvr].
    + rewrite es_consistente_true in Hc. by apply Hc.
    + unfold violada. rewrite valores_de_insert_ne by done. by apply Hcons.
Qed.

Lemma size_list_to_set_le (l : list string) :
  size (list_to_set l : gset string) ≤ length l.
Proof.
  induction l as [|x l IH].
  - rewrite list_to_set_nil, size_empty. simpl. lia.
  - rewrite list_to_set_cons, size_union_alt, size_singleton. simpl.
    pose proof (subseteq_size (list_to_set l ∖ {[x]}) (list_to_set l : gset string)) as H.
    assert (size (list_to_set l ∖ {[x]} : gset string) ≤ size (list_to_set l : gset string))
      by (apply H; set_solver).
    lia.
Qed.

Lemma estado_parcial_satisface a :
  alcances_declarados csp → alcances_no_vacios csp →
  estado_parcial csp a → size a = length (variables csp) →
  completa csp a ∧ satisface csp a.
Proof.
  intros Hdecl Hne (Hdom & Hcons) Hsz.
  assert (dom a = list_to_set (variables csp)) as Heq.
  { apply set_eq. apply set_subseteq_size_equiv; [done|].
    rewrite size_dom, Hsz. apply size_list_to_set_le. }
  split; [done|]. intros r Hr.
  assert (is_Some (valores_de a r.1)) as [vs Hvs].
  { apply valores_de_is_Some. intros x Hx. apply elem_of_dom. rewrite Heq.
    apply elem_of_list_to_set. by apply (Hdecl r). }
  exists vs. split; [done|].
  pose proof (Hcons r Hr (Hne r Hr)) as Hv. unfold violada in Hv.
  rewrite Hvs in Hv. by apply negb_false_iff in Hv.
Qed.

Lemma probar_inv (Q : gmap string Z → Prop) rec var a valores sol :
  (∀ valor s, es_consistente csp var valor a = true →
     rec (<[var := valor]> a) = Valor (Some s) → Q s) →
  Backtracking.probar rec csp var a valores = Valor (Some sol) → Q sol.
Proof.
  intros Hrec. induction valores as [|valor resto IH]; intros H; [done|].
  simpl in H. destruct (es_consistente csp var valor a) eqn:Hc; [|by apply IH].
  destruct (rec _) as [[s|]| |] eqn:Hr; simpl in H; try done.
  - injection H as <-. by apply (Hrec valor).
  - by apply IH.
Qed.

Lemma bt_backtrack_parcial fuel a sol :
  estado_parcial csp a →
  Backtracking._backtrack fuel csp a = Valor (Some sol) →
  estado_parcial csp sol ∧ size sol = length (variables csp).
Proof.
  revert a sol. induction fuel as [|fuel IH]; intros a sol Ha H; [done|].
  simpl in H. case_bool_decide as Hsz; [by injection H as <-|].
  destruct (Backtracking._seleccionar_variable_no_asignada csp a)
    as [var|] eqn:Hsel; [|done].
  apply seleccionar_Some in Hsel as [Hin Hnone].
  apply ligar_Valor in H as (valores & _ & H).
  eapply (probar_inv
            (λ s, estado_parcial csp s ∧ size s = length (variables csp)));
    [|exact H].
  intros valor s Hc Hr.
  apply (IH _ _ (estado_parcial_insert _ _ _ Ha Hin Hc) Hr).
Qed.

Lemma mejorado_backtrack_parcial fuel a sol :
  estado_parcial csp a →
  BacktrackingMejorado._backtrack fuel csp a = Valor (Some sol) →
  estado_parcial csp sol ∧ size sol = length (variables csp).
Proof.
  revert a sol. induction fuel as [|fuel IH]; intros a sol Ha H; [done|].
  simpl in H. case_bool_decide as Hsz; [by injection H as <-|].
  apply ligar_Valor in H as (var & Hsel & H).
  apply minimo_elem_of, no_asignada_elem_of in Hsel as [Hin Hnone].
  apply ligar_Valor in H as (valores & _ & H).
  eapply (probar_inv
            (λ s, estado_parcial csp s ∧ size s = length (variables csp)));
    [|exact H].
  intros valor s Hc Hr.
  apply (IH _ _ (estado_parcial_insert _ _ _ Ha Hin Hc) Hr).
Qed.

Lemma fc_probar_inv (Q : gmap string Z → Prop) rec var a doms valores sol :
  (∀ valor dn s, es_consistente csp var valor a = true →
     rec (<[var := valor]> a) dn = Valor (Some s) → Q s) →
  ForwardChecking.probar rec csp var a doms valores = Valor (Some sol) → Q sol.
Proof.
  intros Hrec. induction valores as [|valor resto IH]; intros H; [done|].
  simpl in H. destruct (es_consistente csp var valor a) eqn:Hc; [|by apply IH].
  apply ligar_Valor in H as ([dn exito] & _ & H).
  destruct exito; [|by apply IH].
  destruct (rec _ dn) as [[s|]| |] eqn:Hr; simpl in H; try done.
  - injection H as <-. by apply (Hrec valor dn).
  - by apply IH.
Qed.

Lemma fc_backtrack_parcial fuel a doms sol :
  estado_parcial csp a →
  ForwardChecking._backtrack fuel csp a doms = Valor (Some sol) →
  estado_parcial csp sol ∧ size sol = length (variables csp).
Proof.
  revert a doms sol. induction fuel as [|fuel IH]; intros a doms sol Ha H;
    [done|].
  simpl in H. case_bool_decide as Hsz; [by injection H as <-|].
  apply ligar_Valor in H as (var & Hsel & H).
  apply minimo_elem_of, no_asignada_elem_of in Hsel as [Hin Hnone].
  apply ligar_Valor in H as (valores & _ & H).
  eapply (fc_probar_inv
            (λ s, estado_parcial csp s ∧ size s = length (variables csp)));
    [|exact H].
  intros valor dn s Hc Hr.
  apply (IH _ _ _ (estado_parcial_insert _ _ _ Ha Hin Hc) Hr).
Qed.

End correccion_comun.

(** ** Backjumping against backtracking *)

Section backjumping.
Import Backjumping.
Context (csp : CSP).

Lemma elem_of_conflictos_foldl x var (a temp : gmap string Z) l (acc : gset string) :
  x ∈ foldl (λ (conflictos : gset string) r,
               if bool_decide (var ∈ r.1) && violada temp r then
                 conflictos ∪
                 list_to_set (filter (λ v, v ≠ var ∧ is_Some (a !! v)) r.1)
               else conflictos) acc l
  ↔ x ∈ acc ∨ ∃ r, r ∈ l ∧ var ∈ r.1 ∧ violada temp r = true
                    ∧ x ∈ r.1 ∧ x ≠ var ∧ is_Some (a !! x).
Proof.
  revert acc. induction l as [|r l IH]; intros acc; simpl.
  - split; [by left|]. intros [H|(r & Hr & _)]; [done|]. by apply elem_of_nil in Hr.
  - rewrite IH. split.
    + intros [H|(r' & Hr' & Hrest)].
      * destruct (bool_decide_reflect (var ∈ r.1)) as [Hv|Hv]; simpl in H;
          [|by left].
        destruct (violada temp r) eqn:Hviol; [|by left].
        apply elem_of_union in H as [H|H]; [by left|].
        apply elem_of_list_to_set, list_elem_of_filter in H as [[H1 H2] H3].
        right. exists r. split; [left|done].
      * right. exists r'. split; [by right|done].
    + intros [H|(r' & Hr' & Hv & Hviol & Hx & Hne & Hs)].
      * left. destruct (_ && _); [|done]. apply elem_of_union. by left.
      * apply elem_of_cons in Hr' as [->|Hr'].
        -- left. rewrite bool_decide_true, Hviol by done. simpl.
           apply elem_of_union. right.
           apply elem_of_list_to_set, list_elem_of_filter. done.
        -- right. exists r'. done.
Qed.

Lemma elem_of_obtener_variables_conflicto x var valor a :
  x ∈ obtener_variables_conflicto csp var valor a
  ↔ ∃ r, r ∈ restricciones csp ∧ var ∈ r.1
         ∧ violada (<[var := valor]> a) r = true
         ∧ x ∈ r.1 ∧ x ≠ var ∧ is_Some (a !! x).
Proof.
  unfold obtener_variables_conflicto. rewrite elem_of_conflictos_foldl.
  split; [|by right]. intros [H|H]; [|done]. by apply not_elem_of_empty in H.
Qed.

Lemma obtener_variables_conflicto_dom var valor a :
  obtener_variables_conflicto csp var valor a ⊆ dom a.
Proof.
  intros x Hx. apply elem_of_obtener_variables_conflicto in Hx
    as (r & _ & _ & _ & _ & _ & Hs). by apply elem_of_dom.
Qed.

Lemma es_consistente_coinciden var valor a a' :
  es_consistente csp var valor a = false →
  coinciden (obtener_variables_conflicto csp var valor a) a a' →
  es_consistente csp var valor a' = false.
Proof.
  intros H Hco. apply es_consistente_false in H as (r & Hr & Hv & Hviol).
  apply es_consistente_false. exists r. split; [done|]. split; [done|].
  assert (is_Some (valores_de (<[var := valor]> a) r.1)) as Hsome.
  { unfold violada in Hviol. by destruct (valores_de _ r.1). }
  rewrite <- Hviol. unfold violada.
  rewrite (valores_de_coinciden (<[var := valor]> a)); [done|].
  intros x Hx. destruct (decide (x = var)) as [->|Hne].
  - by rewrite !lookup_insert_eq.
  - rewrite !lookup_insert_ne by done. apply Hco.
    apply elem_of_obtener_variables_conflicto. exists r.
    rewrite valores_de_is_Some in Hsome. specialize (Hsome x Hx).
    rewrite lookup_insert_ne in Hsome by done. done.
Qed.

Lemma marco_trans a cc cc2 r :
  marco a cc2 r → (∀ x, x ∈ dom a → cc2 !! x = cc !! x) → marco a cc r.
Proof.
  destruct r as [[s cc']| |]; simpl; [|done|done].
  intros [Hf Ho] H. split; [|done]. intros x Hx. rewrite Hf by done. by apply H.
Qed.

Section bucle.
Context (rec_bj : gmap string Z → gmap string (gset string)
                  → resultado (salida * gmap string (gset string))).
Context (var : string) (a : gmap string Z).
Hypothesis Hnone : a !! var = None.
Hypothesis Hmarco :
  ∀ valor cc, marco (<[var := valor]> a) cc (rec_bj (<[var := valor]> a) cc).

Lemma var_no_dom : var ∉ dom a.
Proof. by apply not_elem_of_dom. Qed.

Lemma probar_marco valores cc : marco a cc (probar rec_bj csp var a valores cc).
Proof.
  pose proof var_no_dom as Hv.
  revert cc. induction valores as [|valor resto IH]; intros cc; simpl.
  - case_bool_decide; simpl; done.
  - destruct (es_consistente csp var valor a).
    + pose proof (Hmarco valor cc) as Hm.
      destruct (rec_bj _ cc) as [[[sol|origen s|] cc']| |];
        simpl in Hm |- *; try done.
      * destruct Hm as [Hf _]. split; [|done]. intros x Hx. apply Hf.
        rewrite dom_insert_L. set_solver.
      * destruct Hm as [Hf Ho]. rewrite dom_insert_L in Hf, Ho.
        case_bool_decide.
        -- eapply marco_trans; [apply IH|]. intros x Hx.
           rewrite !lookup_insert_ne by set_solver. apply Hf. set_solver.
        -- simpl. split; [|set_solver]. intros x Hx. apply Hf. set_solver.
      * destruct Hm as [Hf _]. eapply marco_trans; [apply IH|].
        intros x Hx. apply Hf. rewrite dom_insert_L. set_solver.
    + eapply marco_trans; [apply IH|]. intros x Hx.
      rewrite lookup_insert_ne by set_solver. done.
Qed.

Section con_backtracking.
Context (rec_bt : gmap string Z → resultado (option (gmap string Z))).
Hypothesis Hsim :
  ∀ valor cc, simula rec_bt (<[var := valor]> a) (rec_bj (<[var := valor]> a) cc).

Lemma bt_probar_omite (a' : gmap string Z) valor resto :
  es_consistente csp var valor a' = false
  ∨ rec_bt (<[var := valor]> a') = Valor None →
  Backtracking.probar rec_bt csp var a' (valor :: resto)
  = Backtracking.probar rec_bt csp var a' resto.
Proof.
  intros H. simpl. destruct (es_consistente csp var valor a') eqn:Hc; [|done].
  destruct H as [H|H]; [done|]. by rewrite H.
Qed.

Lemma bt_probar_salto (a' : gmap string Z) l :
  (∀ valor, rec_bt (<[var := valor]> a') = Valor None) →
  Backtracking.probar rec_bt csp var a' l = Valor None.
Proof.
  intros H. induction l as [|valor resto IH]; [done|].
  rewrite bt_probar_omite; [done|]. right. apply H.
Qed.

Lemma dom_insert_igual (a' : gmap string Z) (valor : Z) :
  dom a' = dom a → dom (<[var := valor]> a') = dom (<[var := valor]> a).
Proof. intros H. by rewrite !dom_insert_L, H. Qed.

Lemma coinciden_insert (s : gset string) (a' : gmap string Z) (valor : Z) :
  coinciden (s ∖ {[var]}) a a' →
  coinciden s (<[var := valor]> a) (<[var := valor]> a').
Proof.
  intros H x Hx. destruct (decide (x = var)) as [->|Hne].
  - by rewrite !lookup_insert_eq.
  - rewrite !lookup_insert_ne by done. apply H. set_solver.
Qed.

Lemma coinciden_mono (s s' : gset string) (b b' : gmap string Z) :
  s ⊆ s' → coinciden s' b b' → coinciden s b b'.
Proof. intros Hs H x Hx. apply H. set_solver. Qed.

Lemma probar_simula valores cc :
  cc !!! var ⊆ dom a →
  simula_bucle rec_bt csp var a valores (cc !!! var)
               (probar rec_bj csp var a valores cc).
Proof.
  pose proof var_no_dom as Hv.
  revert cc. induction valores as [|valor resto IH]; intros cc Hc; simpl.
  - case_bool_decide as He; simpl.
    + split; [done|]. done.
    + split; [done|]. split; [done|]. left. split; [done|]. done.
  - destruct (es_consistente csp var valor a) eqn:Hcons.
    + pose proof (Hmarco valor cc) as Hm. pose proof (Hsim valor cc) as Hs.
      destruct (rec_bj _ cc) as [[[sol|origen s|] cc']| |] eqn:Hrec;
        simpl in Hm, Hs |- *.
      * by rewrite Hcons, Hs.
      * destruct Hm as [Hf Ho]. destruct Hs as (Hne & Hsub & Hfail).
        rewrite dom_insert_L in Hf, Ho, Hsub.
        assert (cc' !!! var = cc !!! var) as Hvar.
        { rewrite !lookup_total_alt, Hf; [done|]. set_solver. }
        case_bool_decide as Hin.
        -- set (cc2 := <[var := _]> _).
           assert (cc2 !!! var = cc !!! var ∪ s ∖ {[var]}) as Hcc2.
           { unfold cc2. rewrite lookup_total_insert_eq.
             rewrite lookup_total_insert_ne by set_solver. by rewrite Hvar. }
           specialize (IH cc2). rewrite Hcc2 in IH.
           assert (∀ a', dom a' = dom a → coinciden (s ∖ {[var]}) a a' →
                         rec_bt (<[var := valor]> a') = Valor None) as Hv'.
           { intros a' Hd Hco. apply Hfail; [by apply dom_insert_igual|].
             by apply coinciden_insert. }
           destruct (probar rec_bj csp var a resto cc2)
             as [[[sol2|origen2 s2|] cc3]| |];
             unfold simula_bucle in IH |- *; cbv beta iota in IH |- *.
           ++ rewrite bt_probar_omite; [apply IH; set_solver|].
              right. by apply Hv'.
           ++ destruct IH as (Hne2 & Hsub2 & Hdis); [set_solver|].
              split; [done|]. split; [done|].
              destruct Hdis as [[Hcs Hall]|Hall]; [left|by right].
              split; [set_solver|]. intros a' Hd Hco.
              rewrite bt_probar_omite; [by apply Hall|].
              right. apply Hv'; [done|]. eapply coinciden_mono; [|done].
              set_solver.
           ++ destruct IH as [Hemp Hall]; [set_solver|].
              split; [set_solver|]. intros a' Hd.
              rewrite bt_probar_omite; [by apply Hall|].
              right. apply Hv'; [done|]. intros x Hx. set_solver.
           ++ rewrite bt_probar_omite; [apply IH; set_solver|].
              right. by apply Hv'.
           ++ rewrite bt_probar_omite; [apply IH; set_solver|].
              right. by apply Hv'.
        -- simpl. split; [done|]. split; [set_solver|]. right.
           intros a' l Hd Hco. apply bt_probar_salto. intros w.
           apply Hfail.
           ++ rewrite !dom_insert_L. by rewrite Hd.
           ++ intros x Hx. rewrite !lookup_insert_ne by set_solver.
              by apply Hco.
      * destruct Hm as [Hf _]. rewrite dom_insert_L in Hf.
        assert (cc' !!! var = cc !!! var) as Hvar.
        { rewrite !lookup_total_alt, Hf; [done|]. set_solver. }
        specialize (IH cc'). rewrite Hvar in IH. specialize (IH Hc).
        assert (∀ a', dom a' = dom a →
                      rec_bt (<[var := valor]> a') = Valor None) as Hv'.
        { intros a' Hd. apply Hs. by apply dom_insert_igual. }
        destruct (probar rec_bj csp var a resto cc')
          as [[[sol2|origen2 s2|] cc3]| |];
             unfold simula_bucle in IH |- *; cbv beta iota in IH |- *.
        -- rewrite bt_probar_omite; [done|]. right. by apply Hv'.
        -- destruct IH as (Hne2 & Hsub2 & Hdis).
           split; [done|]. split; [done|].
           destruct Hdis as [[Hcs Hall]|Hall]; [left|by right].
           split; [done|]. intros a' Hd Hco.
           rewrite bt_probar_omite; [by apply Hall|]. right. by apply Hv'.
        -- destruct IH as [Hemp Hall]. split; [done|]. intros a' Hd.
           rewrite bt_probar_omite; [by apply Hall|]. right. by apply Hv'.
        -- rewrite bt_probar_omite; [done|]. right. by apply Hv'.
        -- rewrite bt_probar_omite; [done|]. right. by apply Hv'.
      * by rewrite Hcons, Hs.
      * by rewrite Hcons, Hs.
    + set (k := obtener_variables_conflicto csp var valor a).
      pose proof (obtener_variables_conflicto_dom var valor a) as Hk.
      fold k in Hk.
      set (cc2 := <[var := _]> cc).
      assert (cc2 !!! var = cc !!! var ∪ k) as Hcc2.
      { unfold cc2. by rewrite lookup_total_insert_eq. }
      specialize (IH cc2). rewrite Hcc2 in IH.
      assert (∀ a', coinciden k a a' →
                    es_consistente csp var valor a' = false) as Hv'.
      { intros a' Hco. by eapply es_consistente_coinciden. }
      destruct (probar rec_bj csp var a resto cc2)
        as [[[sol2|origen2 s2|] cc3]| |];
             unfold simula_bucle in IH |- *; cbv beta iota in IH |- *.
      * rewrite bt_probar_omite; [apply IH; set_solver|]. by left.
      * destruct IH as (Hne2 & Hsub2 & Hdis); [set_solver|].
        split; [done|]. split; [done|].
        destruct Hdis as [[Hcs Hall]|Hall]; [left|by right].
        split; [set_solver|]. intros a' Hd Hco.
        rewrite bt_probar_omite; [by apply Hall|]. left. apply Hv'.
        eapply coinciden_mono; [|done]. set_solver.
      * destruct IH as [Hemp Hall]; [set_solver|].
        split; [set_solver|]. intros a' Hd.
        rewrite bt_probar_omite; [by apply Hall|]. left. apply Hv'.
        intros x Hx. set_solver.
      * rewrite bt_probar_omite; [apply IH; set_solver|]. by left.
      * rewrite bt_probar_omite; [apply IH; set_solver|]. by left.
Qed.

End con_backtracking.

End bucle.

End backjumping.

Section backjumping_principal.
Import Backjumping.
Context (csp : CSP).

Lemma bt_desplegar fuel a a' var valores :
  dom a' = dom a →
  size a ≠ length (variables csp) →
  _seleccionar_variable csp a = Some var →
  dominios csp !! var = Some valores →
  Backtracking._backtrack (S fuel) csp a'
  = Backtracking.probar (Backtracking._backtrack fuel csp) csp var a' valores.
Proof.
  intros Hd Hsz Hsel Hdom. simpl.
  assert (size a' = size a) as Hsz'.
  { by rewrite <- !size_dom, Hd. }
  rewrite bool_decide_false by congruence.
  rewrite (seleccionar_dom csp a a') by done.
  unfold _seleccionar_variable in Hsel.
  unfold Backtracking._seleccionar_variable_no_asignada. rewrite Hsel.
  unfold indexar. by rewrite Hdom.
Qed.

Lemma bt_sin_variable fuel a :
  size a ≠ length (variables csp) →
  _seleccionar_variable csp a = None →
  Backtracking._backtrack (S fuel) csp a = Excepcion.
Proof.
  intros Hsz Hsel. simpl. rewrite bool_decide_false by done.
  unfold _seleccionar_variable in Hsel.
  unfold Backtracking._seleccionar_variable_no_asignada. by rewrite Hsel.
Qed.

Lemma bt_sin_dominio fuel a var :
  size a ≠ length (variables csp) →
  _seleccionar_variable csp a = Some var →
  dominios csp !! var = None →
  Backtracking._backtrack (S fuel) csp a = Excepcion.
Proof.
  intros Hsz Hsel Hdom. simpl. rewrite bool_decide_false by done.
  unfold _seleccionar_variable in Hsel.
  unfold Backtracking._seleccionar_variable_no_asignada. rewrite Hsel.
  unfold indexar. by rewrite Hdom.
Qed.

Lemma bj_desplegar fuel a cc :
  _backjump (S fuel) csp a cc
  = if bool_decide (size a = length (variables csp)) then Valor (Exito a, cc)
    else match _seleccionar_variable csp a with
         | None => Excepcion
         | Some var =>
             match dominios csp !! var with
             | None => Excepcion
             | Some valores =>
                 probar (_backjump fuel csp) csp var a valores (<[var := ∅]> cc)
             end
         end.
Proof.
  simpl. case_bool_decide; [done|].
  destruct (_seleccionar_variable csp a) as [var|]; [|done].
  unfold indexar. by destruct (dominios csp !! var).
Qed.

Lemma _backjump_marco_simula fuel a cc :
  marco a cc (_backjump fuel csp a cc)
  ∧ simula (Backtracking._backtrack fuel csp) a (_backjump fuel csp a cc).
Proof.
  revert a cc. induction fuel as [|fuel IH]; intros a cc;
    [split; [exact I|reflexivity]|].
  rewrite bj_desplegar. case_bool_decide as Hsz.
  { split; [done|]. simpl. by rewrite bool_decide_true. }
  destruct (_seleccionar_variable csp a) as [var|] eqn:Hsel.
  2:{ split; [done|]. by apply bt_sin_variable. }
  pose proof (seleccionar_Some csp a var Hsel) as [Hin Hnone].
  destruct (dominios csp !! var) as [valores|] eqn:Hdom.
  2:{ split; [done|]. by eapply bt_sin_dominio. }
  set (cc0 := <[var := ∅]> cc).
  assert (∀ valor c, marco (<[var := valor]> a) c
                       (_backjump fuel csp (<[var := valor]> a) c)) as Hm.
  { intros valor c. apply IH. }
  assert (∀ valor c, simula (Backtracking._backtrack fuel csp)
                       (<[var := valor]> a)
                       (_backjump fuel csp (<[var := valor]> a) c)) as Hs.
  { intros valor c. apply IH. }
  split.
  - eapply marco_trans; [by apply probar_marco|].
    intros x Hx. unfold cc0. rewrite lookup_insert_ne; [done|].
    intros ->. by apply not_elem_of_dom in Hnone.
  - pose proof (probar_simula csp _ var a Hnone Hm _ Hs valores cc0) as Hb.
    assert (cc0 !!! var = (∅ : gset string)) as Hcc0.
    { unfold cc0. by rewrite lookup_total_insert_eq. }
    rewrite Hcc0 in Hb.
    assert (Backtracking._backtrack (S fuel) csp a
            = Backtracking.probar (Backtracking._backtrack fuel csp) csp var a valores) as Hbt.
    { by apply (bt_desplegar fuel a a var valores). }
    destruct (probar _ csp var a valores cc0) as [[[sol|origen s|] cc']| |];
      unfold simula_bucle in Hb; unfold simula; cbv beta iota in Hb |- *.
    + rewrite <- Hb; [done|set_solver].
    + destruct Hb as (Hne & Hsub & Hdis); [set_solver|].
      split; [done|]. split; [done|]. intros a' Hd Hco.
      rewrite (bt_desplegar fuel a a' var valores) by done.
      destruct Hdis as [[_ Hall]|Hall]; by apply Hall.
    + destruct Hb as [_ Hall]; [set_solver|]. intros a' Hd.
      rewrite (bt_desplegar fuel a a' var valores) by done. by apply Hall.
    + rewrite <- Hb; [done|set_solver].
    + rewrite <- Hb; [done|set_solver].
Qed.

Lemma resolver_igual : resolver csp = Backtracking.resolver csp.
Proof.
  unfold resolver, Backtracking.resolver.
  set (cc := list_to_map _).
  pose proof (_backjump_marco_simula (S (length (variables csp))) ∅ cc)
    as [_ Hs].
  destruct (_backjump _ csp ∅ cc) as [[[sol|origen s|] cc']| |];
    unfold simula in Hs; cbv beta iota in Hs.
  - by rewrite Hs.
  - destruct Hs as (Hne & Hsub & _). rewrite dom_empty_L in Hsub.
    exfalso. apply Hne. set_solver.
  - by rewrite (Hs ∅).
  - by rewrite Hs.
  - by rewrite Hs.
Qed.

(** C8: the backjumping driver returns a solution exactly when plain
    backtracking does (it returns the same one). *)
Theorem backjumping_equivale_backtracking :
  (∃ sol, resolver csp = Valor (Asignacion sol))
  ↔ (∃ sol, Backtracking.resolver csp = Valor (Asignacion sol)).
Proof. by rewrite resolver_igual. Qed.

Lemma resolver_bj_no_agotado : resolver csp ≠ Agotado.
Proof. rewrite resolver_igual. apply resolver_no_agotado. Qed.

(** C9: a conflict set returned by [_backjump] for the assignment [a] only
    contains variables assigned in [a], hence not the variable the call
    selected; it is not empty, so the call on the empty assignment returns
    none, and [resolver] never hands a set back. *)
Theorem conjunto_conflicto_solo_ancestros fuel a cc origen s cc' :
  _backjump fuel csp a cc = Valor (Conflicto origen s, cc') →
  s ⊆ dom a
  ∧ (∀ var, _seleccionar_variable csp a = Some var → var ∉ s)
  ∧ s ≠ ∅
  ∧ a ≠ ∅
  ∧ ∀ r, resolver csp = Valor r → ∀ c, r ≠ Conjunto c.
Proof.
  intros H. pose proof (_backjump_marco_simula fuel a cc) as [_ Hs].
  rewrite H in Hs. destruct Hs as (Hne & Hsub & _).
  split; [done|]. split; [|split; [done|split]].
  - intros var Hsel. apply seleccionar_Some in Hsel as [_ Hnone].
    apply not_elem_of_dom in Hnone. set_solver.
  - intros ->. rewrite dom_empty_L in Hsub. apply Hne. set_solver.
  - intros r Hr c ->. rewrite resolver_igual in Hr.
    unfold Backtracking.resolver in Hr.
    destruct (Backtracking._backtrack _ csp ∅) as [[sol|]| |]; done.
Qed.

End backjumping_principal.

(** ** Arc revision *)

Section revisar.
Import Propagacion.

Lemma foldl_quitar_cons a l xs :
  a ∉ xs →
  foldl (λ d valor, quitar valor d) (a :: l) xs
  = a :: foldl (λ d valor, quitar valor d) l xs.
Proof.
  revert l. induction xs as [|x xs IH]; intros l Ha; [done|].
  apply not_elem_of_cons in Ha as [Hax Ha]. simpl.
  rewrite bool_decide_false by congruence. by apply IH.
Qed.

Lemma foldl_quitar_filter (P : Z → bool) l :
  foldl (λ d valor, quitar valor d) l (filter (λ a, P a = false) l)
  = filter (λ a, P a = true) l.
Proof.
  induction l as [|a l IH]; [done|].
  destruct (P a) eqn:HP.
  - rewrite (filter_cons_False (λ a, P a = false)) by congruence.
    rewrite (filter_cons_True (λ a, P a = true)) by done.
    rewrite foldl_quitar_cons, IH; [done|].
    intros Hin. apply list_elem_of_filter in Hin as [Hf _]. congruence.
  - rewrite (filter_cons_True (λ a, P a = false)) by done.
    rewrite (filter_cons_False (λ a, P a = true)) by congruence.
    simpl. rewrite bool_decide_true by done. apply IH.
Qed.

Lemma valores_a_eliminar_filter csp xi xj doms dj di :
  doms !! xj = Some dj →
  valores_a_eliminar csp xi xj doms di
  = Valor (filter (λ a, soportado csp xi xj dj a = false) di).
Proof.
  intros Hj. induction di as [|a di IH]; [done|].
  simpl. unfold indexar at 1. rewrite Hj. simpl. rewrite IH. simpl.
  unfold soportado at 2.
  destruct (existsb _ dj) eqn:He.
  - rewrite filter_cons_False; [done|]. unfold soportado. congruence.
  - rewrite filter_cons_True; [done|]. unfold soportado. congruence.
Qed.

Lemma revisar_arco_filter csp xi xj doms di dj :
  doms !! xi = Some di → doms !! xj = Some dj →
  revisar_arco csp xi xj doms
  = Valor (bool_decide (filter (λ a, soportado csp xi xj dj a = false) di ≠ []),
           length (filter (λ a, soportado csp xi xj dj a = false) di),
           <[xi := filter (λ a, soportado csp xi xj dj a = true) di]> doms).
Proof.
  intros Hi Hj. unfold revisar_arco, indexar. rewrite Hi. simpl.
  rewrite (valores_a_eliminar_filter _ _ _ _ dj) by done. simpl.
  by rewrite foldl_quitar_filter.
Qed.
Lemma length_filter_bool (P : Z → bool) l :
  length (filter (λ a, P a = true) l) + length (filter (λ a, P a = false) l)
  = length l.
Proof.
  induction l as [|a l IH]; [done|]. destruct (P a) eqn:HP.
  - rewrite (filter_cons_True (λ a, P a = true)) by done.
    rewrite (filter_cons_False (λ a, P a = false)) by congruence.
    simpl. lia.
  - rewrite (filter_cons_False (λ a, P a = true)) by congruence.
    rewrite (filter_cons_True (λ a, P a = false)) by done.
    simpl. lia.
Qed.
End revisar.

(** ** AC-3 keeps the solutions *)

Section ac3.
Import Propagacion.
Context (csp : CSP).

Lemma revisar_arco_inv xi xj doms rev n doms' :
  revisar_arco csp xi xj doms = Valor (rev, n, doms') →
  ∃ di di',
    doms !! xi = Some di ∧ doms' = <[xi := di']> doms
    ∧ di' ⊆ di ∧ length di' + n = length di
    ∧ rev = bool_decide (n ≠ 0)
    ∧ ∀ a, a ∈ di → a ∉ di' →
           ∃ dj, doms !! xj = Some dj
                 ∧ ∀ b, b ∈ dj → es_consistente_binaria csp xi a xj b = false.
Proof.
  intros H. destruct (doms !! xi) as [di|] eqn:Hi.
  2:{ unfold revisar_arco, indexar in H. by rewrite Hi in H. }
  destruct (doms !! xj) as [dj|] eqn:Hj.
  - rewrite (revisar_arco_filter csp xi xj doms di dj Hi Hj) in H.
    injection H as <- <- <-.
    exists di, (filter (λ a, soportado csp xi xj dj a = true) di).
    split; [done|]. split; [done|]. split; [|split; [|split]].
    + intros a Ha. by apply list_elem_of_filter in Ha as [_ Ha].
    + apply length_filter_bool.
    + apply bool_decide_ext. split.
      * intros Hne Hl. apply Hne. by apply nil_length_inv.
      * intros Hl Hnil. apply Hl. by rewrite Hnil.
    + intros a Ha Hna. exists dj. split; [done|]. intros b Hb.
      destruct (es_consistente_binaria csp xi a xj b) eqn:Hc; [|done].
      exfalso. apply Hna. apply list_elem_of_filter. split; [|done].
      unfold soportado. apply existsb_exists. exists b.
      split; [by apply list_elem_of_In|done].
  - destruct di as [|a di].
    + unfold revisar_arco, indexar in H. rewrite Hi in H. simpl in H.
      injection H as <- <- <-. exists [], []. repeat split; try done.
    + unfold revisar_arco, indexar in H. rewrite Hi in H. simpl in H.
      unfold indexar in H. by rewrite Hj in H.
Qed.

Lemma buscar_Some clave restr f :
  buscar clave restr = Some f → (clave, f) ∈ restr.
Proof.
  unfold buscar. destruct (List.find _ restr) as [[k g]|] eqn:Hf; [|done].
  intros [= <-]. apply find_some in Hf as [Hin Hk].
  apply bool_decide_eq_true in Hk. simpl in Hk. subst k.
  by apply list_elem_of_In.
Qed.

Lemma binaria_solucion sol xi vi xj vj :
  satisface csp sol → sol !! xi = Some vi → sol !! xj = Some vj →
  es_consistente_binaria csp xi vi xj vj = true.
Proof.
  intros Hsat Hi Hj. unfold es_consistente_binaria.
  destruct (buscar [xi; xj] _) as [f|] eqn:Hf.
  - apply buscar_Some in Hf. destruct (Hsat _ Hf) as (vs & Hvs & Hok).
    simpl in Hvs. unfold valores_de in Hvs. simpl in Hvs.
    rewrite Hi, Hj in Hvs. simpl in Hvs. by injection Hvs as <-.
  - destruct (buscar [xj; xi] _) as [f|] eqn:Hg; [|done].
    apply buscar_Some in Hg. destruct (Hsat _ Hg) as (vs & Hvs & Hok).
    simpl in Hvs. unfold valores_de in Hvs. simpl in Hvs.
    rewrite Hi, Hj in Hvs. simpl in Hvs. by injection Hvs as <-.
Qed.

Lemma revisar_arco_invariante xi xj doms rev n doms' :
  invariante_ac3 csp doms →
  revisar_arco csp xi xj doms = Valor (rev, n, doms') →
  invariante_ac3 csp doms'.
Proof.
  intros (Hdom & Hsub & Hsol) H.
  apply revisar_arco_inv in H
    as (di & di' & Hi & -> & Hsubi & Hlen & Hrev & Hrem).
  split; [|split].
  - rewrite dom_insert_L, <- Hdom.
    assert (xi ∈ dom doms) by (apply elem_of_dom; eauto). set_solver.
  - intros x d Hx. destruct (decide (x = xi)) as [->|Hne].
    + rewrite lookup_insert_eq in Hx. injection Hx as <-.
      destruct (Hsub xi di Hi) as (d0 & Hd0 & Hs). exists d0. split; [done|].
      set_solver.
    + rewrite lookup_insert_ne in Hx by done. by apply Hsub.
  - intros sol Hs var valor Hv. pose proof Hs as (Hcomp & _ & Hsat).
    destruct (Hsol sol Hs var valor Hv) as (d & Hd & Hin).
    destruct (decide (var = xi)) as [->|Hne].
    2:{ exists d. by rewrite lookup_insert_ne. }
    rewrite Hi in Hd. injection Hd as <-.
    exists di'. rewrite lookup_insert_eq. split; [done|].
    destruct (decide (valor ∈ di')) as [|Hnot]; [done|]. exfalso.
    destruct (Hrem valor Hin Hnot) as (dj & Hj & Hno).
    assert (is_Some (sol !! xj)) as [vj Hvj].
    { apply elem_of_dom. rewrite Hcomp, <- Hdom. apply elem_of_dom. eauto. }
    destruct (Hsol sol Hs xj vj Hvj) as (dj' & Hj' & Hinj).
    rewrite Hj in Hj'. injection Hj' as <-.
    pose proof (binaria_solucion sol xi valor xj vj Hsat Hv Hvj) as Hb.
    rewrite (Hno vj Hinj) in Hb. done.
Qed.

Lemma ac3_bucle_invariante fuel cola doms exito doms' :
  invariante_ac3 csp doms →
  ac3_bucle fuel csp cola doms = Valor (exito, doms') →
  invariante_ac3 csp doms'
  ∧ (exito = false → ∃ xi, xi ∈ variables csp ∧ doms' !! xi = Some []).
Proof.
  revert cola doms. induction fuel as [|fuel IH]; intros cola doms Hinv H;
    [by simpl in H|].
  simpl in H. destruct cola as [|[xi xj] resto].
  - injection H as <- <-. done.
  - destruct (revisar_arco csp xi xj doms) as [[[rev n] doms1]| |] eqn:Hr;
      [|done|done].
    simpl in H. pose proof (revisar_arco_invariante _ _ _ _ _ _ Hinv Hr) as Hinv1.
    destruct rev; [|by eapply IH].
    unfold indexar in H.
    destruct (doms1 !! xi) as [di|] eqn:Hi; simpl in H; [|done].
    case_bool_decide as Hnil.
    + injection H as <- <-. split; [done|]. intros _. exists xi.
      split; [|by rewrite Hi, Hnil].
      destruct Hinv1 as (Hdom & _).
      assert (xi ∈ dom doms1) as Hx by (apply elem_of_dom; eauto).
      rewrite Hdom in Hx. by apply elem_of_list_to_set in Hx.
    + destruct (vecinos csp !! xi) as [vs|]; simpl in H; [|done].
      by eapply IH.
Qed.

Lemma copiar_dominios_lookup vars acc doms :
  copiar_dominios csp vars acc = Valor doms →
  dom doms = dom acc ∪ list_to_set vars
  ∧ ∀ x, doms !! x = if bool_decide (x ∈ vars) then dominios csp !! x
                     else acc !! x.
Proof.
  revert acc. induction vars as [|var resto IH]; intros acc H; simpl in H.
  - injection H as <-. split; [set_solver|]. intros x.
    rewrite bool_decide_false; [done|]. apply not_elem_of_nil.
  - unfold indexar in H. destruct (dominios csp !! var) as [d|] eqn:Hd;
      [|done]. simpl in H. apply IH in H as [Hdom Hl]. split.
    + rewrite Hdom, dom_insert_L. set_solver.
    + intros x. rewrite Hl. destruct (decide (x ∈ resto)) as [Hin|Hin].
      * rewrite !bool_decide_true; [done|set_solver|done].
      * rewrite (bool_decide_false (x ∈ resto)) by done.
        destruct (decide (x = var)) as [->|Hne].
        -- rewrite lookup_insert_eq, bool_decide_true; [done|set_solver].
        -- rewrite lookup_insert_ne, bool_decide_false; [done|set_solver|done].
Qed.

Lemma copiar_dominios_invariante doms :
  copiar_dominios csp (variables csp) ∅ = Valor doms →
  invariante_ac3 csp doms.
Proof.
  intros H. apply copiar_dominios_lookup in H as [Hdom Hl].
  split; [|split].
  - rewrite Hdom, dom_empty_L. set_solver.
  - intros x d Hx. rewrite Hl in Hx. case_bool_decide.
    + exists d. done.
    + by rewrite lookup_empty in Hx.
  - intros sol (Hcomp & Hen & _) var valor Hv.
    destruct (Hen var valor Hv) as (d & Hd & Hin). exists d. split; [|done].
    rewrite Hl, bool_decide_true; [done|].
    assert (var ∈ dom sol) as Hx by (apply elem_of_dom; eauto).
    rewrite Hcomp in Hx. by apply elem_of_list_to_set in Hx.
Qed.

Lemma ac3_invariante cola exito doms :
  ac3 csp cola = Valor (exito, doms) →
  invariante_ac3 csp doms
  ∧ (exito = false → ∃ xi, xi ∈ variables csp ∧ doms !! xi = Some []).
Proof.
  unfold ac3. intros H.
  apply ligar_Valor in H as (doms0 & Hc & H).
  apply ligar_Valor in H as (c & _ & H).
  apply copiar_dominios_invariante in Hc.
  by eapply ac3_bucle_invariante.
Qed.

Lemma solucion_con_dominios doms sol :
  solucion (con_dominios csp doms) sol
  ↔ completa csp sol ∧ en_dominios doms sol ∧ satisface csp sol.
Proof. done. Qed.

(** C10: a value that AC-3 has removed from a domain is the value of that
    variable in no solution; when AC-3 reports failure there is no solution;
    and the instance has a solution exactly when it has one over the reduced
    domains. *)
Theorem ac3_conserva_soluciones cola exito doms :
  ac3 csp cola = Valor (exito, doms) →
  (∀ x d v sol, doms !! x = Some d → v ∉ d → solucion csp sol →
                sol !! x ≠ Some v)
  ∧ (exito = false → ∀ sol, ¬ solucion csp sol)
  ∧ ((∃ sol, solucion csp sol) ↔ (∃ sol, solucion (con_dominios csp doms) sol)).
Proof.
  intros H. apply ac3_invariante in H as [(Hdom & Hsub & Hsol) Hfail].
  split; [|split].
  - intros x d v sol Hx Hv Hs Hlook.
    destruct (Hsol sol Hs x v Hlook) as (d' & Hd' & Hin).
    rewrite Hx in Hd'. injection Hd' as <-. done.
  - intros He sol Hs. destruct (Hfail He) as (xi & Hxi & Hnil).
    pose proof Hs as (Hcomp & _).
    assert (is_Some (sol !! xi)) as [v Hv].
    { apply elem_of_dom. rewrite Hcomp. by apply elem_of_list_to_set. }
    destruct (Hsol sol Hs xi v Hv) as (d & Hd & Hin).
    rewrite Hnil in Hd. injection Hd as <-. by apply elem_of_nil in Hin.
  - split; intros [sol Hs]; exists sol.
    + apply solucion_con_dominios. destruct Hs as (Hc & He & Hsat).
      split; [done|]. split; [|done]. apply Hsol. done.
    + apply solucion_con_dominios in Hs as (Hc & He & Hsat).
      split; [done|]. split; [|done]. intros var valor Hv.
      destruct (He var valor Hv) as (d & Hd & Hin).
      destruct (Hsub var d Hd) as (d0 & Hd0 & Hs0). exists d0. split; [done|].
      set_solver.
Qed.

End ac3.

(** ** AC-3: the budget is enough *)

Section ac3_termina.
Import Propagacion.
Context (csp : CSP).

Lemma total_valores_insert (doms : gmap string (list Z)) xi di di' :
  doms !! xi = Some di →
  total_valores (<[xi := di']> doms) + length di
  = total_valores doms + length di'.
Proof.
  intros Hi. unfold total_valores.
  rewrite <- (insert_delete_eq doms).
  rewrite map_to_list_insert by apply lookup_delete_eq.
  rewrite <- (map_to_list_delete doms xi di Hi).
  simpl. lia.
Qed.

Lemma max_vecinos_cota xi vs :
  vecinos csp !! xi = Some vs → length vs ≤ max_vecinos csp.
Proof.
  intros H. unfold max_vecinos. apply max_list_elem_of_le.
  apply list_elem_of_fmap. exists vs. split; [done|].
  apply list_elem_of_fmap. exists (xi, vs). split; [done|].
  by apply elem_of_map_to_list.
Qed.

Lemma valores_a_eliminar_no_agotado xi xj doms di :
  valores_a_eliminar csp xi xj doms di ≠ Agotado.
Proof.
  induction di as [|a di IH]; [done|]. simpl. unfold indexar.
  destruct (doms !! xj) as [dj|]; [|done]. simpl.
  destruct (valores_a_eliminar csp xi xj doms di); [|done|done]. simpl.
  by destruct (existsb _ dj).
Qed.

Lemma revisar_arco_no_agotado xi xj doms :
  revisar_arco csp xi xj doms ≠ Agotado.
Proof.
  unfold revisar_arco, indexar. destruct (doms !! xi) as [di|]; [|done].
  simpl. pose proof (valores_a_eliminar_no_agotado xi xj doms di) as H.
  by destruct (valores_a_eliminar csp xi xj doms di).
Qed.

Lemma ac3_bucle_paso fuel xi xj resto doms :
  ac3_bucle (S fuel) csp ((xi, xj) :: resto) doms
  = r ← revisar_arco csp xi xj doms;
    let '(revisado, _, doms') := (r : bool * nat * gmap string (list Z)) in
    if revisado then
      di ← indexar doms' xi;
      if bool_decide (di = []) then Valor (false, doms')
      else
        vs ← indexar (vecinos csp) xi;
        ac3_bucle fuel csp
          (resto ++ ((λ xk, (xk, xi)) <$> filter (λ xk, xk ≠ xj) vs)) doms'
    else ac3_bucle fuel csp resto doms'.
Proof. reflexivity. Qed.

Lemma ac3_bucle_no_agotado fuel cola doms :
  length cola + S (max_vecinos csp) * total_valores doms < fuel →
  ac3_bucle fuel csp cola doms ≠ Agotado.
Proof.
  revert cola doms. induction fuel as [|fuel IH]; intros cola doms Hlt; [lia|].
  destruct cola as [|[xi xj] resto]; [done|]. rewrite ac3_bucle_paso.
  destruct (revisar_arco csp xi xj doms) as [[[rev n] doms1]| |] eqn:Hr;
    cbn [mbind resultado_bind];
    [|done|by apply revisar_arco_no_agotado in Hr].
  apply revisar_arco_inv in Hr
    as (di & di' & Hi & -> & _ & Hlen & -> & _).
  pose proof (total_valores_insert doms xi di di' Hi) as Htot.
  simpl in Hlt. case_bool_decide as Hn.
  - unfold indexar. rewrite lookup_insert_eq. simpl.
    case_bool_decide; [done|].
    destruct (vecinos csp !! xi) as [vs|] eqn:Hvs; simpl; [|done].
    apply IH. rewrite length_app, length_fmap.
    pose proof (max_vecinos_cota xi vs Hvs) as Hmax.
    pose proof (length_filter (λ xk, xk ≠ xj) vs) as Hf.
    nia.
  - apply IH. nia.
Qed.

Lemma copiar_dominios_no_agotado vars acc :
  copiar_dominios csp vars acc ≠ Agotado.
Proof.
  revert acc. induction vars as [|v l IH]; intros acc; [done|]. simpl.
  apply ligar_no_agotado; [|by intros].
  unfold indexar. by destruct (dominios csp !! v).
Qed.

Lemma _calcular_arcos_no_agotado claves : _calcular_arcos claves ≠ Agotado.
Proof.
  induction claves as [|k l IH]; [done|]. simpl.
  destruct k as [|v1 [|v2 [|v3 k]]]; try done.
  by apply ligar_no_agotado.
Qed.

Lemma ac3_no_agotado cola : ac3 csp cola ≠ Agotado.
Proof.
  unfold ac3. apply ligar_no_agotado; [apply copiar_dominios_no_agotado|].
  intros doms _. apply ligar_no_agotado.
  - destruct cola; [done|]. apply _calcular_arcos_no_agotado.
  - intros c _. apply ac3_bucle_no_agotado. unfold presupuesto. lia.
Qed.

End ac3_termina.

(** ** The other recursive solvers: the budget is enough *)

Section presupuesto_suficiente.
Context (csp : CSP).

Lemma indexar_no_agotado {V} (d : gmap string V) k : indexar d k ≠ Agotado.
Proof. unfold indexar. by destruct (d !! k). Qed.

Lemma minimo_desde_no_agotado clave mejor k vars :
  (∀ v, clave v ≠ Agotado) → minimo_desde clave mejor k vars ≠ Agotado.
Proof.
  intros Hc. revert mejor k. induction vars as [|x l IH]; intros mejor k;
    [done|].
  simpl. apply ligar_no_agotado; [done|]. intros kx _. by case_bool_decide.
Qed.

Lemma minimo_no_agotado clave vars :
  (∀ v, clave v ≠ Agotado) → minimo clave vars ≠ Agotado.
Proof.
  intros Hc. destruct vars as [|x l]; [done|]. simpl.
  apply ligar_no_agotado; [done|]. intros k _.
  by apply minimo_desde_no_agotado.
Qed.

Lemma obtener_valores_legales_no_agotado var a :
  obtener_valores_legales csp var a ≠ Agotado.
Proof.
  unfold obtener_valores_legales.
  apply ligar_no_agotado; [apply indexar_no_agotado|done].
Qed.

Lemma sumar_conflictos_no_agotado a a' vs c :
  BacktrackingMejorado.sumar_conflictos csp a a' vs c ≠ Agotado.
Proof.
  revert c. induction vs as [|v l IH]; intros c; [done|]. simpl.
  case_bool_decide; [|done].
  apply ligar_no_agotado; [apply obtener_valores_legales_no_agotado|].
  intros antes _.
  apply ligar_no_agotado; [apply obtener_valores_legales_no_agotado|done].
Qed.

Lemma con_claves_no_agotado clave l :
  (∀ x, clave x ≠ Agotado) → con_claves clave l ≠ Agotado.
Proof.
  intros Hc. induction l as [|x l IH]; [done|]. simpl.
  apply ligar_no_agotado; [done|]. intros k _.
  by apply ligar_no_agotado.
Qed.

Lemma _ordenar_valores_lcv_no_agotado var a :
  BacktrackingMejorado._ordenar_valores_lcv csp var a ≠ Agotado.
Proof.
  unfold BacktrackingMejorado._ordenar_valores_lcv.
  apply ligar_no_agotado; [apply obtener_valores_legales_no_agotado|].
  intros legales _. unfold ordenar_por_clave.
  apply ligar_no_agotado; [|done]. apply con_claves_no_agotado.
  intros x. unfold BacktrackingMejorado.contar_conflictos.
  apply ligar_no_agotado; [apply indexar_no_agotado|].
  intros vs _. apply sumar_conflictos_no_agotado.
Qed.

Lemma mejorado_mrv_no_agotado a :
  BacktrackingMejorado._seleccionar_variable_mrv csp a ≠ Agotado.
Proof.
  apply minimo_no_agotado. intros v.
  unfold BacktrackingMejorado.contar_valores_legales.
  apply ligar_no_agotado; [apply obtener_valores_legales_no_agotado|done].
Qed.

Lemma mejorado_backtrack_no_agotado fuel a :
  size a ≤ length (variables csp) →
  length (variables csp) - size a < fuel →
  BacktrackingMejorado._backtrack fuel csp a ≠ Agotado.
Proof.
  revert a. induction fuel as [|fuel IH]; intros a Hle Hlt; [lia|]. simpl.
  case_bool_decide as Hsz; [done|].
  apply ligar_no_agotado; [apply mejorado_mrv_no_agotado|]. intros var Hsel.
  apply minimo_elem_of, no_asignada_elem_of in Hsel as [Hin Hnone].
  apply ligar_no_agotado; [apply _ordenar_valores_lcv_no_agotado|].
  intros valores _. apply probar_no_agotado. intros valor.
  apply IH; rewrite map_size_insert_None by done; lia.
Qed.

Lemma resolver_mejorado_no_agotado :
  BacktrackingMejorado.resolver csp ≠ Agotado.
Proof.
  unfold BacktrackingMejorado.resolver. apply ligar_no_agotado; [|done].
  apply mejorado_backtrack_no_agotado; rewrite map_size_empty; lia.
Qed.

Lemma dominios_mrv_no_agotado (a : gmap string Z) (doms : gmap string (list Z)) :
  minimo (λ v, d ← indexar doms v; Valor (length d))
         (filter (λ v, a !! v = None) (variables csp)) ≠ Agotado.
Proof.
  apply minimo_no_agotado. intros v.
  apply ligar_no_agotado; [apply indexar_no_agotado|done].
Qed.

Lemma _forward_check_bucle_no_agotado a vs doms :
  ForwardChecking._forward_check_bucle csp a vs doms ≠ Agotado.
Proof.
  revert doms. induction vs as [|v l IH]; intros doms; [done|]. simpl.
  case_bool_decide; [|done].
  apply ligar_no_agotado; [apply indexar_no_agotado|]. intros d _.
  by case_bool_decide.
Qed.

Lemma fc_probar_no_agotado rec var a doms valores :
  (∀ valor dn, rec (<[var := valor]> a) dn ≠ Agotado) →
  ForwardChecking.probar rec csp var a doms valores ≠ Agotado.
Proof.
  intros Hrec. induction valores as [|valor resto IH]; [done|]. simpl.
  destruct (es_consistente csp var valor a); [|done].
  apply ligar_no_agotado.
  - unfold ForwardChecking._forward_check.
    apply ligar_no_agotado; [apply indexar_no_agotado|]. intros vs _.
    apply _forward_check_bucle_no_agotado.
  - intros [dn exito] _. destruct exito; [|done].
    apply ligar_no_agotado; [done|]. by intros [s|] _.
Qed.

Lemma fc_backtrack_no_agotado fuel a doms :
  size a ≤ length (variables csp) →
  length (variables csp) - size a < fuel →
  ForwardChecking._backtrack fuel csp a doms ≠ Agotado.
Proof.
  revert a doms. induction fuel as [|fuel IH]; intros a doms Hle Hlt; [lia|].
  simpl. case_bool_decide as Hsz; [done|].
  apply ligar_no_agotado; [apply dominios_mrv_no_agotado|]. intros var Hsel.
  apply minimo_elem_of, no_asignada_elem_of in Hsel as [Hin Hnone].
  apply ligar_no_agotado; [apply indexar_no_agotado|].
  intros valores _. apply fc_probar_no_agotado. intros valor dn.
  apply IH; rewrite map_size_insert_None by done; lia.
Qed.

Lemma resolver_fc_no_agotado : ForwardChecking.resolver csp ≠ Agotado.
Proof.
  unfold ForwardChecking.resolver.
  apply ligar_no_agotado; [apply copiar_dominios_no_agotado|]. intros doms _.
  apply ligar_no_agotado; [|done].
  apply fc_backtrack_no_agotado; rewrite map_size_empty; lia.
Qed.

Lemma mac_probar_no_agotado rec var a doms valores :
  (∀ valor dn, rec (<[var := valor]> a) dn ≠ Agotado) →
  Propagacion.probar rec csp var a doms valores ≠ Agotado.
Proof.
  intros Hrec. induction valores as [|valor resto IH]; [done|]. simpl.
  apply ligar_no_agotado.
  - unfold Propagacion.propagar.
    apply ligar_no_agotado; [apply indexar_no_agotado|]. intros vs _.
    apply ligar_no_agotado; [apply ac3_no_agotado|]. by intros [e d] _.
  - intros [exito dn] _. destruct exito; [|done].
    apply ligar_no_agotado; [done|]. by intros [s|] _.
Qed.

Lemma mac_backtrack_no_agotado fuel a doms :
  size a ≤ length (variables csp) →
  length (variables csp) - size a < fuel →
  Propagacion._backtrack fuel csp a doms ≠ Agotado.
Proof.
  revert a doms. induction fuel as [|fuel IH]; intros a doms Hle Hlt; [lia|].
  simpl. case_bool_decide as Hsz; [done|].
  apply ligar_no_agotado; [apply dominios_mrv_no_agotado|]. intros var Hsel.
  apply minimo_elem_of, no_asignada_elem_of in Hsel as [Hin Hnone].
  apply ligar_no_agotado; [apply indexar_no_agotado|].
  intros valores _. apply mac_probar_no_agotado. intros valor dn.
  apply IH; rewrite map_size_insert_None by done; lia.
Qed.

Lemma resolver_mac_no_agotado : Propagacion.resolver csp ≠ Agotado.
Proof.
  unfold Propagacion.resolver.
  apply ligar_no_agotado; [apply ac3_no_agotado|]. intros [exito doms] _.
  destruct exito; [|done]. apply ligar_no_agotado; [|done].
  apply mac_backtrack_no_agotado; rewrite map_size_empty; lia.
Qed.

End presupuesto_suficiente.

Section dfs.
Import Cutset.
Context (csp : CSP) (vars : list string).

Lemma recorrer_termina rec fuel vs st :
  (∀ vecino st0, vecino ∈ vars → vecino ∉ st0.1 →
     size ((list_to_set vars : gset string) ∖ st0.1) ≤ fuel →
     dfs_termina vars st0 (rec vecino st0)) →
  size ((list_to_set vars : gset string) ∖ st.1) ≤ fuel →
  dfs_termina vars st (recorrer rec vars vs st).
Proof.
  intros Hrec. revert st. induction vs as [|vecino resto IH]; intros st Hsz.
  - simpl. done.
  - simpl. destruct (bool_decide_reflect (vecino ∈ vars)) as [Hin|Hin];
      simpl; [|by apply IH].
    destruct (bool_decide_reflect (vecino ∉ st.1)) as [Hno|Hno];
      simpl; [|by apply IH].
    pose proof (Hrec vecino st Hin Hno Hsz) as Hr.
    destruct (rec vecino st) as [st1| |]; simpl in Hr |- *; [|done|done].
    assert (size ((list_to_set vars : gset string) ∖ st1.1) ≤ fuel) as Hsz1.
    { etrans; [|exact Hsz]. apply subseteq_size. set_solver. }
    specialize (IH st1 Hsz1).
    destruct (recorrer rec vars resto st1) as [st2| |]; simpl in IH |- *;
      [|done|done].
    set_solver.
Qed.

Lemma dfs_termina_siempre fuel var st :
  var ∈ vars → var ∉ st.1 →
  size ((list_to_set vars : gset string) ∖ st.1) ≤ fuel →
  dfs_termina vars st (dfs fuel csp vars var st).
Proof.
  revert var st. induction fuel as [|fuel IH]; intros var st Hin Hno Hsz.
  - exfalso.
    assert (var ∈ (list_to_set vars : gset string) ∖ st.1) as Hx by set_solver.
    assert ((list_to_set vars : gset string) ∖ st.1 ≡ ∅) as He.
    { apply size_empty_inv. lia. }
    set_solver.
  - simpl. unfold indexar.
    destruct (vecinos csp !! var) as [vs|]; simpl; [|done].
    assert (size ((list_to_set vars : gset string) ∖ ({[var]} ∪ st.1)) ≤ fuel)
      as Hsz'.
    { assert ((list_to_set vars : gset string) ∖ ({[var]} ∪ st.1)
              = ((list_to_set vars : gset string) ∖ st.1) ∖ {[var]}) as ->
        by set_solver.
      rewrite size_difference by set_solver. rewrite size_singleton. lia. }
    pose proof (recorrer_termina (dfs fuel csp vars) fuel vs
                  ({[var]} ∪ st.1, st.2) IH Hsz') as Hr.
    destruct (recorrer _ vars vs _) as [st1| |]; simpl in Hr |- *;
      [|done|done].
    set_solver.
Qed.

Lemma ordenar_topologicamente_no_agotado raiz :
  raiz ∈ vars → ordenar_topologicamente csp raiz vars ≠ Agotado.
Proof.
  intros Hin. unfold ordenar_topologicamente.
  pose proof (dfs_termina_siempre (S (length vars)) raiz (∅, []) Hin) as H.
  destruct (dfs _ csp vars raiz (∅, [])) as [st| |]; simpl; [done|done|].
  intros _. apply H; [set_solver|]. simpl.
  etrans; [apply (subseteq_size _ (list_to_set vars))|];
    [set_solver|etrans; [apply size_list_to_set_le|lia]].
Qed.

Lemma fase1_no_agotado a orden doms : fase1 csp a orden doms ≠ Agotado.
Proof.
  revert doms. induction orden as [|var resto IH]; intros doms; [done|].
  simpl. case_bool_decide; [done|].
  apply ligar_no_agotado; [apply indexar_no_agotado|]. intros d _.
  by case_bool_decide.
Qed.

Lemma fase2_no_agotado doms orden a : fase2 csp doms orden a ≠ Agotado.
Proof.
  revert a. induction orden as [|var resto IH]; intros a; [done|].
  simpl. case_bool_decide; [done|].
  apply ligar_no_agotado; [apply indexar_no_agotado|]. intros d _.
  by destruct (List.find _ d).
Qed.

End dfs.

Lemma resolver_arbol_csp_no_agotado csp vars a :
  Cutset.resolver_arbol_csp csp vars a ≠ Agotado.
Proof.
  unfold Cutset.resolver_arbol_csp. destruct vars as [|raiz resto]; [done|].
  apply ligar_no_agotado.
  - apply ordenar_topologicamente_no_agotado. left.
  - intros orden _. apply ligar_no_agotado; [apply fase1_no_agotado|].
    intros [exito doms] _. destruct exito; [|done].
    apply ligar_no_agotado; [apply fase2_no_agotado|done].
Qed.

(** ** Cutset conditioning: the budget is enough *)

Section cutset.
Import Cutset.
Context (csp : CSP).

Lemma maximo_desde_elem_of clave mejor k vars v :
  maximo_desde clave mejor k vars = Valor v → v = mejor ∨ v ∈ vars.
Proof.
  revert mejor k. induction vars as [|x l IH]; intros mejor k; simpl.
  - intros [= <-]. by left.
  - intros H. apply ligar_Valor in H as (kx & _ & H).
    case_bool_decide; apply IH in H; set_solver.
Qed.

Lemma maximo_elem_of clave vars v : maximo clave vars = Valor v → v ∈ vars.
Proof.
  destruct vars as [|x l]; [done|]. simpl. intros H.
  apply ligar_Valor in H as (k & _ & H).
  apply maximo_desde_elem_of in H. set_solver.
Qed.

Lemma maximo_desde_no_agotado clave mejor k vars :
  (∀ v, clave v ≠ Agotado) → maximo_desde clave mejor k vars ≠ Agotado.
Proof.
  intros Hc. revert mejor k. induction vars as [|x l IH]; intros mejor k;
    [done|].
  simpl. apply ligar_no_agotado; [done|]. intros kx _. by case_bool_decide.
Qed.

Lemma maximo_no_agotado clave vars :
  (∀ v, clave v ≠ Agotado) → maximo clave vars ≠ Agotado.
Proof.
  intros Hc. destruct vars as [|x l]; [done|]. simpl.
  apply ligar_no_agotado; [done|]. intros k _.
  by apply maximo_desde_no_agotado.
Qed.

Lemma grado_no_agotado restantes v : grado csp restantes v ≠ Agotado.
Proof.
  unfold grado. apply ligar_no_agotado; [apply indexar_no_agotado|done].
Qed.

Lemma explorar_vecinos_medida vars nodo padre vs st :
  medida_bfs vars (explorar_vecinos vars nodo padre vs st).2
  = medida_bfs vars st.
Proof.
  revert st. induction vs as [|vecino resto IH]; intros st; [done|].
  simpl. case_bool_decide as Hv; [apply IH|].
  case_bool_decide as Hvis.
  - rewrite IH. unfold medida_bfs. simpl. rewrite length_app. simpl.
    assert (Hin : vecino ∈ vars) by (destruct (decide (vecino ∈ vars)); tauto).
    set (V := list_to_set vars : gset string).
    assert (HV : vecino ∈ V) by (by apply elem_of_list_to_set).
    assert (Heq : V ∖ st.1 = {[vecino]} ∪ V ∖ ({[vecino]} ∪ st.1)).
    { apply set_eq. intros x. rewrite elem_of_union, !elem_of_difference,
        elem_of_union, elem_of_singleton.
      destruct (decide (x = vecino)) as [->|]; naive_solver. }
    rewrite Heq.
    rewrite (size_union ({[vecino]} : gset string)) by set_solver.
    rewrite size_singleton. lia.
  - case_bool_decide; [done|apply IH].
Qed.

Lemma bfs_bucle_no_agotado fuel vars st :
  medida_bfs vars st < fuel → bfs_bucle fuel csp vars st ≠ Agotado.
Proof.
  revert st. induction fuel as [|fuel IH]; intros st Hm; [lia|].
  simpl. destruct st as [vis cola]. simpl.
  destruct cola as [|[nodo padre] cola]; [done|].
  apply ligar_no_agotado; [apply indexar_no_agotado|]. intros vs _.
  pose proof (explorar_vecinos_medida vars nodo padre vs (vis, cola)) as He.
  destruct (explorar_vecinos vars nodo padre vs (vis, cola)) as [b st'].
  simpl in *. destruct b; [done|]. apply IH.
  rewrite He. unfold medida_bfs in *. simpl in *. lia.
Qed.

Lemma tiene_ciclo_bfs_no_agotado inicio vars visitados :
  tiene_ciclo_bfs csp inicio vars visitados ≠ Agotado.
Proof.
  unfold tiene_ciclo_bfs. apply bfs_bucle_no_agotado.
  unfold medida_bfs. simpl.
  pose proof (size_list_to_set_le vars).
  pose proof (subseteq_size (list_to_set vars ∖ ({[inicio]} ∪ visitados))
                (list_to_set vars : gset string)) as Hs.
  assert (size (list_to_set vars ∖ ({[inicio]} ∪ visitados) : gset string)
          ≤ size (list_to_set vars : gset string)) by (apply Hs; set_solver).
  lia.
Qed.

Lemma es_aciclico_bucle_no_agotado vars pendientes visitados :
  es_aciclico_bucle csp vars pendientes visitados ≠ Agotado.
Proof.
  revert visitados. induction pendientes as [|inicio resto IH];
    intros visitados; [done|].
  simpl. case_bool_decide; [|apply IH].
  apply ligar_no_agotado; [apply tiene_ciclo_bfs_no_agotado|].
  intros [b vis] _. simpl. destruct b; [done|apply IH].
Qed.

Lemma es_aciclico_no_agotado vars : es_aciclico csp vars ≠ Agotado.
Proof.
  unfold es_aciclico. case_bool_decide; [done|].
  apply es_aciclico_bucle_no_agotado.
Qed.

Lemma length_filter_distinto (v : string) (l : list string) :
  v ∈ l → length (filter (λ x, x ≠ v) l) < length l.
Proof.
  induction l as [|y l IH]; [by intros ?%elem_of_nil|].
  intros Hin. rewrite filter_cons. destruct (decide (y ≠ v)) as [Hy|Hy].
  - simpl. apply elem_of_cons in Hin as [->|Hin]; [done|].
    specialize (IH Hin). lia.
  - simpl. pose proof (length_filter (λ x, x ≠ v) l). lia.
Qed.

Lemma encontrar_cutset_bucle_no_agotado fuel cutset restantes :
  length restantes < fuel →
  encontrar_cutset_bucle fuel csp cutset restantes ≠ Agotado.
Proof.
  revert cutset restantes. induction fuel as [|fuel IH];
    intros cutset restantes Hl; [lia|].
  simpl. apply ligar_no_agotado; [apply es_aciclico_no_agotado|].
  intros aciclico _. destruct aciclico; [done|].
  apply ligar_no_agotado.
  - apply maximo_no_agotado. intros v. apply grado_no_agotado.
  - intros v Hv. apply IH. apply maximo_elem_of in Hv.
    apply length_filter_distinto in Hv. lia.
Qed.

Lemma encontrar_cutset_simple_no_agotado :
  encontrar_cutset_simple csp ≠ Agotado.
Proof.
  unfold encontrar_cutset_simple. apply encontrar_cutset_bucle_no_agotado. lia.
Qed.

Lemma backtrack_cons var resto dominios idx a c :
  backtrack (var :: resto) dominios idx a c
  = match dominios !! idx with
    | None => Excepcion
    | Some d => bucle_backtrack var resto dominios idx d (a, c)
    end.
Proof. reflexivity. Qed.

Lemma generar_combinaciones_no_agotado vars doms :
  generar_combinaciones vars doms ≠ Agotado.
Proof.
  unfold generar_combinaciones. destruct vars as [|var vars]; [done|].
  apply ligar_no_agotado; [|done].
  generalize (var :: vars) as l, 0 as idx, (∅ : gmap string Z) as a,
    (@nil (gmap string Z)) as c.
  induction l as [|x l IH]; intros idx a c; [done|].
  rewrite backtrack_cons. destruct (doms !! idx) as [d|]; [|done].
  generalize (a, c) as st. induction d as [|valor d IHd]; intros st; [done|].
  simpl. apply ligar_no_agotado; [apply IH|]. intros st' _.
  case_bool_decide; [apply IHd|done].
Qed.

Lemma probar_combinaciones_no_agotado restantes combinaciones doms :
  probar_combinaciones csp restantes combinaciones doms ≠ Agotado.
Proof.
  revert doms. induction combinaciones as [|a resto IH]; intros doms; [done|].
  simpl. apply ligar_no_agotado; [apply resolver_arbol_csp_no_agotado|].
  intros [r doms'] _. simpl. destruct r; [done|apply IH|done].
Qed.

Lemma mapM_indexar_no_agotado {V} (d : gmap string V) l :
  mapM (indexar d) l ≠ Agotado.
Proof.
  induction l as [|x l IH]; [done|]. simpl.
  apply ligar_no_agotado; [apply indexar_no_agotado|]. intros v _.
  apply ligar_no_agotado; [done|]. done.
Qed.

Lemma acondicionamiento_cutset_no_agotado :
  acondicionamiento_cutset csp ≠ Agotado.
Proof.
  unfold acondicionamiento_cutset.
  apply ligar_no_agotado; [apply encontrar_cutset_simple_no_agotado|].
  intros cutset _.
  apply ligar_no_agotado; [apply mapM_indexar_no_agotado|].
  intros ds _.
  apply ligar_no_agotado; [apply generar_combinaciones_no_agotado|].
  intros combinaciones _. apply probar_combinaciones_no_agotado.
Qed.

End cutset.

(** ** Min-conflicts *)

Section min_conflicts.
Import MinConflicts.
Context (csp : CSP).

Lemma choice_elem_of {A} (l : list A) g x g' :
  choice l g = Valor (x, g') → x ∈ l.
Proof.
  unfold choice. destruct (l !! _) as [y|] eqn:Hl; [|done].
  intros [= <- _]. by eapply list_elem_of_lookup_2.
Qed.

Lemma elem_of_variables_conflicto_foldl (a : gmap string Z) x l (acc : gset string) :
  x ∈ foldl (λ (s : gset string) r,
               if violada a r then s ∪ list_to_set r.1 else s) acc l
  ↔ x ∈ acc ∨ ∃ r, r ∈ l ∧ violada a r = true ∧ x ∈ r.1.
Proof.
  revert acc. induction l as [|r l IH]; intros acc; simpl.
  - split; [by left|]. intros [H|(r & Hr & _)]; [done|].
    by apply elem_of_nil in Hr.
  - rewrite IH. split.
    + intros [H|(r' & Hr' & Hrest)].
      * destruct (violada a r) eqn:Hviol; [|by left].
        apply elem_of_union in H as [H|H]; [by left|].
        apply elem_of_list_to_set in H. right. exists r. split; [left|done].
      * right. exists r'. split; [by right|done].
    + intros [H|(r' & Hr' & Hviol & Hx)].
      * left. destruct (violada a r); [|done]. apply elem_of_union. by left.
      * apply elem_of_cons in Hr' as [->|Hr'].
        -- left. rewrite Hviol. apply elem_of_union. right.
           by apply elem_of_list_to_set.
        -- right. exists r'. done.
Qed.

Lemma elem_of_variables_conflicto a x :
  x ∈ variables_conflicto csp a
  ↔ ∃ r, r ∈ restricciones csp ∧ violada a r = true ∧ x ∈ r.1.
Proof.
  unfold variables_conflicto. rewrite elem_of_variables_conflicto_foldl.
  split; [|by right]. intros [H|H]; [|done]. by apply not_elem_of_empty in H.
Qed.

Lemma violada_asignadas a r x :
  violada a r = true → x ∈ r.1 → is_Some (a !! x).
Proof.
  unfold violada. intros H Hx.
  destruct (valores_de a r.1) as [vs|] eqn:Hvs; [|done].
  assert (is_Some (valores_de a r.1)) as Hs by eauto.
  rewrite valores_de_is_Some in Hs. by apply Hs.
Qed.

Lemma variables_conflicto_dom a : variables_conflicto csp a ⊆ dom a.
Proof.
  intros x Hx. apply elem_of_variables_conflicto in Hx as (r & _ & Hv & Hx).
  apply elem_of_dom. by eapply violada_asignadas.
Qed.

Lemma asignacion_inicial_dom vars g acc a g' :
  asignacion_inicial csp vars g acc = Valor (a, g') →
  dom a = dom acc ∪ list_to_set vars.
Proof.
  revert g acc. induction vars as [|var resto IH]; intros g acc H; simpl in H.
  - injection H as <- _. set_solver.
  - unfold indexar in H. destruct (dominios csp !! var) as [d|]; [|done].
    simpl in H. destruct (choice d g) as [[v g1]| |]; [|done|done].
    simpl in H. apply IH in H. rewrite H, dom_insert_L. set_solver.
Qed.

Lemma bucle_sin_conflictos pasos a g sol :
  bucle csp pasos a g = Valor (Asignacion sol) →
  dom sol = dom a ∧ variables_conflicto csp sol = ∅.
Proof.
  revert a g. induction pasos as [|pasos IH]; intros a g H; [done|].
  simpl in H. case_bool_decide as He.
  - injection H as <-. split; [done|].
    unfold obtener_variables_en_conflicto in He.
    by apply elements_empty_inv, leibniz_equiv in He.
  - destruct (choice (obtener_variables_en_conflicto csp a) g)
      as [[var g1]| |] eqn:Hch; [|done|done].
    simpl in H. unfold indexar in H.
    destruct (dominios csp !! var) as [d|]; [|done]. simpl in H.
    destruct (choice _ g1) as [[v g2]| |]; [|done|done]. simpl in H.
    apply IH in H as [Hd Hc]. split; [|done]. rewrite Hd, dom_insert_L.
    apply choice_elem_of in Hch. unfold obtener_variables_en_conflicto in Hch.
    apply elem_of_elements, variables_conflicto_dom in Hch. set_solver.
Qed.

Lemma min_conflicts_completa_satisface max_pasos g a :
  alcances_declarados csp → alcances_no_vacios csp →
  min_conflicts csp max_pasos g = Valor (Asignacion a) →
  completa csp a ∧ satisface csp a.
Proof.
  intros Hdecl Hne H. unfold min_conflicts in H.
  destruct (asignacion_inicial csp (variables csp) g ∅) as [[a0 g0]| |] eqn:Hini;
    [|done|done].
  simpl in H. apply bucle_sin_conflictos in H as [Hd Hc].
  apply asignacion_inicial_dom in Hini. rewrite dom_empty_L in Hini.
  assert (dom a = list_to_set (variables csp)) as Hdom.
  { rewrite Hd, Hini. set_solver. }
  split; [done|]. intros r Hr.
  assert (is_Some (valores_de a r.1)) as [vs Hvs].
  { apply valores_de_is_Some. intros x Hx. apply elem_of_dom. rewrite Hdom.
    apply elem_of_list_to_set. by apply (Hdecl r). }
  exists vs. split; [done|].
  destruct (r.2 vs) eqn:Hf; [done|]. exfalso.
  assert (violada a r = true) as Hv.
  { unfold violada. by rewrite Hvs, Hf. }
  destruct r.1 as [|x l] eqn:Hsc; [by apply (Hne r)|].
  assert (x ∈ variables_conflicto csp a) as Hx.
  { apply elem_of_variables_conflicto. exists r. rewrite Hsc.
    split; [done|]. split; [done|]. left. }
  rewrite Hc in Hx. by apply not_elem_of_empty in Hx.
Qed.

(** C7, amended: when every constraint has a non-empty scope of declared
    variables, an assignment returned by [min_conflicts] gives a value to
    every variable and satisfies every constraint. *)
Theorem min_conflicts_devuelve_solucion max_pasos g a :
  alcances_declarados csp → alcances_no_vacios csp →
  min_conflicts csp max_pasos g = Valor (Asignacion a) →
  completa csp a ∧ satisface csp a.
Proof. apply min_conflicts_completa_satisface. Qed.

End min_conflicts.

(** ** Soundness of the solvers that check consistency *)

Lemma resolver_bt_parcial csp sol :
  alcances_no_vacios csp →
  Backtracking.resolver csp = Valor (Asignacion sol) →
  estado_parcial csp sol ∧ size sol = length (variables csp).
Proof.
  intros Hne H. unfold Backtracking.resolver in H.
  apply ligar_Valor in H as ([s|] & Hb & H); [|done]. injection H as ->.
  by eapply bt_backtrack_parcial; [apply estado_parcial_vacio|].
Qed.

Lemma resolver_mejorado_parcial csp sol :
  alcances_no_vacios csp →
  BacktrackingMejorado.resolver csp = Valor (Asignacion sol) →
  estado_parcial csp sol ∧ size sol = length (variables csp).
Proof.
  intros Hne H. unfold BacktrackingMejorado.resolver in H.
  apply ligar_Valor in H as ([s|] & Hb & H); [|done]. injection H as ->.
  by eapply mejorado_backtrack_parcial; [apply estado_parcial_vacio|].
Qed.

Lemma resolver_fc_parcial csp sol :
  alcances_no_vacios csp →
  ForwardChecking.resolver csp = Valor (Asignacion sol) →
  estado_parcial csp sol ∧ size sol = length (variables csp).
Proof.
  intros Hne H. unfold ForwardChecking.resolver in H.
  apply ligar_Valor in H as (doms & _ & H).
  apply ligar_Valor in H as ([s|] & Hb & H); [|done]. injection H as ->.
  by eapply fc_backtrack_parcial; [apply estado_parcial_vacio|].
Qed.

(** C1, amended: when every constraint has a non-empty scope of declared
    variables, an assignment returned by plain backtracking, by backtracking
    with MRV and LCV, by forward checking, by backjumping or by min-conflicts
    satisfies every constraint. *)
Theorem asignaciones_devueltas_satisfacen csp sol :
  alcances_declarados csp → alcances_no_vacios csp →
  Backtracking.resolver csp = Valor (Asignacion sol)
  ∨ BacktrackingMejorado.resolver csp = Valor (Asignacion sol)
  ∨ ForwardChecking.resolver csp = Valor (Asignacion sol)
  ∨ Backjumping.resolver csp = Valor (Asignacion sol)
  ∨ (∃ max_pasos g,
       MinConflicts.min_conflicts csp max_pasos g = Valor (Asignacion sol)) →
  satisface csp sol.
Proof.
  intros Hdecl Hne [H|[H|[H|[H|(max_pasos & g & H)]]]].
  - apply resolver_bt_parcial in H as [Hp Hsz]; [|done].
    by apply estado_parcial_satisface.
  - apply resolver_mejorado_parcial in H as [Hp Hsz]; [|done].
    by apply estado_parcial_satisface.
  - apply resolver_fc_parcial in H as [Hp Hsz]; [|done].
    by apply estado_parcial_satisface.
  - rewrite resolver_igual in H.
    apply resolver_bt_parcial in H as [Hp Hsz]; [|done].
    by apply estado_parcial_satisface.
  - by eapply min_conflicts_completa_satisface.
Qed.

(** ** Arc revision: what is removed *)

Section revisar_teorema.
Import Propagacion.
Context (csp : CSP).

Lemma buscar_None clave restr :
  clave ∉ restr.*1 → buscar clave restr = None.
Proof.
  intros H. unfold buscar.
  destruct (List.find _ restr) as [[k g]|] eqn:Hf; [|done].
  apply find_some in Hf as [Hin Hk]. apply bool_decide_eq_true in Hk.
  simpl in Hk. subst k. exfalso. apply H.
  apply list_elem_of_fmap. exists (clave, g). split; [done|].
  by apply list_elem_of_In.
Qed.

Lemma buscar_elem_of clave restr f :
  NoDup restr.*1 → (clave, f) ∈ restr → buscar clave restr = Some f.
Proof.
  intros Hnd Hin. unfold buscar.
  induction restr as [|[k g] l IH]; [by apply elem_of_nil in Hin|].
  simpl in *. apply NoDup_cons in Hnd as [Hk Hnd].
  apply elem_of_cons in Hin as [[= <- <-]|Hin].
  - by rewrite bool_decide_true.
  - rewrite bool_decide_false; [by apply IH|].
    intros ->. apply Hk. apply list_elem_of_fmap. by exists (clave, f).
Qed.

Lemma elem_of_soportados xi xj (di dj : list Z) a :
  a ∈ filter (λ a, soportado csp xi xj dj a = true) di
  ↔ a ∈ di ∧ ∃ b, b ∈ dj ∧ es_consistente_binaria csp xi a xj b = true.
Proof.
  rewrite list_elem_of_filter. unfold soportado. rewrite existsb_exists.
  split.
  - intros [(b & Hb & Hc) Ha]. split; [done|]. exists b.
    by rewrite list_elem_of_In.
  - intros [Ha (b & Hb & Hc)]. split; [|done]. exists b.
    by rewrite <- list_elem_of_In.
Qed.

(** C5, amended: [revisar_arco] keeps in the domain of [xi] exactly the values
    that have a compatible value in the domain of [xj], reports whether a
    value was removed and how many were; compatibility is decided by the
    constraint keyed [(xi, xj)] when there is one, otherwise by the one keyed
    [(xj, xi)], and holds when there is neither. *)
Theorem revisar_arco_primera_clave xi xj doms di dj :
  NoDup (restricciones csp).*1 →
  doms !! xi = Some di → doms !! xj = Some dj →
  let di' := filter (λ a, soportado csp xi xj dj a = true) di in
  let n := length di - length di' in
  revisar_arco csp xi xj doms
  = Valor (bool_decide (n ≠ 0), n, <[xi := di']> doms)
  ∧ (∀ a, a ∈ di' ↔
          a ∈ di ∧ ∃ b, b ∈ dj ∧ es_consistente_binaria csp xi a xj b = true)
  ∧ (∀ a b f, ([xi; xj], f) ∈ restricciones csp →
              es_consistente_binaria csp xi a xj b = f [a; b])
  ∧ (∀ a b g, [xi; xj] ∉ (restricciones csp).*1 →
              ([xj; xi], g) ∈ restricciones csp →
              es_consistente_binaria csp xi a xj b = g [b; a])
  ∧ (∀ a b, [xi; xj] ∉ (restricciones csp).*1 →
            [xj; xi] ∉ (restricciones csp).*1 →
            es_consistente_binaria csp xi a xj b = true).
Proof.
  intros Hnd Hi Hj di' n. split; [|split; [|split; [|split]]].
  - rewrite (revisar_arco_filter csp xi xj doms di dj Hi Hj).
    pose proof (length_filter_bool (soportado csp xi xj dj) di) as Hlen.
    fold di' in Hlen.
    assert (length (filter (λ a, soportado csp xi xj dj a = false) di) = n)
      as Hn by (unfold n; lia).
    rewrite Hn. do 3 f_equal. apply bool_decide_ext. rewrite <- Hn. split.
    + intros Hne Hl. apply Hne. by apply nil_length_inv.
    + intros Hl Hnil. apply Hl. by rewrite Hnil.
  - intros a. apply elem_of_soportados.
  - intros a b f Hf. unfold es_consistente_binaria.
    by rewrite (buscar_elem_of _ _ f Hnd Hf).
  - intros a b g Hno Hg. unfold es_consistente_binaria.
    by rewrite (buscar_None _ _ Hno), (buscar_elem_of _ _ g Hnd Hg).
  - intros a b Hno1 Hno2. unfold es_consistente_binaria.
    by rewrite (buscar_None _ _ Hno1), (buscar_None _ _ Hno2).
Qed.

End revisar_teorema.

Lemma revisar_arco_primera_clave_testigo :
  NoDup (restricciones doble_clave).*1
  ∧ dominios doble_clave !! "A" = Some [1]%Z
  ∧ dominios doble_clave !! "B" = Some [1]%Z
  ∧ Propagacion.revisar_arco doble_clave "A" "B" (dominios doble_clave)
    = Valor (false, 0, dominios doble_clave).
Proof.
  assert (NoDup (restricciones doble_clave).*1) as Hnd.
  { apply (bool_decide_unpack _). vm_compute. exact I. }
  split; [exact Hnd|]. split; [reflexivity|]. split; [reflexivity|].
  pose proof (revisar_arco_primera_clave doble_clave "A" "B"
                (dominios doble_clave) [1]%Z [1]%Z Hnd eq_refl eq_refl) as H.
  destruct H as [H _]. rewrite H. vm_compute. reflexivity.
Defined.

(** ** Failure values, and instances of the theorems above *)

Lemma bucle_retorno csp pasos a g r :
  MinConflicts.bucle csp pasos a g = Valor r →
  r = Ninguno ∨ ∃ sol, r = Asignacion sol.
Proof.
  revert a g. induction pasos as [|pasos IH]; intros a g H; simpl in H.
  - injection H as <-. by left.
  - case_bool_decide; [injection H as <-; right; eauto|].
    apply ligar_Valor in H as (c & _ & H).
    apply ligar_Valor in H as (d & _ & H).
    apply ligar_Valor in H as (c' & _ & H). by eapply IH.
Qed.

(** C6, amended: when [min_conflicts] ends without a solution it returns
    [None], and that is the very value [SolucionadorBacktracking.resolver]
    returns on an instance that has no solution; the two failures cannot be
    told apart from the returned value. *)
Theorem fallo_comun csp1 max_pasos g r1 csp2 :
  MinConflicts.min_conflicts csp1 max_pasos g = Valor r1 →
  (∀ a, r1 ≠ Asignacion a) →
  bien_formado csp2 → (∀ a, ¬ solucion csp2 a) →
  r1 = Ninguno ∧ Backtracking.resolver csp2 = Valor r1.
Proof.
  intros H Hno Hbf Hins. unfold MinConflicts.min_conflicts in H.
  apply ligar_Valor in H as (a0 & _ & H).
  apply bucle_retorno in H as [->|[sol ->]].
  - split; [done|]. by apply resolver_insatisfacible.
  - by destruct (Hno sol).
Qed.

Lemma triangulo_bien_formado : bien_formado triangulo.
Proof.
  split; [|split; [|split]].
  - apply (bool_decide_unpack _). vm_compute. exact I.
  - intros v Hv. simpl in Hv.
    repeat (apply elem_of_cons in Hv as [->|Hv]; [by eexists|]).
    by apply elem_of_nil in Hv.
  - intros r v Hr Hv. simpl in Hr.
    repeat (apply elem_of_cons in Hr as [->|Hr];
            [simpl in Hv; set_solver|]).
    by apply elem_of_nil in Hr.
  - intros r Hr. simpl in Hr.
    repeat (apply elem_of_cons in Hr as [->|Hr]; [done|]).
    by apply elem_of_nil in Hr.
Qed.

Lemma triangulo_insatisfacible : ∀ a, ¬ solucion triangulo a.
Proof.
  intros sol (Hcomp & Hen & Hsat).
  assert (∀ x, x ∈ variables triangulo →
               ∃ v, sol !! x = Some v ∧ (v = 0%Z ∨ v = 1%Z)) as Hval.
  { intros x Hx.
    assert (is_Some (sol !! x)) as [v Hv].
    { apply elem_of_dom. rewrite Hcomp. by apply elem_of_list_to_set. }
    exists v. split; [done|]. destruct (Hen x v Hv) as (d & Hd & Hin).
    simpl in Hx.
    repeat (apply elem_of_cons in Hx as [->|Hx];
            [vm_compute in Hd; injection Hd as <-; set_solver|]).
    by apply elem_of_nil in Hx. }
  destruct (Hval "A") as (a & Ha & HaV); [set_solver|].
  destruct (Hval "B") as (b & Hb & HbV); [set_solver|].
  destruct (Hval "C") as (c & Hc & HcV); [set_solver|].
  destruct (Hsat (["A"; "B"], distintos)) as (v1 & Hv1 & H1); [set_solver|].
  destruct (Hsat (["A"; "C"], distintos)) as (v2 & Hv2 & H2); [set_solver|].
  destruct (Hsat (["B"; "C"], distintos)) as (v3 & Hv3 & H3); [set_solver|].
  unfold valores_de in Hv1, Hv2, Hv3. simpl in Hv1, Hv2, Hv3.
  rewrite Ha, Hb in Hv1. rewrite Ha, Hc in Hv2. rewrite Hb, Hc in Hv3.
  simpl in Hv1, Hv2, Hv3.
  injection Hv1 as <-. injection Hv2 as <-. injection Hv3 as <-.
  simpl in H1, H2, H3.
  destruct HaV as [-> | ->], HbV as [-> | ->], HcV as [-> | ->]; done.
Qed.

Lemma fallo_comun_testigo :
  MinConflicts.min_conflicts triangulo 5 (λ _, 0) = Valor Ninguno
  ∧ (∀ a, Ninguno ≠ Asignacion a)
  ∧ bien_formado triangulo
  ∧ (∀ a, ¬ solucion triangulo a)
  ∧ Ninguno = Ninguno
  ∧ Backtracking.resolver triangulo = Valor Ninguno.
Proof.
  assert (MinConflicts.min_conflicts triangulo 5 (λ _, 0) = Valor Ninguno)
    as H1 by (vm_compute; reflexivity).
  assert (∀ a, Ninguno ≠ Asignacion a) as H2 by (intros a; discriminate).
  split; [exact H1|]. split; [exact H2|].
  split; [exact triangulo_bien_formado|].
  split; [exact triangulo_insatisfacible|].
  exact (fallo_comun triangulo 5 (λ _, 0) Ninguno triangulo H1 H2
           triangulo_bien_formado triangulo_insatisfacible).
Defined.

Lemma dos_variables_alcances :
  alcances_declarados dos_variables ∧ alcances_no_vacios dos_variables.
Proof.
  split.
  - intros r v Hr Hv. apply list_elem_of_singleton in Hr as ->.
    simpl in Hv. set_solver.
  - intros r Hr. by apply list_elem_of_singleton in Hr as ->.
Qed.

Lemma min_conflicts_devuelve_solucion_testigo :
  alcances_declarados dos_variables
  ∧ alcances_no_vacios dos_variables
  ∧ MinConflicts.min_conflicts dos_variables 5 (λ _, 0)
    = Valor (Asignacion {[ "A" := 2%Z; "B" := 1%Z ]})
  ∧ completa dos_variables {[ "A" := 2%Z; "B" := 1%Z ]}
  ∧ satisface dos_variables {[ "A" := 2%Z; "B" := 1%Z ]}.
Proof.
  assert (MinConflicts.min_conflicts dos_variables 5 (λ _, 0)
          = Valor (Asignacion {[ "A" := 2%Z; "B" := 1%Z ]})) as H
    by (vm_compute; reflexivity).
  split; [exact (proj1 dos_variables_alcances)|].
  split; [exact (proj2 dos_variables_alcances)|].
  split; [exact H|].
  exact (min_conflicts_devuelve_solucion dos_variables 5 (λ _, 0) _
           (proj1 dos_variables_alcances) (proj2 dos_variables_alcances) H).
Defined.

Lemma conjunto_conflicto_solo_ancestros_testigo :
  Backjumping._backjump 1 triangulo {[ "A" := 0%Z; "B" := 1%Z ]} ∅
  = Valor (Backjumping.Conflicto "C" {[ "A"; "B" ]},
           {[ "C" := {[ "A"; "B" ]} ]})
  ∧ ({[ "A"; "B" ]} : gset string)
    ⊆ dom ({[ "A" := 0%Z; "B" := 1%Z ]} : gmap string Z).
Proof.
  assert (Backjumping._backjump 1 triangulo {[ "A" := 0%Z; "B" := 1%Z ]} ∅
          = Valor (Backjumping.Conflicto "C" {[ "A"; "B" ]},
                   {[ "C" := {[ "A"; "B" ]} ]})) as H
    by (vm_compute; reflexivity).
  split; [exact H|].
  exact (proj1 (conjunto_conflicto_solo_ancestros triangulo 1 _ _ _ _ _ H)).
Defined.

Lemma ac3_conserva_soluciones_testigo :
  Propagacion.ac3 solo_dos None
  = Valor (true, {[ "A" := [2]%Z; "B" := [2]%Z ]})
  ∧ ((∃ sol, solucion solo_dos sol)
     ↔ (∃ sol, solucion (con_dominios solo_dos
                           {[ "A" := [2]%Z; "B" := [2]%Z ]}) sol)).
Proof.
  assert (Propagacion.ac3 solo_dos None
          = Valor (true, {[ "A" := [2]%Z; "B" := [2]%Z ]})) as H
    by (vm_compute; reflexivity).
  split; [exact H|].
  exact (proj2 (proj2 (ac3_conserva_soluciones solo_dos None _ _ H))).
Defined.

Lemma asignaciones_devueltas_satisfacen_testigo :
  alcances_declarados dos_variables
  ∧ alcances_no_vacios dos_variables
  ∧ Backtracking.resolver dos_variables
    = Valor (Asignacion {[ "A" := 1%Z; "B" := 2%Z ]})
  ∧ satisface dos_variables {[ "A" := 1%Z; "B" := 2%Z ]}.
Proof.
  split; [exact (proj1 dos_variables_alcances)|].
  split; [exact (proj2 dos_variables_alcances)|].
  split; [exact dos_variables_bt|].
  exact (asignaciones_devueltas_satisfacen dos_variables _
           (proj1 dos_variables_alcances) (proj2 dos_variables_alcances)
           (or_introl dos_variables_bt)).
Defined.

(** * Further properties of the code *)

(** ** Sequencing of calls, continued *)

Lemma ligar_valor {A B} (a : A) (k : A → resultado B) : Valor a ≫= k = k a.
Proof. reflexivity. Qed.

Lemma ligar_no_excepcion {A B} (r : resultado A) (k : A → resultado B) :
  r ≠ Excepcion → (∀ a, r = Valor a → k a ≠ Excepcion) → r ≫= k ≠ Excepcion.
Proof. destruct r as [a| |]; simpl; [|done..]. intros _ H. by apply H. Qed.

Lemma indexar_no_excepcion {V} (d : gmap string V) k :
  is_Some (d !! k) → indexar d k ≠ Excepcion.
Proof. unfold indexar. by intros [v ->]. Qed.

(** ** The constructor: neighbour sets *)

Lemma agregar_elem_of (x y : string) (s : list string) :
  y ∈ agregar x s ↔ y ∈ s ∨ y = x.
Proof.
  unfold agregar. case_bool_decide.
  - split; [by left|]. intros [?| ->]; done.
  - rewrite elem_of_app, list_elem_of_singleton. done.
Qed.

Lemma agregar_NoDup (x : string) (s : list string) :
  NoDup s → NoDup (agregar x s).
Proof.
  intros Hs. unfold agregar. case_bool_decide; [done|].
  apply NoDup_app. split; [done|]. split.
  - intros y Hy ->%list_elem_of_singleton. done.
  - apply NoDup_singleton.
Qed.

Lemma vecinos_de_par_spec var1 alcance (vec : gmap string (list string)) :
  match vecinos_de_par var1 alcance vec with
  | Valor vec' =>
      dom vec' = dom vec
      ∧ (∀ x, x ≠ var1 → vec' !! x = vec !! x)
      ∧ (∀ s, vec !! var1 = Some s →
              ∃ s', vec' !! var1 = Some s' ∧ (NoDup s → NoDup s')
                    ∧ ∀ y, y ∈ s' ↔ y ∈ s ∨ (y ∈ alcance ∧ var1 ≠ y))
      ∧ (vec !! var1 = None → ∀ y, y ∈ alcance → y = var1)
  | Excepcion => vec !! var1 = None ∧ ∃ y, y ∈ alcance ∧ var1 ≠ y
  | Agotado => False
  end.
Proof.
  revert vec. induction alcance as [|var2 resto IH]; intros vec; simpl.
  - split; [done|]. split; [done|]. split.
    + intros s Hs. exists s. split; [done|]. split; [done|].
      intros y. split; [by left|]. intros [?|[?%elem_of_nil _]]; done.
    + intros _ y ?%elem_of_nil. done.
  - case_bool_decide as Hne.
    + unfold indexar. destruct (vec !! var1) as [s|] eqn:Hs; simpl.
      * specialize (IH (<[var1 := agregar var2 s]> vec)).
        destruct (vecinos_de_par var1 resto _) as [vec'| |]; [|..].
        -- destruct IH as (Hd & Hot & Hin & _).
           split; [|split; [|split]].
           ++ rewrite Hd, dom_insert_L.
              assert (var1 ∈ dom vec) by (apply elem_of_dom; eauto). set_solver.
           ++ intros x Hx. rewrite Hot by done. by rewrite lookup_insert_ne.
           ++ intros s0 [= <-].
              destruct (Hin (agregar var2 s)) as (s' & Hs' & Hnd & Hel);
                [by rewrite lookup_insert_eq|].
              exists s'. split; [done|]. split.
              ** intros ?. by apply Hnd, agregar_NoDup.
              ** intros y. rewrite Hel, agregar_elem_of, elem_of_cons.
                 naive_solver.
           ++ done.
        -- destruct IH as [IH _]. by rewrite lookup_insert_eq in IH.
        -- done.
      * split; [done|]. exists var2. split; [left|done].
    + assert (var2 = var1) as -> by (destruct (decide (var1 = var2)); [done|tauto]).
      specialize (IH vec).
      destruct (vecinos_de_par var1 resto vec) as [vec'| |]; [| |done].
      * destruct IH as (Hd & Hot & Hin & Hno).
        split; [done|]. split; [done|]. split.
        -- intros s Hs. destruct (Hin s Hs) as (s' & Hs' & Hnd & Hel).
           exists s'. split; [done|]. split; [done|].
           intros y. rewrite Hel, elem_of_cons. naive_solver.
        -- intros Hn y [->|Hy]%elem_of_cons; [done|]. by apply Hno.
      * destruct IH as (Hn & y & Hy & Hne'). split; [done|].
        exists y. split; [by right|done].
Qed.

Lemma vecinos_de_alcance_spec pendientes alcance (vec : gmap string (list string)) :
  match vecinos_de_alcance pendientes alcance vec with
  | Valor vec' =>
      dom vec' = dom vec
      ∧ (∀ x s, vec !! x = Some s →
           ∃ s', vec' !! x = Some s' ∧ (NoDup s → NoDup s')
             ∧ ∀ y, y ∈ s' ↔ y ∈ s ∨ (x ∈ pendientes ∧ y ∈ alcance ∧ x ≠ y))
      ∧ (∀ x y, x ∈ pendientes → y ∈ alcance → x ≠ y → is_Some (vec !! x))
  | Excepcion =>
      ∃ x y, x ∈ pendientes ∧ y ∈ alcance ∧ x ≠ y ∧ vec !! x = None
  | Agotado => False
  end.
Proof.
  revert vec. induction pendientes as [|var1 resto IH]; intros vec; simpl.
  - split; [done|]. split.
    + intros x s Hs. exists s. split; [done|]. split; [done|].
      intros y. split; [by left|]. intros [?|[?%elem_of_nil _]]; done.
    + intros x y ?%elem_of_nil. done.
  - pose proof (vecinos_de_par_spec var1 alcance vec) as Hpar.
    destruct (vecinos_de_par var1 alcance vec) as [vec1| |]; simpl; [| |done].
    + destruct Hpar as (Hd1 & Hot & Hin & Hno).
      specialize (IH vec1).
      destruct (vecinos_de_alcance resto alcance vec1) as [vec'| |]; [| |done].
      * destruct IH as (Hd & Hel & Hsome). split; [congruence|]. split.
        -- intros x s Hs. destruct (decide (x = var1)) as [->|Hx].
           ++ destruct (Hin s Hs) as (s1 & Hs1 & Hnd1 & Hel1).
              destruct (Hel var1 s1 Hs1) as (s' & Hs' & Hnd & Hel').
              exists s'. split; [done|]. split; [tauto|].
              intros y. rewrite Hel', Hel1, elem_of_cons. naive_solver.
           ++ destruct (Hel x s) as (s' & Hs' & Hnd & Hel');
                [by rewrite Hot|].
              exists s'. split; [done|]. split; [done|].
              intros y. rewrite Hel', elem_of_cons. naive_solver.
        -- intros x y [->|Hx]%elem_of_cons Hy Hne.
           ++ destruct (vec !! var1) eqn:E; [eauto|].
              specialize (Hno eq_refl y Hy). congruence.
           ++ destruct (Hsome x y Hx Hy Hne) as [s1 Hs1].
              apply elem_of_dom. rewrite <-Hd1. apply elem_of_dom. eauto.
      * destruct IH as (x & y & Hx & Hy & Hne & Hn).
        exists x, y. split; [by right|]. split; [done|]. split; [done|].
        apply not_elem_of_dom. rewrite <-Hd1. by apply not_elem_of_dom.
    + destruct Hpar as (Hn & y & Hy & Hne).
      exists var1, y. split; [left|]. done.
Qed.

Lemma vecinos_de_claves_spec claves (vec : gmap string (list string)) :
  match vecinos_de_claves claves vec with
  | Valor vec' =>
      dom vec' = dom vec
      ∧ (∀ x s, vec !! x = Some s →
           ∃ s', vec' !! x = Some s' ∧ (NoDup s → NoDup s')
             ∧ ∀ y, y ∈ s' ↔
                    y ∈ s ∨ (x ≠ y ∧ ∃ alcance, alcance ∈ claves
                                       ∧ x ∈ alcance ∧ y ∈ alcance))
      ∧ (∀ alcance x y, alcance ∈ claves → x ∈ alcance → y ∈ alcance →
                        x ≠ y → is_Some (vec !! x))
  | Excepcion =>
      ∃ alcance x y, alcance ∈ claves ∧ x ∈ alcance ∧ y ∈ alcance ∧ x ≠ y
                     ∧ vec !! x = None
  | Agotado => False
  end.
Proof.
  revert vec. induction claves as [|alcance resto IH]; intros vec; simpl.
  - split; [done|]. split.
    + intros x s Hs. exists s. split; [done|]. split; [done|].
      intros y. split; [by left|].
      intros [?|(_ & al & ?%elem_of_nil & _)]; done.
    + intros al x y ?%elem_of_nil. done.
  - pose proof (vecinos_de_alcance_spec alcance alcance vec) as Hal.
    destruct (vecinos_de_alcance alcance alcance vec) as [vec1| |]; simpl;
      [| |done].
    + destruct Hal as (Hd1 & Hel1 & Hsome1).
      specialize (IH vec1).
      destruct (vecinos_de_claves resto vec1) as [vec'| |]; [| |done].
      * destruct IH as (Hd & Hel & Hsome). split; [congruence|]. split.
        -- intros x s Hs.
           destruct (Hel1 x s Hs) as (s1 & Hs1 & Hnd1 & Hin1).
           destruct (Hel x s1 Hs1) as (s' & Hs' & Hnd & Hin).
           exists s'. split; [done|]. split; [tauto|].
           intros y. rewrite Hin, Hin1. split.
           ++ intros [[?|(? & ? & ?)]|(? & al & ? & ? & ?)].
              ** by left.
              ** right. split; [done|]. exists alcance. split; [left|done].
              ** right. split; [done|]. exists al. split; [by right|done].
           ++ intros [?|(Hne & al & [->|Hal]%elem_of_cons & Hx & Hy)].
              ** by left; left.
              ** left. right. done.
              ** right. split; [done|]. by exists al.
        -- intros al x y [->|Hal]%elem_of_cons Hx Hy Hne.
           ++ by eapply Hsome1.
           ++ destruct (Hsome al x y Hal Hx Hy Hne) as [s1 Hs1].
              apply elem_of_dom. rewrite <-Hd1. apply elem_of_dom. eauto.
      * destruct IH as (al & x & y & Hal & Hx & Hy & Hne & Hn).
        exists al, x, y. split; [by right|]. do 3 (split; [done|]).
        apply not_elem_of_dom. rewrite <-Hd1. by apply not_elem_of_dom.
    + destruct Hal as (x & y & Hx & Hy & Hne & Hn).
      exists alcance, x, y. split; [left|]. done.
Qed.

Lemma vecinos_iniciales_lookup (vars : list string) x :
  (list_to_map ((λ v, (v, [])) <$> vars) : gmap string (list string)) !! x
  = if bool_decide (x ∈ vars) then Some [] else None.
Proof.
  induction vars as [|v vars IH].
  - rewrite fmap_nil, list_to_map_nil, lookup_empty.
    rewrite bool_decide_eq_false_2; [done|]. apply not_elem_of_nil.
  - rewrite fmap_cons, list_to_map_cons.
    destruct (decide (x = v)) as [->|Hne].
    + rewrite lookup_insert_eq. simpl.
      rewrite bool_decide_eq_true_2; [done|]. left.
    + rewrite lookup_insert_ne by done. rewrite IH.
      repeat case_bool_decide; try done; set_solver.
Qed.

Lemma _calcular_vecinos_spec vars restr :
  match _calcular_vecinos vars restr with
  | Valor vec =>
      dom vec = list_to_set vars
      ∧ (∀ x s, vec !! x = Some s →
           NoDup s
           ∧ ∀ y, y ∈ s ↔ x ≠ y ∧ ∃ alcance, alcance ∈ restr.*1
                                    ∧ x ∈ alcance ∧ y ∈ alcance)
      ∧ (∀ alcance x y, alcance ∈ restr.*1 → x ∈ alcance → y ∈ alcance →
                        x ≠ y → x ∈ vars)
  | Excepcion =>
      ∃ alcance x y, alcance ∈ restr.*1 ∧ x ∈ alcance ∧ y ∈ alcance ∧ x ≠ y
                     ∧ x ∉ vars
  | Agotado => False
  end.
Proof.
  unfold _calcular_vecinos.
  pose proof (vecinos_de_claves_spec (restr.*1)
                (list_to_map ((λ v, (v, [])) <$> vars))) as H.
  destruct (vecinos_de_claves _ _) as [vec| |]; [| |done].
  - destruct H as (Hd & Hel & Hsome).
    assert (Hdom : dom vec = list_to_set vars).
    { rewrite Hd. apply set_eq. intros x.
      rewrite elem_of_dom, vecinos_iniciales_lookup, elem_of_list_to_set.
      case_bool_decide; [|split; [intros [? ?]|]; done]. split; eauto. }
    split; [done|]. split.
    + intros x s Hs.
      assert (Hx : x ∈ vars).
      { apply (elem_of_list_to_set (C:=gset string)). rewrite <-Hdom.
        apply elem_of_dom. eauto. }
      destruct (Hel x []) as (s' & Hs' & Hnd & Hin).
      { rewrite vecinos_iniciales_lookup. by rewrite bool_decide_eq_true_2. }
      assert (s' = s) as -> by congruence.
      split; [apply Hnd, NoDup_nil_2|].
      intros y. rewrite Hin, elem_of_nil. tauto.
    + intros al x y Hal Hx Hy Hne.
      destruct (Hsome al x y Hal Hx Hy Hne) as [s Hs].
      rewrite vecinos_iniciales_lookup in Hs. by case_bool_decide.
  - destruct H as (al & x & y & Hal & Hx & Hy & Hne & Hn).
    exists al, x, y. do 4 (split; [done|]).
    rewrite vecinos_iniciales_lookup in Hn. by case_bool_decide.
Qed.

Lemma nuevo_CSP_inv vars doms restr csp :
  nuevo_CSP vars doms restr = Valor csp →
  variables csp = vars ∧ dominios csp = doms ∧ restricciones csp = restr
  ∧ _calcular_vecinos vars restr = Valor (vecinos csp).
Proof.
  unfold nuevo_CSP. intros H. apply ligar_Valor in H as (vec & Hvec & [= <-]).
  done.
Qed.

(** What the neighbour sets of a CSP built by the constructor contain. *)
Lemma vecinos_construidos csp :
  nuevo_CSP (variables csp) (dominios csp) (restricciones csp) = Valor csp →
  dom (vecinos csp) = list_to_set (variables csp)
  ∧ (∀ x s, vecinos csp !! x = Some s →
       NoDup s
       ∧ ∀ y, y ∈ s ↔ x ≠ y ∧ ∃ r, r ∈ restricciones csp ∧ x ∈ r.1 ∧ y ∈ r.1)
  ∧ (∀ r x y, r ∈ restricciones csp → x ∈ r.1 → y ∈ r.1 → x ≠ y →
              x ∈ variables csp).
Proof.
  intros H. apply nuevo_CSP_inv in H as (_ & _ & _ & H).
  pose proof (_calcular_vecinos_spec (variables csp) (restricciones csp)) as Hs.
  rewrite H in Hs. destruct Hs as (Hd & Hel & Hdecl).
  split; [done|]. split.
  - intros x s Hx. destruct (Hel x s Hx) as [Hnd Hin]. split; [done|].
    intros y. rewrite Hin. split.
    + intros (Hne & al & (r & -> & Hr)%list_elem_of_fmap & Hx' & Hy).
      split; [done|]. by exists r.
    + intros (Hne & r & Hr & Hx' & Hy). split; [done|].
      exists r.1. split; [|done]. by apply list_elem_of_fmap_2.
  - intros r x y Hr Hx Hy Hne. eapply (Hdecl r.1); [|done..].
    by apply list_elem_of_fmap_2.
Qed.

(** X1: when [CSP.__init__] returns, the three arguments are stored as given and
    [vecinos] has exactly the declared variables as keys; the neighbour set of
    [x] has no duplicates and holds exactly the variables other than [x] that
    share the key of some constraint with [x]; the neighbour relation is
    symmetric. *)
Theorem nuevo_CSP_vecinos vars doms restr csp :
  nuevo_CSP vars doms restr = Valor csp →
  variables csp = vars ∧ dominios csp = doms ∧ restricciones csp = restr
  ∧ dom (vecinos csp) = list_to_set vars
  ∧ (∀ x s, vecinos csp !! x = Some s →
       NoDup s
       ∧ ∀ y, y ∈ s ↔ x ≠ y ∧ ∃ r, r ∈ restr ∧ x ∈ r.1 ∧ y ∈ r.1)
  ∧ (∀ x y s, vecinos csp !! x = Some s → y ∈ s →
              ∃ s', vecinos csp !! y = Some s' ∧ x ∈ s').
Proof.
  intros H. pose proof (nuevo_CSP_inv _ _ _ _ H) as (Hv & Hd & Hr & _).
  subst vars doms restr. destruct (vecinos_construidos csp H) as (Hdom & Hel & Hdecl).
  do 3 (split; [done|]). split; [done|]. split; [done|].
  intros x y s Hs Hy. apply (Hel x s Hs) in Hy as (Hne & r & Hr & Hx & Hy).
  assert (Hyv : y ∈ variables csp) by (by eapply (Hdecl r y x)).
  assert (Hyd : y ∈ dom (vecinos csp))
    by (rewrite Hdom; by apply elem_of_list_to_set).
  apply elem_of_dom in Hyd as [s' Hs']. exists s'. split; [done|].
  apply (Hel y s' Hs'). split; [done|]. by exists r.
Qed.

Lemma nuevo_CSP_excepcion_sii vars doms restr :
  nuevo_CSP vars doms restr ≠ Agotado
  ∧ (nuevo_CSP vars doms restr = Excepcion
     ↔ ∃ r x y, r ∈ restr ∧ x ∈ r.1 ∧ y ∈ r.1 ∧ x ≠ y ∧ x ∉ vars).
Proof.
  pose proof (_calcular_vecinos_spec vars restr) as Hs. unfold nuevo_CSP.
  destruct (_calcular_vecinos vars restr) as [vec| |]; simpl; [| |done].
  - split; [done|]. split; [done|].
    intros (r & x & y & Hr & Hx & Hy & Hne & Hn). exfalso. apply Hn.
    destruct Hs as (_ & _ & Hdecl). eapply (Hdecl r.1); [|done..].
    by apply list_elem_of_fmap_2.
  - split; [done|]. split; [|done]. intros _.
    destruct Hs as (al & x & y & (r & -> & Hr)%list_elem_of_fmap & Hx & Hy & Hne & Hn).
    by exists r, x, y.
Qed.

(** X2: [CSP.__init__] terminates, and it raises ([KeyError] in
    [_calcular_vecinos]) exactly when the key of some constraint holds two
    different variables of which the first is not declared. *)
Theorem nuevo_CSP_error vars doms restr :
  nuevo_CSP vars doms restr ≠ Agotado
  ∧ (nuevo_CSP vars doms restr = Excepcion
     ↔ ∃ r x y, r ∈ restr ∧ x ∈ r.1 ∧ y ∈ r.1 ∧ x ≠ y ∧ x ∉ vars).
Proof.
  destruct (nuevo_CSP_excepcion_sii vars doms restr) as [Hna Hexc].
  split; [exact Hna|exact Hexc].
Qed.

(** ** The consistency check *)

Lemma valores_de_submapa (a a' : gmap string Z) alcance vs :
  a ⊆ a' → valores_de a alcance = Some vs → valores_de a' alcance = Some vs.
Proof.
  intros Hsub H. rewrite <-H. apply valores_de_coinciden.
  intros x Hx.
  assert (is_Some (a !! x)) as [v Hv].
  { apply (valores_de_is_Some a alcance); [by rewrite H|done]. }
  rewrite Hv. by eapply lookup_weaken.
Qed.

Lemma violada_submapa (a a' : gmap string Z) r :
  a ⊆ a' → violada a' r = false → violada a r = false.
Proof.
  intros Hsub. unfold violada.
  destruct (valores_de a r.1) as [vs|] eqn:E; [|done].
  by rewrite (valores_de_submapa a a' r.1 vs).
Qed.

Lemma es_consistente_submapa csp var valor (a a' : gmap string Z) :
  a ⊆ a' → es_consistente csp var valor a' = true →
  es_consistente csp var valor a = true.
Proof.
  intros Hsub. rewrite !es_consistente_true. intros H r Hr Hvar.
  eapply violada_submapa; [|by apply H]. by apply insert_mono.
Qed.

Lemma es_consistente_ext csp var valor (a a' : gmap string Z) :
  (∀ r, r ∈ restricciones csp → var ∈ r.1 →
        valores_de (<[var := valor]> a') r.1 = valores_de (<[var := valor]> a) r.1) →
  es_consistente csp var valor a' = es_consistente csp var valor a.
Proof.
  intros H. apply eq_true_iff_eq. rewrite !es_consistente_true.
  unfold violada. split; intros Hc r Hr Hv; specialize (Hc r Hr Hv);
    [rewrite <-H by done|rewrite H by done]; done.
Qed.

(** X3: on a CSP built by the constructor, the answer of [es_consistente] for
    [var] depends on the assignment only through the values of the neighbours
    of [var]: two assignments that agree on [vecinos[var]] get the same
    answer. *)
Theorem es_consistente_local csp var valor (a a' : gmap string Z) :
  nuevo_CSP (variables csp) (dominios csp) (restricciones csp) = Valor csp →
  (∀ s y, vecinos csp !! var = Some s → y ∈ s → a' !! y = a !! y) →
  es_consistente csp var valor a' = es_consistente csp var valor a.
Proof.
  intros Hc Hag. destruct (vecinos_construidos csp Hc) as (Hdom & Hel & Hdecl).
  apply es_consistente_ext. intros r Hr Hvar.
  apply valores_de_coinciden. intros x Hx.
  destruct (decide (x = var)) as [->|Hne]; [by rewrite !lookup_insert_eq|].
  rewrite !lookup_insert_ne by done.
  assert (Hv : var ∈ dom (vecinos csp)).
  { rewrite Hdom. apply elem_of_list_to_set. by eapply (Hdecl r var x). }
  apply elem_of_dom in Hv as [s Hs]. apply (Hag s x Hs).
  apply (Hel var s Hs). split; [done|]. by exists r.
Qed.

Lemma sublist_filter_impl {A} (P Q : A → Prop) `{∀ x, Decision (P x)}
    `{∀ x, Decision (Q x)} (l : list A) :
  (∀ x, P x → Q x) → filter P l `sublist_of` filter Q l.
Proof.
  intros HPQ. induction l as [|x l IH]; [done|].
  rewrite !filter_cons. destruct (decide (P x)) as [HP|HP].
  - rewrite decide_True by auto. by constructor.
  - destruct (decide (Q x)); [by constructor|done].
Qed.

(** X4: extending the assignment can only remove legal values.  If [a] is
    contained in [a'], every value consistent with [a'] is consistent with
    [a]; [obtener_valores_legales] raises exactly when [var] has no domain;
    otherwise the legal values under [a'] are a sublist of those under [a],
    which are a sublist of the domain. *)
Theorem valores_legales_decrecen csp var (a a' : gmap string Z) :
  a ⊆ a' →
  (∀ valor, es_consistente csp var valor a' = true →
            es_consistente csp var valor a = true)
  ∧ (obtener_valores_legales csp var a' = Excepcion
     ↔ dominios csp !! var = None)
  ∧ ∀ l', obtener_valores_legales csp var a' = Valor l' →
      ∃ d l, dominios csp !! var = Some d
             ∧ obtener_valores_legales csp var a = Valor l
             ∧ l' `sublist_of` l ∧ l `sublist_of` d.
Proof.
  intros Hsub. split; [intros valor; by apply es_consistente_submapa|].
  unfold obtener_valores_legales, indexar.
  destruct (dominios csp !! var) as [d|]; simpl.
  - split; [done|]. intros l' [= <-]. eexists d, _. split; [done|].
    split; [done|]. split.
    + apply sublist_filter_impl. intros valor Hv.
      apply Is_true_true. apply Is_true_true in Hv.
      by eapply es_consistente_submapa.
    + apply sublist_filter.
  - split; [done|]. done.
Qed.

(** ** Completeness of the systematic solvers *)

Section completitud.
Context (csp : CSP).

Lemma solucion_es_consistente (s a : gmap string Z) var v :
  solucion csp s → a ⊆ s → s !! var = Some v →
  es_consistente csp var v a = true.
Proof.
  intros (_ & _ & Hsat) Hsub Hv.
  apply (es_consistente_submapa csp var v a s Hsub).
  apply es_consistente_true. intros r Hr _.
  rewrite insert_id by done. unfold violada.
  destruct (Hsat r Hr) as (vs & -> & ->). done.
Qed.

Lemma solucion_valor (s a : gmap string Z) var :
  solucion csp s → var ∈ variables csp →
  ∃ v d, s !! var = Some v ∧ dominios csp !! var = Some d ∧ v ∈ d.
Proof.
  intros (Hc & Hd & _) Hvar.
  assert (Hin : var ∈ dom s).
  { rewrite Hc. by apply elem_of_list_to_set. }
  apply elem_of_dom in Hin as [v Hv].
  destruct (Hd var v Hv) as (d & Hdv & Hvd). by exists v, d.
Qed.

Lemma probar_completo rec var (a : gmap string Z) valores :
  Backtracking.probar rec csp var a valores = Valor None →
  ∀ valor, valor ∈ valores → es_consistente csp var valor a = true →
           rec (<[var := valor]> a) = Valor None.
Proof.
  induction valores as [|v resto IH]; simpl; [by intros _ ? ?%elem_of_nil|].
  intros H valor Hin Hcons.
  destruct (es_consistente csp var v a) eqn:Hv.
  - apply ligar_Valor in H as (r & Hr & H). destruct r as [sol|]; [done|].
    apply elem_of_cons in Hin as [->|Hin]; [done|]. by apply IH.
  - apply elem_of_cons in Hin as [->|Hin]; [congruence|]. by apply IH.
Qed.

Lemma bt_backtrack_completo fuel (a : gmap string Z) :
  Backtracking._backtrack fuel csp a = Valor None →
  ∀ s, solucion csp s → ¬ a ⊆ s.
Proof.
  revert a. induction fuel as [|fuel IH]; intros a; simpl; [done|].
  case_bool_decide as Hsz; [done|].
  destruct (Backtracking._seleccionar_variable_no_asignada csp a) as [var|] eqn:Hsel;
    [|done].
  apply seleccionar_Some in Hsel as [Hvar Hnone].
  intros H s Hs Hsub.
  apply ligar_Valor in H as (valores & Hval & H).
  destruct (solucion_valor s a var Hs Hvar) as (v & d & Hv & Hd & Hvd).
  unfold indexar in Hval. rewrite Hd in Hval. injection Hval as <-.
  eapply (IH (<[var := v]> a)); [|done|].
  - eapply probar_completo; [done..|]. by eapply solucion_es_consistente.
  - by apply insert_subseteq_l.
Qed.

End completitud.

Lemma resolver_bt_decide csp :
  bien_formado csp → decide_instancia csp (Backtracking.resolver csp).
Proof.
  intros Hbf. destruct (Backtracking.resolver csp) as [r| |] eqn:Hr.
  - destruct r as [sol| |c].
    + left. exists sol. split; [done|]. by apply resolver_correcto.
    + right. split; [done|]. intros s Hs.
      unfold Backtracking.resolver in Hr.
      apply ligar_Valor in Hr as (o & Ho & Hr). destruct o as [sol|]; [done|].
      eapply bt_backtrack_completo; [done..|]. apply map_empty_subseteq.
    + unfold Backtracking.resolver in Hr.
      apply ligar_Valor in Hr as (o & Ho & Hr). by destruct o.
  - exfalso. unfold Backtracking.resolver in Hr.
    destruct (Backtracking._backtrack _ csp ∅) eqn:Hb; [done| |done].
    eapply _backtrack_no_excepcion; [done| |done]. set_solver.
  - by apply resolver_no_agotado in Hr.
Qed.

(** X5: on a well-formed CSP, [SolucionadorBacktracking.resolver] raises nothing
    and decides the instance: it returns a solution, or it returns [None] and
    the instance has no solution. *)
Theorem backtracking_decide csp :
  bien_formado csp →
  (∃ sol, Backtracking.resolver csp = Valor (Asignacion sol) ∧ solucion csp sol)
  ∨ (Backtracking.resolver csp = Valor Ninguno ∧ ∀ a, ¬ solucion csp a).
Proof. intros Hbf. apply resolver_bt_decide in Hbf. exact Hbf. Qed.

(** X6: [SolucionadorBackjumping.resolver] returns, on every CSP, what
    [SolucionadorBacktracking.resolver] returns (the same assignment, [None]
    or exception); hence on a well-formed CSP it decides the instance. *)
Theorem backjumping_decide csp :
  Backjumping.resolver csp = Backtracking.resolver csp
  ∧ (bien_formado csp → decide_instancia csp (Backjumping.resolver csp)).
Proof.
  split; [apply resolver_igual|].
  intros Hbf. rewrite resolver_igual. by apply resolver_bt_decide.
Qed.

(** ** The conflict set of a rejected value *)

(** X7: the set returned by [obtener_variables_conflicto] holds assigned
    variables other than [var]; it is empty when [var = valor] is consistent;
    and when it is not, the value stays inconsistent under every assignment
    that agrees with the current one on the set. *)
Theorem conflicto_explica csp var valor (a : gmap string Z) :
  Backjumping.obtener_variables_conflicto csp var valor a ⊆ dom a ∖ {[ var ]}
  ∧ (es_consistente csp var valor a = true →
     Backjumping.obtener_variables_conflicto csp var valor a = ∅)
  ∧ (es_consistente csp var valor a = false →
     ∀ a' : gmap string Z,
       coinciden (Backjumping.obtener_variables_conflicto csp var valor a) a a' →
       es_consistente csp var valor a' = false).
Proof.
  split; [|split].
  - intros x Hx. apply elem_of_difference. split.
    + by apply (obtener_variables_conflicto_dom csp var valor a).
    + apply elem_of_obtener_variables_conflicto in Hx
        as (r & _ & _ & _ & _ & Hne & _). set_solver.
  - intros Hc. apply set_eq. intros x. split; [|set_solver].
    intros Hx. apply elem_of_obtener_variables_conflicto in Hx
      as (r & Hr & Hv & Hviol & _).
    rewrite es_consistente_true in Hc. specialize (Hc r Hr Hv). congruence.
  - intros Hc a' Hco. by eapply es_consistente_coinciden.
Qed.

(** ** Counters of plain backtracking *)

Section contadores.
Import Backtracking.
Context (csp : CSP).

Lemma probar_contado_spec rec_c rec var (a : gmap string Z) valores c :
  a !! var = None →
  (∀ valor c0, cuenta_correcta csp (<[var := valor]> a) c0
                 (rec (<[var := valor]> a))
                 (rec_c (<[var := valor]> a) c0)) →
  cuenta_correcta csp a c (probar rec csp var a valores)
    (probar_contado rec_c csp var a valores c).
Proof.
  intros Hnone Hrec. revert c.
  induction valores as [|valor resto IH]; intros c; simpl.
  - split; [done|]. split; [done|]. split; [lia|]. by intros [? ?].
  - destruct (es_consistente csp var valor a).
    + specialize (Hrec valor (S c.1, c.2)).
      destruct (rec_c (<[var := valor]> a) (S c.1, c.2)) as [[o c']| |];
        simpl in *; [|by rewrite Hrec..].
      destruct Hrec as (-> & Hp & Hb & Hs). simpl.
      destruct o as [sol|]; simpl.
      * split; [done|]. split; [lia|]. split; [lia|]. intros _.
        specialize (Hs ltac:(eauto)).
        rewrite map_size_insert_None in Hs by done. lia.
      * specialize (IH (c'.1, S c'.2)).
        destruct (probar_contado rec_c csp var a resto (c'.1, S c'.2))
          as [[o c'']| |]; simpl in *; [|done..].
        destruct IH as (-> & Hp' & Hb' & Hs'). split; [done|].
        split; [lia|]. split; [lia|]. intros Ho. specialize (Hs' Ho). lia.
    + specialize (IH (S c.1, c.2)).
      destruct (probar_contado rec_c csp var a resto (S c.1, c.2))
        as [[o c'']| |]; simpl in *; [|done..].
      destruct IH as (-> & Hp' & Hb' & Hs'). split; [done|].
      split; [lia|]. split; [lia|]. intros Ho. specialize (Hs' Ho). lia.
Qed.

Lemma _backtrack_contado_spec fuel (a : gmap string Z) c :
  cuenta_correcta csp a c (_backtrack fuel csp a)
    (_backtrack_contado fuel csp a c).
Proof.
  revert a c. induction fuel as [|fuel IH]; intros a c; [done|].
  simpl. case_bool_decide as Hsz.
  - split; [done|]. split; [done|]. split; [lia|]. intros _. lia.
  - destruct (_seleccionar_variable_no_asignada csp a) as [var|] eqn:Hsel;
      [|done].
    apply seleccionar_Some in Hsel as [_ Hnone].
    destruct (indexar (dominios csp) var) as [valores| |]; simpl; [|done..].
    apply probar_contado_spec; [done|]. intros valor c0. apply IH.
Qed.

End contadores.

(** X8: the counters of [SolucionadorBacktracking] after [resolver]:
    [retrocesos] is at most [asignaciones_probadas], and when an assignment
    is returned, [asignaciones_probadas] is at least [retrocesos] plus the
    number of variables.  Counting changes nothing in what is returned. *)
Theorem contadores_backtracking csp :
  match Backtracking.resolver_contado csp with
  | Valor (r, c) =>
      Backtracking.resolver csp = Valor r
      ∧ c.2 ≤ c.1
      ∧ ∀ sol, r = Asignacion sol → c.2 + length (variables csp) ≤ c.1
  | Excepcion => Backtracking.resolver csp = Excepcion
  | Agotado => False
  end.
Proof.
  unfold Backtracking.resolver_contado, Backtracking.resolver.
  pose proof (_backtrack_contado_spec csp (S (length (variables csp))) ∅ (0, 0))
    as Hs.
  pose proof (resolver_no_agotado csp) as Hna.
  unfold Backtracking.resolver in Hna.
  destruct (Backtracking._backtrack_contado _ csp ∅ (0, 0)) as [[o c]| |];
    unfold cuenta_correcta in Hs.
  - destruct Hs as (Hr & _ & Hle & Hsol). rewrite Hr, !ligar_valor.
    cbn [fst snd] in *. split; [done|]. split; [lia|].
    intros sol Ho. destruct o as [s|]; [|done].
    rewrite map_size_empty in Hsol. specialize (Hsol (mk_is_Some _ _ eq_refl)).
    lia.
  - by rewrite Hs.
  - rewrite Hs in Hna. by apply Hna.
Qed.

(** ** [sorted] and [min] *)

Lemma insertar_por_clave_perm kx l : insertar_por_clave kx l ≡ₚ kx :: l.
Proof.
  induction l as [|ky l IH]; simpl; [done|].
  case_bool_decide; [|done]. rewrite IH. apply Permutation_swap.
Qed.

Lemma foldl_insertar_perm kl acc :
  foldl (λ acc kx, insertar_por_clave kx acc) acc kl ≡ₚ acc ++ kl.
Proof.
  revert acc. induction kl as [|kx kl IH]; intros acc; simpl.
  - by rewrite app_nil_r.
  - rewrite IH, insertar_por_clave_perm. simpl. apply Permutation_middle.
Qed.

Lemma con_claves_snd clave l kl : con_claves clave l = Valor kl → kl.*2 = l.
Proof.
  revert kl. induction l as [|x l IH]; intros kl; simpl.
  - by intros [= <-].
  - intros H. apply ligar_Valor in H as (k & _ & H).
    apply ligar_Valor in H as (kl' & Hkl' & [= <-]).
    simpl. f_equal. by apply IH.
Qed.

Lemma con_claves_fst clave l kl :
  con_claves clave l = Valor kl → ∀ k x, (k, x) ∈ kl → clave x = Valor k.
Proof.
  revert kl. induction l as [|x l IH]; intros kl; simpl.
  - intros [= <-] k y ?%elem_of_nil. done.
  - intros H. apply ligar_Valor in H as (k & Hk & H).
    apply ligar_Valor in H as (kl' & Hkl' & [= <-]).
    intros k' y [[= -> ->]|Hin]%elem_of_cons; [done|]. by eapply IH.
Qed.

Lemma ordenar_por_clave_perm clave l l' :
  ordenar_por_clave clave l = Valor l' → l' ≡ₚ l.
Proof.
  unfold ordenar_por_clave. intros H.
  apply ligar_Valor in H as (kl & Hkl & [= <-]).
  rewrite foldl_insertar_perm. simpl. by rewrite (con_claves_snd _ _ _ Hkl).
Qed.

Lemma con_claves_no_excepcion clave l :
  (∀ x, x ∈ l → clave x ≠ Excepcion) → con_claves clave l ≠ Excepcion.
Proof.
  induction l as [|x l IH]; intros H; simpl; [done|].
  apply ligar_no_excepcion; [apply H; left|]. intros k _.
  apply ligar_no_excepcion; [|done]. apply IH. intros y Hy. apply H. by right.
Qed.

Lemma minimo_desde_no_excepcion clave mejor k vars :
  (∀ v, v ∈ vars → clave v ≠ Excepcion) →
  minimo_desde clave mejor k vars ≠ Excepcion.
Proof.
  revert mejor k. induction vars as [|x l IH]; intros mejor k H; [done|].
  simpl. apply ligar_no_excepcion; [apply H; left|]. intros kx _.
  case_bool_decide; apply IH; intros y Hy; apply H; by right.
Qed.

Lemma minimo_no_excepcion clave vars :
  vars ≠ [] → (∀ v, v ∈ vars → clave v ≠ Excepcion) →
  minimo clave vars ≠ Excepcion.
Proof.
  destruct vars as [|x l]; [done|]. intros _ H. simpl.
  apply ligar_no_excepcion; [apply H; left|]. intros k _.
  apply minimo_desde_no_excepcion. intros y Hy. apply H. by right.
Qed.

Lemma size_list_to_set_NoDup (l : list string) :
  size (list_to_set l : gset string) = length l → NoDup l.
Proof.
  induction l as [|x l IH]; [constructor|].
  rewrite list_to_set_cons. simpl. intros H.
  pose proof (size_list_to_set_le l) as Hle.
  destruct (decide (x ∈ l)) as [Hin|Hnin].
  - exfalso.
    assert (({[x]} ∪ list_to_set l : gset string) = list_to_set l) as Heq
      by set_solver.
    rewrite Heq in H. lia.
  - rewrite size_union in H by set_solver. rewrite size_singleton in H.
    constructor; [done|]. apply IH. lia.
Qed.

(** While fewer keys than variables are assigned, and the keys are declared
    variables, some variable is unassigned. *)
Lemma hay_no_asignada csp (a : gmap string Z) :
  NoDup (variables csp) → dom a ⊆ list_to_set (variables csp) →
  size a ≠ length (variables csp) →
  filter (λ v, a !! v = None) (variables csp) ≠ [].
Proof.
  intros Hnd Hdom Hsz Hnil. apply Hsz.
  assert (dom a = list_to_set (variables csp)) as Heq.
  { apply set_eq. intros x. split; [set_solver|].
    rewrite elem_of_list_to_set. intros Hx. apply elem_of_dom.
    destruct (a !! x) eqn:E; [eauto|]. exfalso.
    assert (x ∈ filter (λ v, a !! v = None) (variables csp)) as Hin
      by (by apply list_elem_of_filter).
    rewrite Hnil in Hin. by apply elem_of_nil in Hin. }
  rewrite <-size_dom, Heq. by apply size_list_to_set.
Qed.

(** ** Backtracking with MRV and LCV decides well-formed instances *)

Section mejorado.
Import BacktrackingMejorado.
Context (csp : CSP).

Lemma vecino_declarado var s y :
  nuevo_CSP (variables csp) (dominios csp) (restricciones csp) = Valor csp →
  vecinos csp !! var = Some s → y ∈ s → y ∈ variables csp.
Proof.
  intros Hc Hs Hy. destruct (vecinos_construidos csp Hc) as (_ & Hel & Hdecl).
  apply (Hel var s Hs) in Hy as (Hne & r & Hr & Hvar & Hy).
  by eapply (Hdecl r y var).
Qed.

Lemma vecinos_de_variable var :
  nuevo_CSP (variables csp) (dominios csp) (restricciones csp) = Valor csp →
  var ∈ variables csp → is_Some (vecinos csp !! var).
Proof.
  intros Hc Hvar. destruct (vecinos_construidos csp Hc) as (Hdom & _).
  apply elem_of_dom. rewrite Hdom. by apply elem_of_list_to_set.
Qed.

Lemma legales_no_excepcion var (a : gmap string Z) :
  is_Some (dominios csp !! var) →
  obtener_valores_legales csp var a ≠ Excepcion.
Proof.
  intros Hd. unfold obtener_valores_legales.
  apply ligar_no_excepcion; [by apply indexar_no_excepcion|done].
Qed.

Lemma sumar_no_excepcion (a a' : gmap string Z) vs c :
  (∀ v, v ∈ vs → is_Some (dominios csp !! v)) →
  sumar_conflictos csp a a' vs c ≠ Excepcion.
Proof.
  revert c. induction vs as [|v vs IH]; intros c H; simpl; [done|].
  assert (∀ c, sumar_conflictos csp a a' vs c ≠ Excepcion) as IH'.
  { intros c'. apply IH. intros y Hy. apply H. by right. }
  case_bool_decide; [|apply IH'].
  apply ligar_no_excepcion; [apply legales_no_excepcion, H; left|].
  intros antes _.
  apply ligar_no_excepcion; [apply legales_no_excepcion, H; left|].
  intros despues _. apply IH'.
Qed.

Lemma lcv_no_excepcion var (a : gmap string Z) :
  bien_formado csp →
  nuevo_CSP (variables csp) (dominios csp) (restricciones csp) = Valor csp →
  var ∈ variables csp → _ordenar_valores_lcv csp var a ≠ Excepcion.
Proof.
  intros (_ & Hdoms & _) Hc Hvar. unfold _ordenar_valores_lcv.
  apply ligar_no_excepcion; [by apply legales_no_excepcion, Hdoms|].
  intros l _. unfold ordenar_por_clave.
  apply ligar_no_excepcion; [|done].
  apply con_claves_no_excepcion. intros valor _. unfold contar_conflictos.
  destruct (vecinos_de_variable var Hc Hvar) as [s Hs].
  apply ligar_no_excepcion; [apply indexar_no_excepcion; eauto|].
  intros s' Hs'. unfold indexar in Hs'. rewrite Hs in Hs'. injection Hs' as <-.
  apply sumar_no_excepcion. intros v Hv. apply Hdoms.
  by eapply vecino_declarado.
Qed.

Lemma lcv_elem_of var (a : gmap string Z) l d :
  dominios csp !! var = Some d →
  _ordenar_valores_lcv csp var a = Valor l →
  ∀ v, v ∈ l ↔ v ∈ d ∧ es_consistente csp var v a = true.
Proof.
  intros Hd H v. unfold _ordenar_valores_lcv in H.
  apply ligar_Valor in H as (legales & Hl & H).
  apply ordenar_por_clave_perm in H. rewrite H.
  unfold obtener_valores_legales, indexar in Hl. rewrite Hd in Hl.
  injection Hl as <-. rewrite list_elem_of_filter.
  rewrite Is_true_true. tauto.
Qed.

Lemma mrv_elem_of (a : gmap string Z) var :
  _seleccionar_variable_mrv csp a = Valor var →
  var ∈ variables csp ∧ a !! var = None.
Proof.
  intros H. apply minimo_elem_of in H. by apply no_asignada_elem_of in H.
Qed.

Lemma mrv_no_excepcion (a : gmap string Z) :
  bien_formado csp → dom a ⊆ list_to_set (variables csp) →
  size a ≠ length (variables csp) →
  _seleccionar_variable_mrv csp a ≠ Excepcion.
Proof.
  intros (Hnd & Hdoms & _) Hdom Hsz. unfold _seleccionar_variable_mrv.
  apply minimo_no_excepcion; [by apply hay_no_asignada|].
  intros v Hv. apply no_asignada_elem_of in Hv as [Hv _].
  unfold contar_valores_legales.
  apply ligar_no_excepcion; [by apply legales_no_excepcion, Hdoms|done].
Qed.

Lemma mejorado_no_excepcion fuel (a : gmap string Z) :
  bien_formado csp →
  nuevo_CSP (variables csp) (dominios csp) (restricciones csp) = Valor csp →
  dom a ⊆ list_to_set (variables csp) →
  _backtrack fuel csp a ≠ Excepcion.
Proof.
  intros Hbf Hc. revert a. induction fuel as [|fuel IH]; intros a Hdom; [done|].
  simpl. case_bool_decide as Hsz; [done|].
  apply ligar_no_excepcion; [by apply mrv_no_excepcion|].
  intros var [Hvar Hnone]%mrv_elem_of.
  apply ligar_no_excepcion; [by apply lcv_no_excepcion|].
  intros valores _. apply probar_no_excepcion. intros valor. apply IH.
  rewrite dom_insert_L.
  assert (var ∈ (list_to_set (variables csp) : gset string))
    by (by apply elem_of_list_to_set).
  set_solver.
Qed.

Lemma mejorado_correcto fuel (a : gmap string Z) sol :
  bien_formado csp → estado_valido csp a →
  _backtrack fuel csp a = Valor (Some sol) →
  estado_valido csp sol ∧ size sol = length (variables csp).
Proof.
  intros (_ & Hdoms & _). revert a sol.
  induction fuel as [|fuel IH]; intros a sol Ha; simpl; [done|].
  case_bool_decide as Hsz; [by intros [= <-]|].
  intros H. apply ligar_Valor in H as (var & Hsel & H).
  apply mrv_elem_of in Hsel as [Hvar Hnone].
  apply ligar_Valor in H as (valores & Hval & H).
  destruct (Hdoms var Hvar) as [d Hd].
  eapply (probar_correcto csp _ var a d valores); [| |exact H].
  - intros valor s Hin Hcons Hrec. eapply IH; [|exact Hrec].
    by eapply estado_valido_insert.
  - intros v Hv. by apply (lcv_elem_of var a valores d Hd Hval).
Qed.

Lemma mejorado_completo fuel (a : gmap string Z) :
  _backtrack fuel csp a = Valor None →
  ∀ s, solucion csp s → ¬ a ⊆ s.
Proof.
  revert a. induction fuel as [|fuel IH]; intros a; simpl; [done|].
  case_bool_decide as Hsz; [done|].
  intros H s Hs Hsub.
  apply ligar_Valor in H as (var & Hsel & H).
  apply mrv_elem_of in Hsel as [Hvar Hnone].
  apply ligar_Valor in H as (valores & Hval & H).
  destruct (solucion_valor csp s a var Hs Hvar) as (v & d & Hv & Hd & Hvd).
  assert (Hcons : es_consistente csp var v a = true)
    by (by eapply solucion_es_consistente).
  eapply (IH (<[var := v]> a)); [|done|].
  - eapply probar_completo; [done| |done].
    by apply (lcv_elem_of var a valores d Hd Hval).
  - by apply insert_subseteq_l.
Qed.

End mejorado.

(** X9: on a well-formed CSP built by the constructor,
    [SolucionadorBacktrackingMejorado.resolver] (MRV and LCV) raises nothing
    and decides the instance. *)
Theorem mejorado_decide csp :
  bien_formado csp →
  nuevo_CSP (variables csp) (dominios csp) (restricciones csp) = Valor csp →
  decide_instancia csp (BacktrackingMejorado.resolver csp).
Proof.
  intros Hbf Hc.
  destruct (BacktrackingMejorado.resolver csp) as [r| |] eqn:Hr.
  - unfold BacktrackingMejorado.resolver in Hr.
    apply ligar_Valor in Hr as (o & Hb & Hr).
    destruct o as [sol|]; injection Hr as <-.
    + left. exists sol. split; [done|].
      destruct (mejorado_correcto csp _ ∅ sol Hbf (estado_valido_vacio csp) Hb)
        as [Hv Hsz].
      by apply estado_completo_solucion.
    + right. split; [done|]. intros s Hs.
      eapply mejorado_completo; [done..|]. apply map_empty_subseteq.
  - exfalso. unfold BacktrackingMejorado.resolver in Hr.
    destruct (BacktrackingMejorado._backtrack _ csp ∅) eqn:Hb; [done| |done].
    eapply mejorado_no_excepcion; [done..| |done].
    rewrite dom_empty_L. set_solver.
  - by apply resolver_mejorado_no_agotado in Hr.
Qed.

(** ** The heuristics MRV and LCV *)

Lemma minimo_desde_spec clave mejor k vars v :
  clave mejor = Valor k →
  minimo_desde clave mejor k vars = Valor v →
  ∃ kv, clave v = Valor kv ∧ kv ≤ k
        ∧ ∀ w, w ∈ vars → ∃ kw, clave w = Valor kw ∧ kv ≤ kw.
Proof.
  revert mejor k. induction vars as [|x vars IH]; intros mejor k Hk; simpl.
  - intros [= <-]. exists k. split; [done|]. split; [done|].
    by intros w ?%elem_of_nil.
  - intros H. apply ligar_Valor in H as (kx & Hkx & H).
    case_bool_decide as Hlt.
    + destruct (IH x kx Hkx H) as (kv & Hkv & Hle & Hall).
      exists kv. split; [done|]. split; [lia|].
      intros w [->|Hw]%elem_of_cons; [|by apply Hall].
      exists kx. split; [done|lia].
    + destruct (IH mejor k Hk H) as (kv & Hkv & Hle & Hall).
      exists kv. split; [done|]. split; [done|].
      intros w [->|Hw]%elem_of_cons; [|by apply Hall].
      exists kx. split; [done|lia].
Qed.

Lemma minimo_spec clave vars v :
  minimo clave vars = Valor v →
  v ∈ vars
  ∧ ∃ kv, clave v = Valor kv
          ∧ ∀ w, w ∈ vars → ∃ kw, clave w = Valor kw ∧ kv ≤ kw.
Proof.
  intros H. split; [by eapply minimo_elem_of|].
  destruct vars as [|x vars]; [done|]. simpl in H.
  apply ligar_Valor in H as (k & Hk & H).
  destruct (minimo_desde_spec clave x k vars v Hk H) as (kv & Hkv & Hle & Hall).
  exists kv. split; [done|].
  intros w [->|Hw]%elem_of_cons; [|by apply Hall]. exists k. done.
Qed.

Lemma mrv_minimo csp (a : gmap string Z) var :
  BacktrackingMejorado._seleccionar_variable_mrv csp a = Valor var →
  var ∈ variables csp ∧ a !! var = None
  ∧ ∃ n, BacktrackingMejorado.contar_valores_legales csp a var = Valor n
         ∧ ∀ w, w ∈ variables csp → a !! w = None →
             ∃ m, BacktrackingMejorado.contar_valores_legales csp a w = Valor m
                  ∧ n ≤ m.
Proof.
  unfold BacktrackingMejorado._seleccionar_variable_mrv. intros H.
  apply minimo_spec in H as (Hin & n & Hn & Hall).
  apply list_elem_of_filter in Hin as [Hnone Hvar].
  split; [done|]. split; [done|]. exists n. split; [done|].
  intros w Hw Hwn. apply Hall. by apply list_elem_of_filter.
Qed.

Lemma mrv_sin_variables csp (a : gmap string Z) :
  (∀ v, v ∈ variables csp → is_Some (a !! v)) →
  BacktrackingMejorado._seleccionar_variable_mrv csp a = Excepcion.
Proof.
  intros Hall. unfold BacktrackingMejorado._seleccionar_variable_mrv.
  assert (filter (λ v, a !! v = None) (variables csp) = []) as ->; [|done].
  apply elem_of_nil_inv. intros v [Hn Hv]%list_elem_of_filter.
  destruct (Hall v Hv) as [x Hx]. congruence.
Qed.

Lemma insertar_por_clave_ordenada kx l :
  StronglySorted por_clave l → StronglySorted por_clave (insertar_por_clave kx l).
Proof.
  induction l as [|ky l IH]; intros Hs; simpl.
  - repeat constructor.
  - apply StronglySorted_cons in Hs as [Hall Hs].
    case_bool_decide as Hle.
    + apply StronglySorted_cons. split; [|by apply IH].
      apply Forall_forall. intros z Hz.
      rewrite insertar_por_clave_perm in Hz.
      apply elem_of_cons in Hz as [->|Hz]; [done|].
      by eapply Forall_forall in Hall.
    + apply StronglySorted_cons. split.
      * constructor; [unfold por_clave; lia|].
        eapply Forall_impl; [exact Hall|]. unfold por_clave. intros z. lia.
      * by apply StronglySorted_cons.
Qed.

Lemma foldl_insertar_ordenada kl acc :
  StronglySorted por_clave acc →
  StronglySorted por_clave (foldl (λ acc kx, insertar_por_clave kx acc) acc kl).
Proof.
  revert acc. induction kl as [|kx kl IH]; intros acc Hs; simpl; [done|].
  by apply IH, insertar_por_clave_ordenada.
Qed.

Lemma ordenar_por_clave_ordenada clave l l' :
  ordenar_por_clave clave l = Valor l' →
  l' ≡ₚ l
  ∧ ∀ l1 v l2 w l3, l' = l1 ++ v :: l2 ++ w :: l3 →
      ∃ kv kw, clave v = Valor kv ∧ clave w = Valor kw ∧ (kv ≤ kw)%Z.
Proof.
  intros H. split; [by eapply ordenar_por_clave_perm|].
  unfold ordenar_por_clave in H.
  apply ligar_Valor in H as (kl & Hkl & [= <-]).
  set (s := foldl (λ acc kx, insertar_por_clave kx acc) [] kl).
  assert (Hs : StronglySorted por_clave s)
    by (apply foldl_insertar_ordenada; constructor).
  assert (Hp : s ≡ₚ kl) by (unfold s; by rewrite foldl_insertar_perm).
  intros l1 v l2 w l3 Heq.
  apply fmap_app_inv in Heq as (s1 & s' & _ & Heq' & Hs1).
  symmetry in Heq'.
  apply fmap_cons_inv in Heq' as ([kv v'] & s'' & Hv & Heq'' & ->).
  simpl in Hv. subst v'. symmetry in Heq''.
  apply fmap_app_inv in Heq'' as (s2 & s3 & _ & Heq3 & ->).
  symmetry in Heq3.
  apply fmap_cons_inv in Heq3 as ([kw w'] & s4 & Hw & _ & ->).
  simpl in Hw. subst w'.
  exists kv, kw. split; [|split].
  - eapply con_claves_fst; [exact Hkl|]. rewrite <-Hp, Hs1. set_solver.
  - eapply con_claves_fst; [exact Hkl|]. rewrite <-Hp, Hs1. set_solver.
  - rewrite Hs1 in Hs. apply StronglySorted_app_1_r in Hs.
    apply StronglySorted_cons in Hs as [Hall _].
    rewrite Forall_forall in Hall. apply (Hall (kw, w)). set_solver.
Qed.

(** X10: the list returned by [_ordenar_valores_lcv] is a permutation of the
    legal values of [var], and the number of neighbours' values that a value
    removes never decreases along the list. *)
Theorem lcv_ordenada csp var (a : gmap string Z) l :
  BacktrackingMejorado._ordenar_valores_lcv csp var a = Valor l →
  ∃ legales,
    obtener_valores_legales csp var a = Valor legales
    ∧ l ≡ₚ legales
    ∧ ∀ l1 v l2 w l3, l = l1 ++ v :: l2 ++ w :: l3 →
        ∃ kv kw,
          BacktrackingMejorado.contar_conflictos csp var a v = Valor kv
          ∧ BacktrackingMejorado.contar_conflictos csp var a w = Valor kw
          ∧ (kv ≤ kw)%Z.
Proof.
  unfold BacktrackingMejorado._ordenar_valores_lcv. intros H.
  apply ligar_Valor in H as (legales & Hl & H).
  exists legales. split; [done|]. by apply ordenar_por_clave_ordenada.
Qed.

(** ** [min] takes the first element of least key *)

Lemma minimo_desde_primero clave mejor k vars v :
  clave mejor = Valor k →
  minimo_desde clave mejor k vars = Valor v →
  ∃ l1 l2 kv,
    mejor :: vars = l1 ++ v :: l2 ∧ clave v = Valor kv
    ∧ (∀ w, w ∈ l1 → ∃ kw, clave w = Valor kw ∧ kv < kw)
    ∧ (∀ w, w ∈ l2 → ∃ kw, clave w = Valor kw ∧ kv ≤ kw).
Proof.
  revert mejor k. induction vars as [|w resto IH]; intros mejor k Hk H.
  - injection H as <-. exists [], [], k. split; [done|]. split; [done|].
    split; by intros ? ?%elem_of_nil.
  - simpl in H. apply ligar_Valor in H as (kw & Hkw & H).
    case_bool_decide as Hlt.
    + destruct (IH w kw Hkw H) as (l1 & l2 & kv & Heq & Hkv & H1 & H2).
      exists (mejor :: l1), l2, kv. split; [by rewrite Heq|]. split; [done|].
      split; [|done].
      intros x [->|Hx]%elem_of_cons; [|by apply H1]. exists k. split; [done|].
      assert (kv ≤ kw); [|lia].
      destruct l1 as [|y l1]; simpl in Heq; injection Heq as Hy Hresto.
      * subst v. rewrite Hkw in Hkv. injection Hkv as <-. lia.
      * subst y. destruct (H1 w) as (ky & Hky & Hlt'); [left|].
        rewrite Hkw in Hky. injection Hky as <-. lia.
    + destruct (IH mejor k Hk H) as (l1 & l2 & kv & Heq & Hkv & H1 & H2).
      destruct l1 as [|y l1]; simpl in Heq; injection Heq as Hy Hresto.
      * subst v resto. rewrite Hk in Hkv. injection Hkv as <-.
        exists [], (w :: l2), k. split; [done|]. split; [done|].
        split; [by intros ? ?%elem_of_nil|].
        intros x [->|Hx]%elem_of_cons; [|by apply H2]. exists kw.
        split; [done|lia].
      * subst y resto.
        exists (mejor :: w :: l1), l2, kv. split; [done|]. split; [done|].
        split; [|done].
        intros x [->|[->|Hx]%elem_of_cons]%elem_of_cons.
        -- apply H1. left.
        -- exists kw. split; [done|].
           destruct (H1 mejor) as (ky & Hky & Hlt'); [left|].
           rewrite Hk in Hky. injection Hky as <-. lia.
        -- apply H1. by right.
Qed.

Lemma minimo_primero clave vars v :
  minimo clave vars = Valor v →
  ∃ l1 l2 kv,
    vars = l1 ++ v :: l2 ∧ clave v = Valor kv
    ∧ (∀ w, w ∈ l1 → ∃ kw, clave w = Valor kw ∧ kv < kw)
    ∧ (∀ w, w ∈ l2 → ∃ kw, clave w = Valor kw ∧ kv ≤ kw).
Proof.
  destruct vars as [|x vars]; [done|]. simpl. intros H.
  apply ligar_Valor in H as (k & Hk & H).
  by eapply minimo_desde_primero.
Qed.

(** X11: [_seleccionar_variable_mrv] raises ([min] of an empty list) when every
    declared variable is assigned; when it returns [var], [var] is the first,
    in the order of [csp.variables], of the unassigned variables with the
    fewest legal values: those before it have strictly more, those after it
    at least as many. *)
Theorem mrv_primera_de_las_minimas csp (a : gmap string Z) :
  ((∀ v, v ∈ variables csp → is_Some (a !! v)) →
   BacktrackingMejorado._seleccionar_variable_mrv csp a = Excepcion)
  ∧ ∀ var,
      BacktrackingMejorado._seleccionar_variable_mrv csp a = Valor var →
      ∃ l1 l2 n,
        filter (λ v, a !! v = None) (variables csp) = l1 ++ var :: l2
        ∧ BacktrackingMejorado.contar_valores_legales csp a var = Valor n
        ∧ (∀ w, w ∈ l1 →
             ∃ m, BacktrackingMejorado.contar_valores_legales csp a w = Valor m
                  ∧ n < m)
        ∧ (∀ w, w ∈ l2 →
             ∃ m, BacktrackingMejorado.contar_valores_legales csp a w = Valor m
                  ∧ n ≤ m).
Proof.
  split; [apply mrv_sin_variables|].
  intros var H. unfold BacktrackingMejorado._seleccionar_variable_mrv in H.
  by apply minimo_primero in H.
Qed.

(** ** Forward checking decides well-formed instances *)

Lemma es_consistente_insert_mismo csp var valor w (a : gmap string Z) :
  es_consistente csp var valor (<[var := w]> a) = es_consistente csp var valor a.
Proof. unfold es_consistente. by rewrite insert_insert_eq. Qed.

Section forward_checking.
Import ForwardChecking.
Context (csp : CSP).
Hypothesis Hbf : bien_formado csp.
Hypothesis Hc :
  nuevo_CSP (variables csp) (dominios csp) (restricciones csp) = Valor csp.

Lemma fc_bucle_spec (a : gmap string Z) vs doms :
  (∀ v, v ∈ vs → v ∈ variables csp) →
  dominios_de_trabajo csp a doms →
  ∃ dn exito,
    _forward_check_bucle csp a vs doms = Valor (dn, exito)
    ∧ dominios_de_trabajo csp a dn
    ∧ (∀ x, is_Some (a !! x) → dn !! x = doms !! x)
    ∧ (exito = false → ∃ x, x ∈ variables csp ∧ dn !! x = Some []).
Proof.
  revert doms. induction vs as [|vecino resto IH]; intros doms Hvs Hd; simpl.
  - exists doms, true. done.
  - assert (Hresto : ∀ v, v ∈ resto → v ∈ variables csp)
      by (intros v Hv; apply Hvs; by right).
    case_bool_decide as Hnone; [|by apply IH].
    assert (Hvec : vecino ∈ variables csp) by (apply Hvs; left).
    destruct Hd as (Hdom & Hsub & Hsol).
    assert (is_Some (doms !! vecino)) as [d Hdv].
    { apply elem_of_dom. rewrite Hdom. by apply elem_of_list_to_set. }
    unfold indexar. rewrite Hdv. simpl.
    set (validos := filter _ d).
    assert (Hd' : dominios_de_trabajo csp a (<[vecino := validos]> doms)).
    { split; [|split].
      - rewrite dom_insert_L, Hdom.
        assert (vecino ∈ (list_to_set (variables csp) : gset string))
          by (by apply elem_of_list_to_set).
        set_solver.
      - intros x dx. destruct (decide (x = vecino)) as [->|Hne].
        + rewrite lookup_insert_eq. intros [= <-].
          destruct (Hsub vecino d Hdv) as (d0 & Hd0 & Hdd0).
          exists d0. split; [done|]. intros v Hv. apply Hdd0.
          by apply list_elem_of_filter in Hv as [_ Hv].
        + rewrite lookup_insert_ne by done. apply Hsub.
      - intros s Hs Has x v Hx.
        destruct (decide (x = vecino)) as [->|Hne].
        + rewrite lookup_insert_eq. exists validos. split; [done|].
          destruct (Hsol s Hs Has vecino v Hx) as (d' & Hd' & Hvd').
          assert (d' = d) as -> by congruence.
          apply list_elem_of_filter. split; [|done].
          rewrite es_consistente_insert_mismo.
          by eapply solucion_es_consistente.
        + rewrite lookup_insert_ne by done. by apply (Hsol s Hs Has). }
    case_bool_decide as Hvacio.
    + exists (<[vecino := validos]> doms), false. split; [done|].
      split; [done|]. split.
      * intros x [v Hx]. rewrite lookup_insert_ne; [done|]. congruence.
      * intros _. exists vecino. split; [done|].
        by rewrite lookup_insert_eq, Hvacio.
    + destruct (IH _ Hresto Hd') as (dn & exito & Heq & Hdn & Hasig & Hex).
      exists dn, exito. split; [done|]. split; [done|]. split; [|done].
      intros x Hx. rewrite Hasig by done.
      destruct Hx as [v Hx]. rewrite lookup_insert_ne; [done|]. congruence.
Qed.

Lemma fc_forward_check_spec var valor (a : gmap string Z) doms :
  var ∈ variables csp →
  dominios_de_trabajo csp a doms →
  ∃ dn exito,
    _forward_check csp var valor a doms = Valor (dn, exito)
    ∧ dominios_de_trabajo csp a dn
    ∧ (∀ x, is_Some (a !! x) → dn !! x = doms !! x)
    ∧ (exito = false → ∃ x, x ∈ variables csp ∧ dn !! x = Some []).
Proof.
  intros Hvar Hd. unfold _forward_check.
  destruct (vecinos_de_variable csp var Hc Hvar) as [s Hs].
  unfold indexar. rewrite Hs. simpl. apply fc_bucle_spec; [|done].
  intros v Hv. by eapply vecino_declarado.
Qed.

Lemma dominios_de_trabajo_insert (a : gmap string Z) var valor doms :
  a !! var = None →
  dominios_de_trabajo csp a doms →
  dominios_de_trabajo csp (<[var := valor]> a) doms.
Proof.
  intros Hnone (Hdom & Hsub & Hsol). split; [done|]. split; [done|].
  intros s Hs Has. apply Hsol; [done|].
  etrans; [|exact Has]. by apply insert_subseteq.
Qed.

Lemma fc_probar_spec rec var (a : gmap string Z) doms d valores :
  estado_valido csp a → var ∈ variables csp → a !! var = None →
  dominios_de_trabajo csp a doms → doms !! var = Some d → valores ⊆ d →
  (∀ valor dn, valor ∈ d → es_consistente csp var valor a = true →
     dominios_de_trabajo csp (<[var := valor]> a) dn →
     busqueda_correcta csp (<[var := valor]> a) (rec (<[var := valor]> a) dn)) →
  match probar rec csp var a doms valores with
  | Valor (Some sol) => estado_valido csp sol ∧ size sol = length (variables csp)
  | Valor None =>
      ∀ s v, solucion csp s → a ⊆ s → s !! var = Some v → v ∉ valores
  | Excepcion => False
  | Agotado => True
  end.
Proof.
  intros Ha Hvar Hnone Hd Hdv Hsub Hrec.
  induction valores as [|valor resto IH]; simpl.
  - intros s v _ _ _. apply not_elem_of_nil.
  - assert (Hresto : resto ⊆ d) by (intros x Hx; apply Hsub; by right).
    specialize (IH Hresto).
    assert (Hin : valor ∈ d) by (apply Hsub; left).
    destruct (es_consistente csp var valor a) eqn:Hcons.
    + destruct (fc_forward_check_spec var valor (<[var := valor]> a) doms Hvar)
        as (dn & exito & Hfc & Hdn & _ & Hex).
      { by apply dominios_de_trabajo_insert. }
      rewrite Hfc. simpl. destruct exito.
      * specialize (Hrec valor dn Hin Hcons Hdn).
        destruct (rec (<[var := valor]> a) dn) as [[sol|]| |]; simpl;
          [done| |done..].
        destruct (probar rec csp var a doms resto) as [[sol|]| |];
          [done| |done..].
        intros s v Hs Has Hv [->|Hv']%elem_of_cons; [|by eapply IH].
        apply (Hrec s Hs). by apply insert_subseteq_l.
      * destruct (Hex eq_refl) as (x & Hx & Hxe).
        destruct (probar rec csp var a doms resto) as [[sol|]| |];
          [done| |done..].
        intros s v Hs Has Hv [->|Hv']%elem_of_cons; [|by eapply IH].
        destruct Hdn as (_ & _ & Hsol).
        destruct (solucion_valor csp s a x Hs Hx) as (vx & _ & Hvx & _).
        destruct (Hsol s Hs (insert_subseteq_l a s var valor Hv Has) x vx Hvx)
          as (dx & Hdx & Hvdx).
        rewrite Hxe in Hdx. injection Hdx as <-. by apply elem_of_nil in Hvdx.
    + destruct (probar rec csp var a doms resto) as [[sol|]| |];
        [done| |done..].
      intros s v Hs Has Hv [->|Hv']%elem_of_cons; [|by eapply IH].
      assert (es_consistente csp var valor a = true)
        by (by eapply solucion_es_consistente).
      congruence.
Qed.

Lemma fc_backtrack_spec fuel (a : gmap string Z) doms :
  estado_valido csp a → dominios_de_trabajo csp a doms →
  busqueda_correcta csp a (_backtrack fuel csp a doms).
Proof.
  revert a doms. induction fuel as [|fuel IH]; intros a doms Ha Hd; [done|].
  simpl. case_bool_decide as Hsz; [done|].
  pose proof Hbf as (Hnd & Hdoms & _).
  pose proof Ha as (Hdoma & _).
  pose proof Hd as (Hdomd & Hsubd & Hsol).
  destruct (_seleccionar_variable_mrv csp a doms) as [var| |] eqn:Hsel; simpl.
  - apply minimo_elem_of, no_asignada_elem_of in Hsel as [Hvar Hnone].
    assert (is_Some (doms !! var)) as [d Hdv].
    { apply elem_of_dom. rewrite Hdomd. by apply elem_of_list_to_set. }
    unfold indexar. rewrite Hdv. simpl.
    pose proof (fc_probar_spec (_backtrack fuel csp) var a doms d d Ha Hvar
                  Hnone Hd Hdv (reflexivity _)) as Hp.
    destruct (probar _ csp var a doms d) as [[sol|]| |].
    + apply Hp. intros valor dn Hin Hcons Hdn. apply IH; [|done].
      destruct (Hsubd var d Hdv) as (d0 & Hd0 & Hdd0).
      eapply estado_valido_insert; [done..|by apply Hdd0|done].
    + intros s Hs Has.
      destruct (solucion_valor csp s a var Hs Hvar) as (v & _ & Hv & _).
      eapply Hp; [|done..|].
      * intros valor dn Hin Hcons Hdn. apply IH; [|done].
        destruct (Hsubd var d Hdv) as (d0 & Hd0 & Hdd0).
        eapply estado_valido_insert; [done..|by apply Hdd0|done].
      * destruct (Hsol s Hs Has var v Hv) as (d' & Hd' & Hvd').
        congruence.
    + apply Hp. intros valor dn Hin Hcons Hdn. apply IH; [|done].
      destruct (Hsubd var d Hdv) as (d0 & Hd0 & Hdd0).
      eapply estado_valido_insert; [done..|by apply Hdd0|done].
    + done.
  - exfalso. revert Hsel. unfold _seleccionar_variable_mrv.
    apply minimo_no_excepcion; [by apply hay_no_asignada|].
    intros v [Hv _]%no_asignada_elem_of.
    apply ligar_no_excepcion; [|done]. apply indexar_no_excepcion.
    apply elem_of_dom. rewrite Hdomd. by apply elem_of_list_to_set.
  - done.
Qed.

End forward_checking.

Lemma copiar_dominios_Valor csp vars acc :
  (∀ v, v ∈ vars → is_Some (dominios csp !! v)) →
  ∃ doms, copiar_dominios csp vars acc = Valor doms.
Proof.
  revert acc. induction vars as [|v vars IH]; intros acc H; simpl; [eauto|].
  destruct (H v) as [d Hd]; [left|]. unfold indexar. rewrite Hd. simpl.
  apply IH. intros x Hx. apply H. by right.
Qed.

Lemma copiar_dominios_de_trabajo csp doms :
  copiar_dominios csp (variables csp) ∅ = Valor doms →
  dominios_de_trabajo csp ∅ doms.
Proof.
  intros H. destruct (copiar_dominios_lookup csp _ _ _ H) as [Hdom Hlook].
  split; [|split].
  - rewrite Hdom, dom_empty_L. set_solver.
  - intros x d Hx. rewrite Hlook in Hx. case_bool_decide; [|done].
    by exists d.
  - intros s (Hcomp & Hen & _) _ x v Hx.
    destruct (Hen x v Hx) as (d & Hd & Hvd). exists d. split; [|done].
    rewrite Hlook. rewrite bool_decide_eq_true_2; [done|].
    apply (elem_of_list_to_set (C:=gset string)). rewrite <-Hcomp.
    apply elem_of_dom. eauto.
Qed.

(** X12: on a well-formed CSP built by the constructor,
    [SolucionadorForwardChecking.resolver] raises nothing and decides the
    instance: pruning the domains of the neighbours loses no solution. *)
Theorem forward_checking_decide csp :
  bien_formado csp →
  nuevo_CSP (variables csp) (dominios csp) (restricciones csp) = Valor csp →
  decide_instancia csp (ForwardChecking.resolver csp).
Proof.
  intros Hbf Hc. pose proof Hbf as (_ & Hdoms & _).
  pose proof (resolver_fc_no_agotado csp) as Hag.
  unfold ForwardChecking.resolver in *.
  destruct (copiar_dominios_Valor csp (variables csp) ∅ Hdoms) as [doms Hcd].
  rewrite Hcd, ligar_valor in *.
  pose proof (fc_backtrack_spec csp Hbf Hc (S (length (variables csp))) ∅ doms
                (estado_valido_vacio csp)
                (copiar_dominios_de_trabajo csp doms Hcd)) as Hspec.
  destruct (ForwardChecking._backtrack _ csp ∅ doms) as [[sol|]| |].
  - left. exists sol. split; [done|]. destruct Hspec as [Hv Hsz].
    by apply estado_completo_solucion.
  - right. split; [done|]. intros s Hs. apply (Hspec s Hs).
    apply map_empty_subseteq.
  - done.
  - done.
Qed.

(** ** The keys of a returned assignment *)

Section claves.
Context (csp : CSP).

Lemma claves_declaradas_insert (a : gmap string Z) var valor :
  var ∈ variables csp → dom a ⊆ list_to_set (variables csp) →
  dom (<[var := valor]> a) ⊆ list_to_set (variables csp).
Proof.
  intros Hvar Hdom. rewrite dom_insert_L.
  assert (var ∈ (list_to_set (variables csp) : gset string))
    by (by apply elem_of_list_to_set).
  set_solver.
Qed.

Lemma bt_claves fuel (a : gmap string Z) sol :
  dom a ⊆ list_to_set (variables csp) →
  Backtracking._backtrack fuel csp a = Valor (Some sol) →
  claves_declaradas csp sol.
Proof.
  revert a sol. induction fuel as [|fuel IH]; intros a sol Ha; simpl; [done|].
  case_bool_decide as Hsz; [by intros [= <-]|].
  destruct (Backtracking._seleccionar_variable_no_asignada csp a) as [var|]
    eqn:Hsel; [|done].
  apply seleccionar_Some in Hsel as [Hvar _].
  intros H. apply ligar_Valor in H as (valores & _ & H).
  eapply (probar_inv csp (claves_declaradas csp)); [|exact H].
  intros valor s _ Hrec. eapply IH; [|exact Hrec].
  by apply claves_declaradas_insert.
Qed.

Lemma mejorado_claves fuel (a : gmap string Z) sol :
  dom a ⊆ list_to_set (variables csp) →
  BacktrackingMejorado._backtrack fuel csp a = Valor (Some sol) →
  claves_declaradas csp sol.
Proof.
  revert a sol. induction fuel as [|fuel IH]; intros a sol Ha; simpl; [done|].
  case_bool_decide as Hsz; [by intros [= <-]|].
  intros H. apply ligar_Valor in H as (var & Hsel & H).
  apply mrv_elem_of in Hsel as [Hvar _].
  apply ligar_Valor in H as (valores & _ & H).
  eapply (probar_inv csp (claves_declaradas csp)); [|exact H].
  intros valor s _ Hrec. eapply IH; [|exact Hrec].
  by apply claves_declaradas_insert.
Qed.

Lemma fc_claves fuel (a : gmap string Z) doms sol :
  dom a ⊆ list_to_set (variables csp) →
  ForwardChecking._backtrack fuel csp a doms = Valor (Some sol) →
  claves_declaradas csp sol.
Proof.
  revert a doms sol.
  induction fuel as [|fuel IH]; intros a doms sol Ha; simpl; [done|].
  case_bool_decide as Hsz; [by intros [= <-]|].
  intros H. apply ligar_Valor in H as (var & Hsel & H).
  apply minimo_elem_of, no_asignada_elem_of in Hsel as [Hvar _].
  apply ligar_Valor in H as (valores & _ & H).
  eapply (fc_probar_inv csp (claves_declaradas csp)); [|exact H].
  intros valor dn s _ Hrec. eapply IH; [|exact Hrec].
  by apply claves_declaradas_insert.
Qed.

Lemma mac_probar_inv (Q : gmap string Z → Prop) rec var (a : gmap string Z)
    doms valores sol :
  (∀ valor dn s, rec (<[var := valor]> a) dn = Valor (Some s) → Q s) →
  Propagacion.probar rec csp var a doms valores = Valor (Some sol) → Q sol.
Proof.
  intros Hrec. induction valores as [|valor resto IH]; simpl; [done|].
  intros H. apply ligar_Valor in H as ([exito dn] & _ & H).
  destruct exito; [|by apply IH].
  apply ligar_Valor in H as (r & Hr & H). destruct r as [s|]; [|by apply IH].
  injection H as <-. by eapply Hrec.
Qed.

Lemma mac_claves fuel (a : gmap string Z) doms sol :
  dom a ⊆ list_to_set (variables csp) →
  Propagacion._backtrack fuel csp a doms = Valor (Some sol) →
  claves_declaradas csp sol.
Proof.
  revert a doms sol.
  induction fuel as [|fuel IH]; intros a doms sol Ha; simpl; [done|].
  case_bool_decide as Hsz; [by intros [= <-]|].
  intros H. apply ligar_Valor in H as (var & Hsel & H).
  apply minimo_elem_of, no_asignada_elem_of in Hsel as [Hvar _].
  apply ligar_Valor in H as (valores & _ & H).
  eapply (mac_probar_inv (claves_declaradas csp)); [|exact H].
  intros valor dn s Hrec. eapply IH; [|exact Hrec].
  by apply claves_declaradas_insert.
Qed.

Lemma claves_declaradas_completa sol :
  claves_declaradas csp sol →
  NoDup (variables csp) ∧ completa csp sol.
Proof.
  intros [Hdom Hsz]. rewrite <-size_dom in Hsz.
  pose proof (size_list_to_set_le (variables csp)) as Hle.
  pose proof (subseteq_size _ _ Hdom) as Hle'.
  split.
  - apply size_list_to_set_NoDup. lia.
  - unfold completa. apply set_subseteq_size_eq; [done|]. lia.
Qed.

End claves.

(** X13: whatever the CSP, an assignment returned by the entry point of plain
    backtracking, MRV/LCV backtracking, forward checking, backjumping or MAC
    has exactly the declared variables as keys, and then [csp.variables] has
    no duplicates: none of them returns a partial assignment. *)
Theorem asignacion_devuelta_completa csp sol :
  Backtracking.resolver csp = Valor (Asignacion sol)
  ∨ BacktrackingMejorado.resolver csp = Valor (Asignacion sol)
  ∨ ForwardChecking.resolver csp = Valor (Asignacion sol)
  ∨ Backjumping.resolver csp = Valor (Asignacion sol)
  ∨ Propagacion.resolver csp = Valor (Asignacion sol) →
  NoDup (variables csp) ∧ completa csp sol.
Proof.
  assert (Hv : dom (∅ : gmap string Z) ⊆ list_to_set (variables csp))
    by (rewrite dom_empty_L; set_solver).
  rewrite resolver_igual.
  intros H. apply claves_declaradas_completa.
  destruct H as [H|[H|[H|[H|H]]]].
  - unfold Backtracking.resolver in H.
    apply ligar_Valor in H as ([s|] & Hb & [= <-]).
    by eapply bt_claves.
  - unfold BacktrackingMejorado.resolver in H.
    apply ligar_Valor in H as ([s|] & Hb & [= <-]).
    by eapply mejorado_claves.
  - unfold ForwardChecking.resolver in H.
    apply ligar_Valor in H as (doms & _ & H).
    apply ligar_Valor in H as ([s|] & Hb & [= <-]).
    by eapply fc_claves.
  - unfold Backtracking.resolver in H.
    apply ligar_Valor in H as ([s|] & Hb & [= <-]).
    by eapply bt_claves.
  - unfold Propagacion.resolver in H.
    apply ligar_Valor in H as ([exito doms] & _ & H).
    destruct exito; [|done].
    apply ligar_Valor in H as ([s|] & Hb & [= <-]).
    by eapply mac_claves.
Qed.

(** ** AC-3 establishes arc consistency *)

Section arco_consistencia.
Import Propagacion.
Context (csp : CSP).

Lemma buscar_None_elem clave restr :
  buscar clave restr = None ↔ clave ∉ restr.*1.
Proof.
  unfold buscar. induction restr as [|[k f] restr IH]; simpl.
  - split; [intros _; apply not_elem_of_nil|done].
  - case_bool_decide as Hk; simpl in *.
    + subst k. split; [done|]. intros H. exfalso. apply H. left.
    + rewrite IH, not_elem_of_cons. naive_solver.
Qed.

Lemma es_consistente_binaria_sim x a y b :
  x ≠ y →
  ¬ ([x; y] ∈ (restricciones csp).*1 ∧ [y; x] ∈ (restricciones csp).*1) →
  es_consistente_binaria csp x a y b = es_consistente_binaria csp y b x a.
Proof.
  intros Hne Hno. unfold es_consistente_binaria.
  destruct (buscar [x; y] (restricciones csp)) as [f|] eqn:Hxy;
    destruct (buscar [y; x] (restricciones csp)) as [g|] eqn:Hyx; try done.
  exfalso. apply Hno. split.
  - destruct (decide ([x; y] ∈ (restricciones csp).*1)) as [|Hn]; [done|].
    apply buscar_None_elem in Hn. congruence.
  - destruct (decide ([y; x] ∈ (restricciones csp).*1)) as [|Hn]; [done|].
    apply buscar_None_elem in Hn. congruence.
Qed.

Lemma _calcular_arcos_spec claves :
  match _calcular_arcos claves with
  | Valor l =>
      length l = 2 * length claves
      ∧ (∀ k, k ∈ claves → length k = 2)
      ∧ ∀ x y, (x, y) ∈ l ↔ [x; y] ∈ claves ∨ [y; x] ∈ claves
  | Excepcion => ∃ k, k ∈ claves ∧ length k ≠ 2
  | Agotado => False
  end.
Proof.
  induction claves as [|k claves IH]; simpl.
  - split; [done|]. split; [by intros k ?%elem_of_nil|].
    intros x y. rewrite !elem_of_nil. tauto.
  - destruct k as [|var1 [|var2 [|var3 k]]];
      try (exists []; split; [left|done]);
      try (exists [var1]; split; [left|done]);
      try (eexists (var1 :: var2 :: var3 :: k); split; [left|done]).
    destruct (_calcular_arcos claves) as [l| |]; simpl; [| |done].
    + destruct IH as (Hlen & Hk & Hel). split; [simpl; lia|]. split.
      * intros k [->|Hin]%elem_of_cons; [done|]. by apply Hk.
      * intros x y. rewrite !elem_of_cons, Hel. split.
        -- intros [[= -> ->]|[[= -> ->]|[H|H]]]; eauto.
        -- intros [[[= -> ->]|H]|[[= -> ->]|H]]; eauto.
    + destruct IH as (k & Hin & Hlen). exists k. split; [by right|done].
Qed.

Section bucle.
Hypothesis Hbin : binario csp.
Hypothesis Hc :
  nuevo_CSP (variables csp) (dominios csp) (restricciones csp) = Valor csp.

Lemma es_arco_vecino x y :
  es_arco csp x y →
  x ≠ y ∧ ∃ s, vecinos csp !! y = Some s ∧ x ∈ s.
Proof.
  destruct Hbin as [Hpar _].
  destruct (vecinos_construidos csp Hc) as (Hdom & Hel & Hdecl).
  intros Harco.
  assert (∃ r, r ∈ restricciones csp ∧ x ∈ r.1 ∧ y ∈ r.1 ∧ x ≠ y)
    as (r & Hr & Hx & Hy & Hne).
  { destruct Harco as [(r & Heq & Hr)%list_elem_of_fmap
                      |(r & Heq & Hr)%list_elem_of_fmap];
      destruct (Hpar r Hr) as (u & v & Huv & Hne); exists r;
      rewrite Huv in Heq; injection Heq as -> ->;
      (split; [done|]); rewrite Huv; set_solver. }
  split; [done|].
  assert (Hyv : y ∈ dom (vecinos csp)).
  { rewrite Hdom. apply elem_of_list_to_set. by eapply (Hdecl r y x). }
  apply elem_of_dom in Hyv as [s Hs]. exists s. split; [done|].
  apply (Hel y s Hs). split; [done|]. by exists r.
Qed.

Lemma ac3_bucle_arcos fuel cola doms :
  invariante_arcos csp cola doms →
  match ac3_bucle fuel csp cola doms with
  | Valor (true, doms') => ∀ x y, es_arco csp x y → arco_consistente csp doms' x y
  | Valor (false, _) => True
  | Excepcion => False
  | Agotado => True
  end.
Proof.
  revert cola doms. induction fuel as [|fuel IH]; intros cola doms Hinv; [done|].
  destruct cola as [|[xi xj] resto].
  { simpl. destruct Hinv as (_ & _ & Harcos). intros x y Hxy.
    destruct (Harcos x y Hxy) as [?%elem_of_nil|?]; done. }
  rewrite ac3_bucle_paso.
  destruct Hinv as (Hdom & Hcola & Harcos).
  destruct (Hcola xi xj) as (Hne & Hxi & Hxj); [left|].
  assert (is_Some (doms !! xi)) as [di Hdi].
  { apply elem_of_dom. rewrite Hdom. by apply elem_of_list_to_set. }
  assert (is_Some (doms !! xj)) as [dj Hdj].
  { apply elem_of_dom. rewrite Hdom. by apply elem_of_list_to_set. }
  rewrite (revisar_arco_filter csp xi xj doms di dj Hdi Hdj), ligar_valor.
  set (di' := filter (λ a, soportado csp xi xj dj a = true) di).
  set (doms' := <[xi := di']> doms).
  assert (Hdom' : dom doms' = list_to_set (variables csp)).
  { unfold doms'. rewrite dom_insert_L, <-Hdom.
    assert (xi ∈ dom doms) by (apply elem_of_dom; eauto). set_solver. }
  assert (Hsop : ∀ a, a ∈ di' ↔
            a ∈ di ∧ ∃ b, b ∈ dj ∧ es_consistente_binaria csp xi a xj b = true)
    by (intros a; apply elem_of_soportados).
  assert (Hsub : ∀ x d', doms' !! x = Some d' →
            ∃ d, doms !! x = Some d ∧ d' ⊆ d).
  { intros x d'. unfold doms'. destruct (decide (x = xi)) as [->|Hx].
    - rewrite lookup_insert_eq. intros [= <-]. exists di. split; [done|].
      intros a Ha. by apply Hsop in Ha as [Ha _].
    - rewrite lookup_insert_ne by done. intros Hx'. by exists d'. }
  (* the arc that was revised is consistent *)
  assert (Hrev : arco_consistente csp doms' xi xj).
  { intros d1 d2 a. unfold doms'. rewrite lookup_insert_eq.
    rewrite lookup_insert_ne by done. intros [= <-] Hd2 Ha.
    assert (d2 = dj) as -> by congruence. by apply Hsop in Ha as [_ Ha]. }
  (* arcs that do not end in [xi] stay consistent *)
  assert (Hotros : ∀ x y, y ≠ xi → arco_consistente csp doms x y →
                          arco_consistente csp doms' x y).
  { intros x y Hy Hxy d1 d2 a Hd1 Hd2 Ha.
    unfold doms' in Hd2. rewrite lookup_insert_ne in Hd2 by done.
    destruct (Hsub x d1 Hd1) as (d & Hd & Hd1d).
    apply (Hxy d d2 a Hd Hd2). by apply Hd1d. }
  (* the reverse arc stays consistent *)
  assert (Hinv : arco_consistente csp doms xj xi →
                 arco_consistente csp doms' xj xi).
  { intros Hji d1 d2 b. unfold doms'. rewrite lookup_insert_ne by done.
    rewrite lookup_insert_eq. intros Hd1 [= <-] Hb.
    assert (d1 = dj) as -> by congruence.
    destruct (Hji dj di b Hdj Hdi Hb) as (a & Ha & Hab).
    exists a. split; [|done]. apply Hsop. split; [done|].
    exists b. split; [done|]. rewrite <-Hab.
    apply es_consistente_binaria_sim; [done|].
    destruct Hbin as [_ Huna]. intros [H1 H2]. by apply (Huna xi xj). }
  case_bool_decide as Hrevisado.
  - (* some value was removed *)
    assert (Hix : indexar doms' xi = Valor di')
      by (unfold indexar, doms'; by rewrite lookup_insert_eq).
    rewrite Hix, ligar_valor. case_bool_decide as Hvacio; [done|].
    destruct (vecinos_de_variable csp xi Hc Hxi) as [vs Hvs].
    assert (Hiv : indexar (vecinos csp) xi = Valor vs)
      by (unfold indexar; by rewrite Hvs).
    rewrite Hiv, ligar_valor.
    apply IH. split; [done|]. split.
    + intros x y [Hin|Hin]%elem_of_app.
      * apply Hcola. by right.
      * apply list_elem_of_fmap in Hin as (xk & [= -> ->] & Hxk).
        apply list_elem_of_filter in Hxk as [_ Hxk].
        destruct (vecinos_construidos csp Hc) as (_ & Hel & _).
        apply (Hel xi vs Hvs) in Hxk as Hxk'. destruct Hxk' as [Hne' _].
        split; [done|]. split; [|done]. by eapply vecino_declarado.
    + intros x y Hxy.
      destruct (decide (x = xi ∧ y = xj)) as [[-> ->]|Hdist]; [by right|].
      destruct (Harcos x y Hxy) as [Hin|Hcons].
      * left. apply elem_of_app. left.
        apply elem_of_cons in Hin as [[= -> ->]|Hin]; [tauto|done].
      * destruct (decide (y = xi)) as [->|Hy]; [|right; by apply Hotros].
        destruct (decide (x = xj)) as [->|Hx]; [right; by apply Hinv|].
        left. apply elem_of_app. right.
        apply list_elem_of_fmap. exists x. split; [done|].
        apply list_elem_of_filter. split; [done|].
        destruct (es_arco_vecino x xi Hxy) as (_ & s & Hs & Hxs).
        congruence.
  - (* nothing was removed *)
    assert (Higual : ∀ a, a ∈ di → a ∈ di').
    { intros a Ha. apply list_elem_of_filter. split; [|done].
      destruct (soportado csp xi xj dj a) eqn:E; [done|].
      exfalso.
      assert (a ∈ filter (λ a, soportado csp xi xj dj a = false) di) as Hin
        by (by apply list_elem_of_filter).
      rewrite Hrevisado in Hin. by apply elem_of_nil in Hin. }
    apply IH. split; [done|]. split.
    + intros x y Hin. apply Hcola. by right.
    + intros x y Hxy.
      destruct (decide (x = xi ∧ y = xj)) as [[-> ->]|Hdist]; [by right|].
      destruct (Harcos x y Hxy) as [Hin|Hcons].
      * left. apply elem_of_cons in Hin as [[= -> ->]|Hin]; [tauto|done].
      * right. destruct (decide (y = xi)) as [->|Hy]; [|by apply Hotros].
        intros d1 d2 a Hd1 Hd2 Ha.
        unfold doms' in Hd2. rewrite lookup_insert_eq in Hd2.
        injection Hd2 as <-.
        destruct (Hsub x d1 Hd1) as (d & Hd & Hd1d).
        destruct (Hcons d di a Hd Hdi (Hd1d a Ha)) as (b & Hb & Hab).
        exists b. split; [by apply Higual|done].
Qed.

End bucle.

End arco_consistencia.

(** X14: on a well-formed binary CSP built by the constructor (every key a pair
    of different variables, no pair keyed in both orientations), [ac3(csp)]
    raises nothing, and when it answers [True] the domains it returns are arc
    consistent: for every arc, each value of the first variable has a
    compatible value in the domain of the second. *)
Theorem ac3_arco_consistente csp :
  bien_formado csp → binario csp →
  nuevo_CSP (variables csp) (dominios csp) (restricciones csp) = Valor csp →
  ∃ exito doms,
    Propagacion.ac3 csp None = Valor (exito, doms)
    ∧ (exito = true → ∀ x y, es_arco csp x y → arco_consistente csp doms x y).
Proof.
  intros Hbf Hbin Hc. pose proof Hbf as (_ & Hdoms & _).
  pose proof (ac3_no_agotado csp None) as Hag.
  unfold Propagacion.ac3 in *.
  destruct (copiar_dominios_Valor csp (variables csp) ∅ Hdoms) as [doms0 Hcd].
  rewrite Hcd, ligar_valor in *.
  pose proof (_calcular_arcos_spec (restricciones csp).*1) as Harcos.
  unfold Propagacion.arcos in *.
  destruct (Propagacion._calcular_arcos (restricciones csp).*1) as [l| |];
    [| |done].
  - rewrite ligar_valor in *. destruct Harcos as (_ & _ & Hel).
    assert (Hinv : invariante_arcos csp l doms0).
    { split; [|split].
      - destruct (copiar_dominios_lookup csp _ _ _ Hcd) as [-> _].
        rewrite dom_empty_L. set_solver.
      - intros x y Hxy. apply Hel in Hxy.
        destruct (es_arco_vecino csp Hbin Hc x y Hxy) as (Hne & s & Hs & Hx).
        split; [done|]. split; [by eapply vecino_declarado|].
        destruct (vecinos_construidos csp Hc) as (Hdom & _).
        apply (elem_of_list_to_set (C:=gset string)). rewrite <-Hdom.
        apply elem_of_dom. eauto.
      - intros x y Hxy. left. by apply Hel. }
    pose proof (ac3_bucle_arcos csp Hbin Hc
                  (Propagacion.presupuesto csp l doms0) l doms0 Hinv) as Hspec.
    destruct (Propagacion.ac3_bucle _ csp l doms0) as [[[] doms]| |];
      [| |done..].
    + exists true, doms. done.
    + exists false, doms. done.
  - exfalso. destruct Harcos as (k & (r & -> & Hr)%list_elem_of_fmap & Hlen).
    destruct Hbin as [Hpar _]. destruct (Hpar r Hr) as (x & y & Heq & _).
    by rewrite Heq in Hlen.
Qed.

(** ** The arcs and the binary check *)

(** X15: [_calcular_arcos] raises exactly when some key is not a pair; otherwise
    it returns two arcs per key, and [(x, y)] is an arc exactly when [(x, y)]
    or [(y, x)] is a key. *)
Theorem calcular_arcos_dos_sentidos claves :
  match Propagacion._calcular_arcos claves with
  | Valor l =>
      length l = 2 * length claves
      ∧ (∀ k, k ∈ claves → length k = 2)
      ∧ ∀ x y, (x, y) ∈ l ↔ [x; y] ∈ claves ∨ [y; x] ∈ claves
  | Excepcion => ∃ k, k ∈ claves ∧ length k ≠ 2
  | Agotado => False
  end.
Proof.
  pose proof (_calcular_arcos_spec claves) as H.
  destruct (Propagacion._calcular_arcos claves) as [l| |]; [|done|done].
  destruct H as (Hlen & Hpar & Hin). split; [done|]. split; [done|].
  intros x y. apply Hin.
Qed.

(** X16: unless both [(x, y)] and [(y, x)] are keys, [es_consistente_binaria]
    is symmetric: asking about [(x, a)] against [(y, b)] or about [(y, b)]
    against [(x, a)] gives the same answer. *)
Theorem es_consistente_binaria_simetrica csp x a y b :
  ¬ ([x; y] ∈ (restricciones csp).*1 ∧ [y; x] ∈ (restricciones csp).*1) →
  Propagacion.es_consistente_binaria csp x a y b
  = Propagacion.es_consistente_binaria csp y b x a.
Proof.
  intros Hno. unfold Propagacion.es_consistente_binaria.
  destruct (Propagacion.buscar [x; y] (restricciones csp)) as [f|] eqn:Hxy;
    destruct (Propagacion.buscar [y; x] (restricciones csp)) as [g|] eqn:Hyx;
    try done.
  exfalso. apply Hno. split.
  - destruct (decide ([x; y] ∈ (restricciones csp).*1)) as [|Hn]; [done|].
    apply buscar_None_elem in Hn. congruence.
  - destruct (decide ([y; x] ∈ (restricciones csp).*1)) as [|Hn]; [done|].
    apply buscar_None_elem in Hn. congruence.
Qed.

(** ** Min-conflicts: the initial assignment, the loop and its statistics *)

Section min_conflicts_mas.
Import MinConflicts.
Context (csp : CSP).

Lemma choice_Valor {A} (l : list A) g :
  l ≠ [] → ∃ x, choice l g = Valor (x, λ n, g (S n)).
Proof.
  intros Hl. unfold choice.
  assert (g 0 mod length l < length l) as Hlt.
  { apply Nat.mod_upper_bound. by destruct l. }
  apply lookup_lt_is_Some in Hlt as [x Hx]. rewrite Hx. eauto.
Qed.

Lemma choice_nil {A} g : choice (@nil A) g = Excepcion.
Proof. done. Qed.

Lemma choice_no_agotado {A} (l : list A) g : choice l g ≠ Agotado.
Proof. unfold choice. by destruct (l !! _). Qed.

Lemma asignacion_inicial_spec vars g acc :
  match asignacion_inicial csp vars g acc with
  | Valor (a, g') =>
      dom a = dom acc ∪ list_to_set vars
      ∧ (∀ v, v ∈ vars → ∃ d, dominios csp !! v = Some d ∧ d ≠ [])
      ∧ (en_dominios (dominios csp) acc → en_dominios (dominios csp) a)
  | Excepcion =>
      ∃ v, v ∈ vars ∧ (dominios csp !! v = None ∨ dominios csp !! v = Some [])
  | Agotado => False
  end.
Proof.
  revert g acc. induction vars as [|var resto IH]; intros g acc; simpl.
  - split; [set_solver|]. split; [by intros v ?%elem_of_nil|done].
  - unfold indexar. destruct (dominios csp !! var) as [d|] eqn:Hd; simpl;
      [|exists var; split; [left|by left]].
    destruct d as [|x d].
    { rewrite choice_nil. simpl. exists var. split; [left|by right]. }
    destruct (choice_Valor (x :: d) g) as [v Hv]; [done|].
    rewrite Hv. simpl. apply choice_elem_of in Hv.
    specialize (IH (λ n, g (S n)) (<[var := v]> acc)).
    destruct (asignacion_inicial csp resto _ _) as [[a g']| |]; [| |done].
    + destruct IH as (Hdom & Hdoms & Hen). split; [|split].
      * rewrite Hdom, dom_insert_L. set_solver.
      * intros y [->|Hy]%elem_of_cons; [by exists (x :: d)|by apply Hdoms].
      * intros Hacc. apply Hen. intros y w.
        destruct (decide (y = var)) as [->|Hne].
        -- rewrite lookup_insert_eq. intros [= <-]. by exists (x :: d).
        -- rewrite lookup_insert_ne by done. apply Hacc.
    + destruct IH as (y & Hy & Hbad). exists y. split; [by right|done].
Qed.

(** What [minimizar] computes on a non-empty domain. *)
Lemma minimizar_foldl (a : gmap string Z) var p l m :
  p ≠ [] →
  (∀ v, v ∈ p → m ≤ contar_conflictos csp var v a) →
  (∃ v, v ∈ p ∧ contar_conflictos csp var v a = m) →
  ∃ m',
    foldl (λ (st : option nat * list Z) valor,
             let num_conflictos := contar_conflictos csp var valor a in
             match st.1 with
             | None => (Some num_conflictos, [valor])
             | Some min_conflictos =>
                 if bool_decide (num_conflictos < min_conflictos)
                 then (Some num_conflictos, [valor])
                 else if bool_decide (num_conflictos = min_conflictos)
                      then (st.1, st.2 ++ [valor])
                      else st
             end)
          (Some m, filter (λ v, contar_conflictos csp var v a = m) p) l
    = (Some m', filter (λ v, contar_conflictos csp var v a = m') (p ++ l))
    ∧ (∀ v, v ∈ p ++ l → m' ≤ contar_conflictos csp var v a)
    ∧ (∃ v, v ∈ p ++ l ∧ contar_conflictos csp var v a = m').
Proof.
  revert p m. induction l as [|x l IH]; intros p m Hp Hmin Hex.
  - exists m. rewrite app_nil_r. done.
  - simpl. replace (p ++ x :: l) with ((p ++ [x]) ++ l)
      by (by rewrite <-app_assoc).
    assert (Hp' : p ++ [x] ≠ []) by (by destruct p).
    case_bool_decide as Hlt.
    + assert (Hf : filter (λ v, contar_conflictos csp var v a
                                = contar_conflictos csp var x a) (p ++ [x]) = [x]).
      { rewrite filter_app, filter_cons, decide_True by done.
        rewrite filter_nil.
        assert (filter (λ v, contar_conflictos csp var v a
                             = contar_conflictos csp var x a) p = []) as ->; [|done].
        apply elem_of_nil_inv. intros v [Hv Hin]%list_elem_of_filter.
        specialize (Hmin v Hin). lia. }
      destruct (IH (p ++ [x]) (contar_conflictos csp var x a) Hp')
        as (m' & Heq & Hmin' & Hex').
      * intros v [Hv|Hv%list_elem_of_singleton]%elem_of_app; [|by subst v].
        specialize (Hmin v Hv). lia.
      * exists x. split; [|done]. apply elem_of_app. right. left.
      * exists m'. split; [|done]. rewrite <-Heq. by rewrite Hf.
    + case_bool_decide as Heq.
      * simpl.
        assert (Hf : filter (λ v, contar_conflictos csp var v a = m) (p ++ [x])
                     = filter (λ v, contar_conflictos csp var v a = m) p ++ [x]).
        { by rewrite filter_app, filter_cons, decide_True, filter_nil by done. }
        destruct (IH (p ++ [x]) m Hp') as (m' & Heq' & Hmin' & Hex').
        -- intros v [Hv|Hv%list_elem_of_singleton]%elem_of_app;
             [by apply Hmin|subst v; lia].
        -- destruct Hex as (v & Hv & Hvm). exists v. split; [|done].
           apply elem_of_app. by left.
        -- exists m'. split; [|done]. rewrite <-Heq'. by rewrite Hf.
      * assert (Hf : filter (λ v, contar_conflictos csp var v a = m) (p ++ [x])
                     = filter (λ v, contar_conflictos csp var v a = m) p).
        { rewrite filter_app, filter_cons, decide_False, filter_nil by done.
          by rewrite app_nil_r. }
        destruct (IH (p ++ [x]) m Hp') as (m' & Heq' & Hmin' & Hex').
        -- intros v [Hv|Hv%list_elem_of_singleton]%elem_of_app;
             [by apply Hmin|subst v; lia].
        -- destruct Hex as (v & Hv & Hvm). exists v. split; [|done].
           apply elem_of_app. by left.
        -- exists m'. split; [|done]. rewrite <-Heq'. by rewrite Hf.
Qed.

Lemma minimizar_spec (a : gmap string Z) var d :
  d ≠ [] →
  ∃ m,
    minimizar csp var a d
    = (Some m, filter (λ v, contar_conflictos csp var v a = m) d)
    ∧ (∀ v, v ∈ d → m ≤ contar_conflictos csp var v a)
    ∧ (∃ v, v ∈ d ∧ contar_conflictos csp var v a = m).
Proof.
  destruct d as [|x d]; [done|]. intros _. unfold minimizar. simpl.
  assert (Hf : filter (λ v, contar_conflictos csp var v a
                              = contar_conflictos csp var x a) [x] = [x]).
  { by rewrite filter_cons, decide_True, filter_nil by done. }
  destruct (minimizar_foldl a var [x] d (contar_conflictos csp var x a))
    as (m & Heq & Hmin & Hex); [done| | |].
  - intros v Hv%list_elem_of_singleton. by subst v.
  - exists x. split; [left|done].
  - exists m. split; [|done]. rewrite Hf in Heq. exact Heq.
Qed.

Lemma minimizar_elem_of (a : gmap string Z) var d v :
  v ∈ (minimizar csp var a d).2 →
  v ∈ d ∧ ∀ w, w ∈ d → contar_conflictos csp var v a ≤ contar_conflictos csp var w a.
Proof.
  destruct d as [|x d]; [by intros ?%elem_of_nil|].
  destruct (minimizar_spec a var (x :: d)) as (m & -> & Hmin & _); [done|].
  simpl. intros [Hv Hin]%list_elem_of_filter. split; [done|].
  intros w Hw. rewrite Hv. by apply Hmin.
Qed.

Lemma minimizar_no_vacio (a : gmap string Z) var d :
  d ≠ [] → (minimizar csp var a d).2 ≠ [].
Proof.
  intros Hd. destruct (minimizar_spec a var d Hd) as (m & -> & _ & v & Hv & Hm).
  simpl. intros Hnil.
  assert (v ∈ filter (λ v, contar_conflictos csp var v a = m) d) as Hin
    by (by apply list_elem_of_filter).
  rewrite Hnil in Hin. by apply elem_of_nil in Hin.
Qed.

Lemma bucle_Valor pasos (a : gmap string Z) g :
  dom a ⊆ list_to_set (variables csp) → dominios_no_vacios csp →
  ∃ r, bucle csp pasos a g = Valor r.
Proof.
  intros Hdom Hdoms. revert a g Hdom.
  induction pasos as [|pasos IH]; intros a g Hdom; simpl; [eauto|].
  case_bool_decide as Hnil; [eauto|].
  destruct (choice_Valor _ g Hnil) as [var Hvar]. rewrite Hvar, ligar_valor.
  simpl. apply choice_elem_of in Hvar.
  unfold obtener_variables_en_conflicto in Hvar.
  apply elem_of_elements, variables_conflicto_dom in Hvar.
  destruct (Hdoms var) as (d & Hd & Hne).
  { apply (elem_of_list_to_set (C:=gset string)). by apply Hdom. }
  unfold indexar. rewrite Hd, ligar_valor.
  destruct (choice_Valor _ (λ n, g (S n)) (minimizar_no_vacio a var d Hne))
    as [v Hv].
  rewrite Hv, ligar_valor. apply IH. rewrite dom_insert_L. set_solver.
Qed.

Lemma bucle_en_dominios pasos (a : gmap string Z) g sol :
  en_dominios (dominios csp) a →
  bucle csp pasos a g = Valor (Asignacion sol) →
  en_dominios (dominios csp) sol.
Proof.
  revert a g. induction pasos as [|pasos IH]; intros a g Ha; simpl; [done|].
  case_bool_decide as Hnil; [by intros [= <-]|].
  intros H. apply ligar_Valor in H as ([var g1] & Hvar & H).
  apply ligar_Valor in H as (d & Hd & H).
  apply ligar_Valor in H as ([v g2] & Hv & H). simpl in *.
  eapply IH; [|exact H].
  apply choice_elem_of, minimizar_elem_of in Hv as [Hv _].
  unfold indexar in Hd. destruct (dominios csp !! var) as [d'|] eqn:Hd'; [|done].
  injection Hd as ->.
  intros y w. destruct (decide (y = var)) as [->|Hne].
  - rewrite lookup_insert_eq. intros [= <-]. by exists d.
  - rewrite lookup_insert_ne by done. apply Ha.
Qed.

Lemma numero_violadas_insert (a : gmap string Z) var old v :
  a !! var = Some old →
  numero_violadas csp (<[var := v]> a) + contar_conflictos csp var old a
  = numero_violadas csp a + contar_conflictos csp var v a.
Proof.
  intros Hold. unfold numero_violadas, contar_conflictos.
  rewrite (insert_id a var old Hold).
  induction (restricciones csp) as [|r l IH]; [done|].
  rewrite !filter_cons.
  destruct (decide (var ∈ r.1)) as [Hin|Hnin].
  - rewrite !(bool_decide_eq_true_2 _ Hin). simpl.
    destruct (violada (<[var := v]> a) r), (violada a r); simpl;
      repeat (rewrite decide_True by done);
      repeat (rewrite decide_False by done); simpl; lia.
  - rewrite !(bool_decide_eq_false_2 _ Hnin). simpl.
    assert (violada (<[var := v]> a) r = violada a r) as ->.
    { unfold violada. by rewrite valores_de_insert_ne. }
    destruct (violada a r); simpl;
      repeat (rewrite decide_True by done);
      repeat (rewrite decide_False by done); simpl; lia.
Qed.

Lemma bucle_estadisticas_spec pasos (a : gmap string Z) g c h :
  match bucle_estadisticas csp pasos a g c h with
  | Valor (r, c', h') =>
      bucle csp pasos a g = Valor r
      ∧ ∃ hs, h' = h ++ hs ∧ length hs ≤ pasos ∧ c ≤ c'
              ∧ match r with
                | Asignacion _ =>
                    ∃ hs0, hs = hs0 ++ [0] ∧ Forall (λ k, 0 < k) hs0
                           ∧ c' ≤ c + length hs0
                | _ => length hs = pasos ∧ Forall (λ k, 0 < k) hs
                       ∧ c' ≤ c + pasos
                end
  | Excepcion => bucle csp pasos a g = Excepcion
  | Agotado => False
  end.
Proof.
  revert a g c h. induction pasos as [|pasos IH]; intros a g c h; simpl.
  - split; [done|]. exists []. rewrite app_nil_r. simpl.
    split; [done|]. split; [lia|]. split; [lia|]. split; [done|].
    split; [constructor|lia].
  - case_bool_decide as Hnil.
    + split; [done|]. exists [0]. rewrite Hnil. simpl.
      split; [done|]. split; [lia|]. split; [lia|].
      exists []. split; [done|]. split; [constructor|simpl; lia].
    + destruct (choice _ g) as [[var g1]| |] eqn:Hvar; simpl; [|done|];
        [|by apply choice_no_agotado in Hvar].
      destruct (indexar (dominios csp) var) as [d| |] eqn:Hd; simpl; [|done|];
        [|by apply indexar_no_agotado in Hd].
      destruct (choice _ g1) as [[v g2]| |] eqn:Hv; simpl; [|done|];
        [|by apply choice_no_agotado in Hv].
      apply choice_elem_of in Hvar.
      unfold obtener_variables_en_conflicto in Hvar.
      apply elem_of_elements, variables_conflicto_dom, elem_of_dom in Hvar
        as [actual Hact].
      unfold indexar at 1. rewrite Hact, ligar_valor.
      set (c1 := if bool_decide (actual ≠ v) then S c else c).
      set (n := length (obtener_variables_en_conflicto csp a)).
      assert (0 < n) as Hn.
      { unfold n. destruct (obtener_variables_en_conflicto csp a); [done|].
        simpl. lia. }
      assert (c ≤ c1 ≤ S c) as Hc1 by (unfold c1; case_bool_decide; lia).
      specialize (IH (<[var := v]> a) g2 c1 (h ++ [n])).
      destruct (bucle_estadisticas csp pasos _ g2 c1 (h ++ [n]))
        as [[[r c'] h']| |]; [| |done].
      * destruct IH as (Hb & hs & -> & Hlen & Hcc & Hr). split; [done|].
        exists (n :: hs). rewrite <-app_assoc. split; [done|].
        split; [simpl; lia|]. split; [lia|].
        destruct r as [sol| |s].
        -- destruct Hr as (hs0 & -> & Hpos & Hc'). exists (n :: hs0).
           split; [done|]. split; [by constructor|]. simpl. lia.
        -- destruct Hr as (Hl & Hpos & Hc'). split; [simpl; lia|].
           split; [by constructor|]. lia.
        -- destruct Hr as (Hl & Hpos & Hc'). split; [simpl; lia|].
           split; [by constructor|]. lia.
      * done.
Qed.

End min_conflicts_mas.

(** ** Min-conflicts: errors and the repair step *)

Section min_conflicts_final.
Import MinConflicts.
Context (csp : CSP).

Lemma dominios_vacios_dec :
  dominios_no_vacios csp
  ∨ ∃ v, v ∈ variables csp
         ∧ (dominios csp !! v = None ∨ dominios csp !! v = Some []).
Proof.
  unfold dominios_no_vacios.
  induction (variables csp) as [|x l IH].
  - left. by intros v ?%elem_of_nil.
  - destruct IH as [IH|(v & Hv & Hbad)];
      [|right; exists v; split; [by right|done]].
    destruct (dominios csp !! x) as [[|y d]|] eqn:Hx.
    + right. exists x. split; [left|by right].
    + left. intros v [->|Hv]%elem_of_cons; [by exists (y :: d)|by apply IH].
    + right. exists x. split; [left|by left].
Qed.

Lemma min_conflicts_excepcion_sii max_pasos g :
  min_conflicts csp max_pasos g = Excepcion
  ↔ ∃ v, v ∈ variables csp
         ∧ (dominios csp !! v = None ∨ dominios csp !! v = Some []).
Proof.
  unfold min_conflicts.
  pose proof (asignacion_inicial_spec csp (variables csp) g ∅) as Hs.
  destruct (asignacion_inicial csp (variables csp) g ∅) as [[a g']| |];
    [|done|done].
  destruct Hs as (Hdom & Hdoms & _). rewrite ligar_valor. cbn [fst snd].
  split.
  - intros H. exfalso.
    destruct (bucle_Valor csp max_pasos a g') as [r Hr]; [set_solver|done|].
    congruence.
  - intros (v & Hv & Hbad). exfalso.
    destruct (Hdoms v Hv) as (d & Hd & Hne). destruct Hbad; congruence.
Qed.

Lemma min_conflicts_en_dominios max_pasos g sol :
  min_conflicts csp max_pasos g = Valor (Asignacion sol) →
  en_dominios (dominios csp) sol.
Proof.
  unfold min_conflicts. intros H. apply ligar_Valor in H as ([a g'] & Ha & H).
  pose proof (asignacion_inicial_spec csp (variables csp) g ∅) as Hs.
  rewrite Ha in Hs. destruct Hs as (_ & _ & Hen).
  eapply bucle_en_dominios; [|exact H]. apply Hen. by intros x v.
Qed.

End min_conflicts_final.

(** X17: [min_conflicts] terminates for every step budget and every sequence of
    random draws; it raises exactly when some declared variable has no domain
    or an empty one ([KeyError], or [IndexError] in [random.choice]); and a
    returned assignment has exactly the declared variables as keys, with
    values taken from their domains. *)
Theorem min_conflicts_errores csp max_pasos g :
  (MinConflicts.min_conflicts csp max_pasos g = Excepcion
   ↔ ∃ v, v ∈ variables csp
          ∧ (dominios csp !! v = None ∨ dominios csp !! v = Some []))
  ∧ MinConflicts.min_conflicts csp max_pasos g ≠ Agotado
  ∧ ∀ sol, MinConflicts.min_conflicts csp max_pasos g = Valor (Asignacion sol) →
           dom sol = list_to_set (variables csp)
           ∧ en_dominios (dominios csp) sol.
Proof.
  split; [apply min_conflicts_excepcion_sii|]. split.
  - unfold MinConflicts.min_conflicts.
    apply ligar_no_agotado.
    + pose proof (asignacion_inicial_spec csp (variables csp) g ∅) as Hs.
      by destruct (MinConflicts.asignacion_inicial csp (variables csp) g ∅).
    + intros [a g'] _. generalize max_pasos, a, g'. clear.
      intros pasos. induction pasos as [|pasos IH]; intros a g; simpl; [done|].
      case_bool_decide; [done|].
      apply ligar_no_agotado; [apply choice_no_agotado|]. intros c _.
      apply ligar_no_agotado; [apply indexar_no_agotado|]. intros d _.
      apply ligar_no_agotado; [apply choice_no_agotado|]. intros c' _. apply IH.
  - intros sol H. split; [|by eapply min_conflicts_en_dominios].
    unfold MinConflicts.min_conflicts in H.
    apply ligar_Valor in H as ([a g'] & Ha & H).
    cbn [fst snd] in H.
    apply asignacion_inicial_dom in Ha. apply bucle_sin_conflictos in H as [Hd _].
    rewrite Hd, Ha. set_solver.
Qed.

(** X18: on a non-empty domain, the loop of [min_conflicts] that collects
    [valores_minimos] ends with [min_conflictos] equal to the least value of
    [contar_conflictos] over the domain and with [valores_minimos] equal to
    the values of the domain that reach it, in domain order; the list is not
    empty. *)
Theorem minimizar_elige_minimos csp var (a : gmap string Z) d :
  d ≠ [] →
  ∃ m,
    MinConflicts.minimizar csp var a d
    = (Some m, filter (λ v, MinConflicts.contar_conflictos csp var v a = m) d)
    ∧ (∀ v, v ∈ d → m ≤ MinConflicts.contar_conflictos csp var v a)
    ∧ (MinConflicts.minimizar csp var a d).2 ≠ [].
Proof.
  intros Hd. destruct (minimizar_spec csp a var d Hd) as (m & Hm & Hmin & _).
  exists m. split; [done|]. split; [done|]. by apply minimizar_no_vacio.
Qed.

(** X19: a repair step of [min_conflicts] does not increase the number of
    violated constraints: if the current value of [var] belongs to the domain
    that is scanned, then after [asignacion[var]] takes any of
    [valores_minimos] the assignment violates at most as many constraints as
    before. *)
Theorem paso_no_aumenta_violadas csp var (a : gmap string Z) old d v :
  a !! var = Some old → old ∈ d →
  v ∈ (MinConflicts.minimizar csp var a d).2 →
  numero_violadas csp (<[var := v]> a) ≤ numero_violadas csp a.
Proof.
  intros Hold Hin Hv. apply minimizar_elem_of in Hv as [_ Hmin].
  pose proof (numero_violadas_insert csp a var old v Hold) as Heq.
  specialize (Hmin old Hin). lia.
Qed.

(** X20: with the same random draws, [min_conflicts_con_estadisticas] has the
    outcome of [min_conflicts] (same assignment, [None] or exception).  The
    history has one entry per executed step, at most [max_pasos]; on success
    its last entry is 0 and the entries before it are positive, on failure it
    has [max_pasos] positive entries; [cambios] is at most the number of
    steps that chose a value. *)
Theorem estadisticas_de_min_conflicts csp max_pasos g :
  match MinConflicts.min_conflicts_con_estadisticas csp max_pasos g with
  | Valor (r, cambios, historial) =>
      MinConflicts.min_conflicts csp max_pasos g = Valor r
      ∧ length historial ≤ max_pasos
      ∧ match r with
        | Asignacion _ =>
            ∃ h, historial = h ++ [0] ∧ Forall (λ k, 0 < k) h
                 ∧ cambios ≤ length h
        | _ => length historial = max_pasos ∧ Forall (λ k, 0 < k) historial
               ∧ cambios ≤ max_pasos
        end
  | Excepcion => MinConflicts.min_conflicts csp max_pasos g = Excepcion
  | Agotado => False
  end.
Proof.
  unfold MinConflicts.min_conflicts_con_estadisticas, MinConflicts.min_conflicts.
  pose proof (asignacion_inicial_spec csp (variables csp) g ∅) as Hs.
  destruct (MinConflicts.asignacion_inicial csp (variables csp) g ∅)
    as [[a g']| |]; [|done|done].
  rewrite !ligar_valor. cbn [fst snd].
  pose proof (bucle_estadisticas_spec csp max_pasos a g' 0 []) as Hb.
  destruct (MinConflicts.bucle_estadisticas csp max_pasos a g' 0 [])
    as [[[r c] h]| |]; [|done|done].
  destruct Hb as (Hr & hs & -> & Hlen & _ & Hrest). rewrite app_nil_l.
  split; [done|]. split; [done|]. destruct r as [sol| |s]; simpl in Hrest.
  - destruct Hrest as (h0 & -> & Hpos & Hc). exists h0. done.
  - destruct Hrest as (Hl & Hpos & Hc). done.
  - destruct Hrest as (Hl & Hpos & Hc). done.
Qed.

(** ** Cutset conditioning: the combinations of the cutset *)

Section combinaciones.
Import Cutset.

Lemma backtrack_spec vars pre doms (a : gmap string Z) c :
  NoDup vars → (∀ v, v ∈ vars → a !! v = None) →
  length vars ≤ length doms →
  backtrack vars (pre ++ doms) (length pre) a c
  = Valor (a, c ++ ((λ m, a ∪ m) <$> combinaciones_de vars doms)).
Proof.
  revert pre doms a c. induction vars as [|var resto IH];
    intros pre doms a c Hnd Hnone Hlen.
  - simpl. destruct doms; simpl; by rewrite (right_id_L ∅ (∪)).
  - destruct doms as [|d doms]; [simpl in Hlen; lia|].
    rewrite backtrack_cons.
    rewrite lookup_app_r, Nat.sub_diag by done. simpl.
    apply NoDup_cons in Hnd as [Hvar Hnd].
    assert (Hloop : ∀ valores c,
      bucle_backtrack var resto (pre ++ d :: doms) (length pre) valores (a, c)
      = Valor (a, c ++ ((λ m, a ∪ m) <$>
                        (valores ≫= λ valor,
                           (λ m, <[var := valor]> m)
                             <$> combinaciones_de resto doms)))).
    { induction valores as [|valor mas IHv]; intros c'.
      - simpl. by rewrite app_nil_r.
      - simpl.
        replace (pre ++ d :: doms) with ((pre ++ [d]) ++ doms)
          by (by rewrite <-app_assoc).
        replace (S (length pre)) with (length (pre ++ [d]))
          by (rewrite length_app; simpl; lia).
        rewrite IH; [|done| |simpl in Hlen; lia].
        2: { intros v Hv. rewrite lookup_insert_ne; [|set_solver].
             apply Hnone. by right. }
        rewrite ligar_valor. simpl.
        rewrite lookup_insert_eq. rewrite bool_decide_eq_true_2 by eauto.
        rewrite delete_insert_id by (apply Hnone; left).
        replace ((pre ++ [d]) ++ doms) with (pre ++ d :: doms)
          by (by rewrite <-app_assoc).
        replace (length (pre ++ [d])) with (S (length pre))
          by (rewrite length_app; simpl; lia).
        rewrite IHv. f_equal. f_equal. rewrite <-app_assoc. f_equal.
        rewrite fmap_app. f_equal.
        rewrite <-!list_fmap_compose. apply list_fmap_ext.
        intros i m _. simpl.
        rewrite <-insert_union_l. apply insert_union_r. apply Hnone. left. }
    apply Hloop.
Qed.

End combinaciones.

Lemma length_bind_fmap {A B C} (f : A → B → C) (d : list A) (l : list B) :
  length (d ≫= λ x, f x <$> l) = length d * length l.
Proof.
  induction d as [|x d IH]; [done|].
  rewrite bind_cons, length_app, length_fmap, IH. simpl. lia.
Qed.

Lemma combinaciones_de_length vars doms :
  length vars ≤ length doms →
  length (combinaciones_de vars doms)
  = foldr (λ d n, length d * n) 1 (take (length vars) doms).
Proof.
  revert doms. induction vars as [|var vars IH]; intros doms Hlen.
  - by destruct doms.
  - destruct doms as [|d doms]; [simpl in Hlen; lia|].
    cbn [combinaciones_de length take foldr].
    rewrite length_bind_fmap, IH; [done|]. simpl in Hlen. lia.
Qed.

Lemma combinaciones_de_elem_of vars doms (m : gmap string Z) :
  NoDup vars → length vars ≤ length doms →
  m ∈ combinaciones_de vars doms
  ↔ dom m = list_to_set vars
    ∧ ∀ i var d, vars !! i = Some var → doms !! i = Some d →
                 ∃ v, m !! var = Some v ∧ v ∈ d.
Proof.
  revert doms m. induction vars as [|var vars IH]; intros doms m Hnd Hlen.
  - assert (combinaciones_de [] doms = [∅]) as -> by (by destruct doms).
    rewrite list_elem_of_singleton. simpl. split.
    + intros ->. split; [by rewrite dom_empty_L|]. by intros i var d ?.
    + intros [Hd _]. by apply dom_empty_inv_L.
  - destruct doms as [|d doms]; [simpl in Hlen; lia|]. simpl in Hlen.
    apply NoDup_cons in Hnd as [Hvar Hnd]. simpl.
    rewrite list_elem_of_bind. split.
    + intros (valor & (m' & -> & Hm')%list_elem_of_fmap & Hvalor).
      apply IH in Hm' as [Hdom Hval]; [|done|lia].
      split; [rewrite dom_insert_L, Hdom; set_solver|].
      intros [|i] x dx; simpl.
      * intros [= <-] [= <-]. exists valor. by rewrite lookup_insert_eq.
      * intros Hx Hdx. rewrite lookup_insert_ne.
        -- by eapply Hval.
        -- intros <-. apply Hvar. by eapply list_elem_of_lookup_2.
    + intros [Hdom Hval].
      destruct (Hval 0 var d eq_refl eq_refl) as (valor & Hm & Hvalor).
      exists valor. split; [|done]. apply list_elem_of_fmap.
      exists (delete var m). split; [by rewrite insert_delete_id|].
      apply IH; [done|lia|]. split.
      * rewrite dom_delete_L, Hdom.
        assert (var ∉ (list_to_set vars : gset string))
          by (by rewrite elem_of_list_to_set).
        set_solver.
      * intros i x dx Hx Hdx.
        destruct (Hval (S i) x dx Hx Hdx) as (v & Hv & Hvd).
        exists v. split; [|done]. rewrite lookup_delete_ne; [done|].
        intros <-. apply Hvar. by eapply list_elem_of_lookup_2.
Qed.

Lemma generar_combinaciones_de vars doms :
  NoDup vars → length vars ≤ length doms →
  Cutset.generar_combinaciones vars doms = Valor (combinaciones_de vars doms).
Proof.
  intros Hnd Hlen. unfold Cutset.generar_combinaciones.
  pose proof (backtrack_spec vars [] doms ∅ [] Hnd) as H. simpl in H.
  destruct vars as [|var vars']; [by destruct doms|].
  rewrite H; [|by intros v _|done]. rewrite ligar_valor.
  cbn [snd app]. f_equal.
  etrans; [|apply list_fmap_id].
  apply list_fmap_ext. intros i m _. by rewrite (left_id_L ∅ (∪)).
Qed.

Lemma backtrack_indice vars pre doms (a : gmap string Z) c :
  length doms < length vars → Forall (λ d, d ≠ []) doms →
  Cutset.backtrack vars (pre ++ doms) (length pre) a c = Excepcion.
Proof.
  revert pre doms a c. induction vars as [|var resto IH];
    intros pre doms a c Hlen Hne; [simpl in Hlen; lia|].
  rewrite backtrack_cons. destruct doms as [|d doms].
  - rewrite app_nil_r, lookup_ge_None_2; done.
  - rewrite lookup_app_r, Nat.sub_diag by done. cbn [lookup list_lookup].
    apply Forall_cons in Hne as [Hd Hne].
    destruct d as [|valor mas]; [done|]. cbn [bucle_backtrack].
    replace (pre ++ (valor :: mas) :: doms)
      with ((pre ++ [valor :: mas]) ++ doms) by (by rewrite <-app_assoc).
    replace (S (length pre)) with (length (pre ++ [valor :: mas]))
      by (rewrite length_app; simpl; lia).
    rewrite IH; [done| |done]. simpl in Hlen. lia.
Qed.

(** X21: for distinct variables and at least as many domains,
    [generar_combinaciones] returns the Cartesian product: as many
    dictionaries as the product of the sizes of the domains used, and a
    dictionary is in the list exactly when its keys are the variables and
    each variable has a value of the domain at its position. *)
Theorem generar_combinaciones_producto vars doms :
  NoDup vars → length vars ≤ length doms →
  ∃ l, Cutset.generar_combinaciones vars doms = Valor l
    ∧ length l = foldr (λ d n, length d * n) 1 (take (length vars) doms)
    ∧ ∀ m : gmap string Z,
        m ∈ l
        ↔ dom m = list_to_set vars
          ∧ ∀ i var d, vars !! i = Some var → doms !! i = Some d →
                       ∃ v, m !! var = Some v ∧ v ∈ d.
Proof.
  intros Hnd Hlen. exists (combinaciones_de vars doms).
  split; [by apply generar_combinaciones_de|].
  split; [by apply combinaciones_de_length|].
  intros m. by apply combinaciones_de_elem_of.
Qed.

(** X22: with fewer domains than variables, all of them non-empty,
    [generar_combinaciones] raises ([IndexError] on [dominios[idx]]). *)
Theorem generar_combinaciones_sin_dominio vars doms :
  length doms < length vars → Forall (λ d, d ≠ []) doms →
  Cutset.generar_combinaciones vars doms = Excepcion.
Proof.
  intros Hlen Hne. unfold Cutset.generar_combinaciones.
  destruct vars as [|var vars]; [simpl in Hlen; lia|].
  by rewrite (backtrack_indice (var :: vars) [] doms ∅ [] Hlen Hne).
Qed.

(** ** Cutset conditioning: the tree solver *)

Section arbol.
Import Cutset.
Context (csp : CSP).

Lemma consistente_parcial_insert (a : gmap string Z) var valor :
  consistente_parcial csp a → es_consistente csp var valor a = true →
  consistente_parcial csp (<[var := valor]> a).
Proof.
  intros Hcons Hc r Hr Hne. destruct (decide (var ∈ r.1)) as [Hvr|Hvr].
  - rewrite es_consistente_true in Hc. by apply Hc.
  - unfold violada. rewrite valores_de_insert_ne by done. by apply Hcons.
Qed.

(** Domains after phase 1: entries are only narrowed, and only for
    variables of [orden] that the assignment leaves free. *)
Lemma fase1_spec (a : gmap string Z) orden doms exito doms' :
  fase1 csp a orden doms = Valor (exito, doms') →
  dom doms' = dom doms
  ∧ ∀ x d', doms' !! x = Some d' →
      ∃ d, doms !! x = Some d ∧ d' `sublist_of` d
           ∧ (is_Some (a !! x) ∨ x ∉ orden → d' = d).
Proof.
  revert doms. induction orden as [|var resto IH]; intros doms; simpl.
  - intros [= <- <-]. split; [done|]. intros x d' Hx. by exists d'.
  - case_bool_decide as Hasig.
    + intros H. destruct (IH _ H) as [Hdom Hsub]. split; [done|].
      intros x d' Hx. destruct (Hsub x d' Hx) as (d & Hd & Hdd & Heq).
      exists d. split; [done|]. split; [done|].
      intros [Hs|Hn]; apply Heq; [by left|].
      destruct (decide (x = var)) as [->|Hne]; [by left|].
      right. set_solver.
    + intros H. apply ligar_Valor in H as (d & Hd & H).
      unfold indexar in Hd. destruct (doms !! var) as [d0|] eqn:Hd0; [|done].
      injection Hd as ->.
      case_bool_decide as Hvacio.
      * injection H as <- <-. split; [done|]. intros x d' Hx. by exists d'.
      * destruct (IH _ H) as [Hdom Hsub]. split.
        -- rewrite Hdom, dom_insert_L.
           assert (var ∈ dom doms) by (apply elem_of_dom; eauto). set_solver.
        -- intros x d' Hx. destruct (Hsub x d' Hx) as (d1 & Hd1 & Hdd & Heq).
           destruct (decide (x = var)) as [->|Hne].
           ++ rewrite lookup_insert_eq in Hd1. injection Hd1 as <-.
              exists d. split; [done|]. split.
              ** etrans; [exact Hdd|]. apply sublist_filter.
              ** intros [Hs|Hn]; [done|]. exfalso. apply Hn. left.
           ++ rewrite lookup_insert_ne in Hd1 by done.
              exists d1. split; [done|]. split; [done|].
              intros [Hs|Hn]; apply Heq; [by left|]. right. set_solver.
Qed.

(** Phase 2 extends the assignment, one consistent value at a time. *)
Lemma fase2_spec doms orden (a : gmap string Z) sol :
  fase2 csp doms orden a = Valor (Some sol) →
  a ⊆ sol
  ∧ dom sol = dom a ∪ list_to_set orden
  ∧ (consistente_parcial csp a → consistente_parcial csp sol)
  ∧ ∀ x v, sol !! x = Some v → a !! x = None →
           ∃ d, doms !! x = Some d ∧ v ∈ d.
Proof.
  revert a. induction orden as [|var resto IH]; intros a; simpl.
  - intros [= <-]. split; [done|]. split; [set_solver|]. split; [done|].
    intros x v Hx Hn. congruence.
  - case_bool_decide as Hasig.
    + intros H. destruct (IH _ H) as (Hsub & Hdom & Hcons & Hval).
      split; [done|]. split; [|done].
      rewrite Hdom. apply elem_of_dom in Hasig. set_solver.
    + intros H. apply ligar_Valor in H as (d & Hd & H).
      unfold indexar in Hd. destruct (doms !! var) as [d0|] eqn:Hd0; [|done].
      injection Hd as ->.
      destruct (List.find _ d) as [valor|] eqn:Hfind; [|done].
      apply find_some in Hfind as [Hin Hc].
      apply list_elem_of_In in Hin.
      assert (a !! var = None) as Hnone.
      { destruct (a !! var) eqn:E; [|done]. exfalso. apply Hasig. eauto. }
      destruct (IH _ H) as (Hsub & Hdom & Hcons & Hval).
      split; [|split; [|split]].
      * etrans; [|exact Hsub]. by apply insert_subseteq.
      * rewrite Hdom, dom_insert_L. set_solver.
      * intros Ha. apply Hcons. by apply consistente_parcial_insert.
      * intros x v Hx Hn. destruct (decide (x = var)) as [->|Hne].
        -- assert (sol !! var = Some valor) as Hsv.
           { eapply lookup_weaken; [|exact Hsub]. apply lookup_insert_eq. }
           exists d. split; [done|]. congruence.
        -- apply Hval; [done|]. by rewrite lookup_insert_ne.
Qed.

End arbol.

Lemma resolver_arbol_csp_spec csp vars (a : gmap string Z) r doms' :
  Cutset.resolver_arbol_csp csp vars a = Valor (r, doms') →
  dom doms' = dom (dominios csp)
  ∧ (∀ x d', doms' !! x = Some d' →
       ∃ d, dominios csp !! x = Some d ∧ d' `sublist_of` d
            ∧ (is_Some (a !! x) → d' = d))
  ∧ (∀ c, r ≠ Conjunto c)
  ∧ ∀ sol, r = Asignacion sol →
      a ⊆ sol
      ∧ (consistente_parcial csp a → consistente_parcial csp sol)
      ∧ ∀ x v, sol !! x = Some v → a !! x = None →
               ∃ d, dominios csp !! x = Some d ∧ v ∈ d.
Proof.
  unfold Cutset.resolver_arbol_csp. destruct vars as [|raiz resto].
  - intros [= <- <-]. split; [done|]. split; [|split; [done|]].
    + intros x d' Hx. by exists d'.
    + intros sol [= <-]. split; [done|]. split; [done|].
      intros x v Hx Hn. congruence.
  - intros H. apply ligar_Valor in H as (orden & _ & H).
    apply ligar_Valor in H as ([exito doms1] & Hf1 & H).
    destruct (fase1_spec csp a _ _ _ _ Hf1) as [Hdom Hsub].
    assert (Hsub' : ∀ x d', doms1 !! x = Some d' →
              ∃ d, dominios csp !! x = Some d ∧ d' `sublist_of` d
                   ∧ (is_Some (a !! x) → d' = d)).
    { intros x d' Hx. destruct (Hsub x d' Hx) as (d & Hd & Hdd & Heq).
      exists d. split; [done|]. split; [done|]. intros Hs. apply Heq. by left. }
    destruct exito.
    + apply ligar_Valor in H as (o & Hf2 & [= <- <-]).
      split; [done|]. split; [done|]. split; [by destruct o|].
      intros sol Hsol. destruct o as [s|]; [|done]. injection Hsol as ->.
      destruct (fase2_spec csp _ _ _ _ Hf2) as (Hext & _ & Hcons & Hval).
      split; [done|]. split; [done|].
      intros x v Hx Hn. destruct (Hval x v Hx Hn) as (d' & Hd' & Hv).
      destruct (Hsub' x d' Hd') as (d & Hd & Hdd & _).
      exists d. split; [done|]. by apply (sublist_subseteq _ _ Hdd).
    + injection H as <- <-. split; [done|]. split; [done|]. done.
Qed.

(** ** Cutset conditioning: the greedy cutset *)

Section corte.
Import Cutset.
Context (csp : CSP).

Lemma conjunto_foldl_spec (l acc : list string) :
  NoDup acc →
  NoDup (foldl (λ s x, agregar x s) acc l)
  ∧ ∀ x, x ∈ foldl (λ s x, agregar x s) acc l ↔ x ∈ acc ∨ x ∈ l.
Proof.
  revert acc. induction l as [|y l IH]; intros acc Hnd; simpl.
  - split; [done|]. intros x. rewrite elem_of_nil. tauto.
  - destruct (IH (agregar y acc) (agregar_NoDup y acc Hnd)) as [Hnd' Hel].
    split; [done|]. intros x. rewrite Hel, agregar_elem_of, elem_of_cons.
    tauto.
Qed.

Lemma conjunto_NoDup l : NoDup (conjunto l).
Proof. apply conjunto_foldl_spec. constructor. Qed.





End corte.

(** X23: [resolver_arbol_csp] only narrows [csp.dominios]: after the call the
    keys are the same, every domain is a sublist of what it was, and the
    domains of the variables assigned on entry are untouched.  It returns a
    dictionary or [None]; a returned dictionary extends the given assignment,
    is consistent on every fully assigned constraint when the given one was,
    and takes the new values from the domains. *)
Theorem arbol_estrecha_dominios csp vars (a : gmap string Z) r doms' :
  Cutset.resolver_arbol_csp csp vars a = Valor (r, doms') →
  dom doms' = dom (dominios csp)
  ∧ (∀ x d', doms' !! x = Some d' →
       ∃ d, dominios csp !! x = Some d ∧ d' `sublist_of` d
            ∧ (is_Some (a !! x) → d' = d))
  ∧ (∀ c, r ≠ Conjunto c)
  ∧ ∀ sol, r = Asignacion sol →
      a ⊆ sol
      ∧ (consistente_parcial csp a → consistente_parcial csp sol)
      ∧ ∀ x v, sol !! x = Some v → a !! x = None →
               ∃ d, dominios csp !! x = Some d ∧ v ∈ d.
Proof.
  intros H. destruct (resolver_arbol_csp_spec csp vars a r doms' H)
    as (Hdom & Hsub & Hno & Hsol).
  split; [done|]. split; [done|]. split; [done|]. exact Hsol.
Qed.


(** ** Cutset conditioning: the order of the tree solver *)

Section orden.
Import Cutset.
Context (csp : CSP) (vars : list string).

Lemma aparece_antes_app_l l k v p :
  aparece_antes l v p → aparece_antes (l ++ k) v p.
Proof.
  intros (l1 & l2 & -> & Hp). exists l1, (l2 ++ k).
  split; [by rewrite <-app_assoc|]. apply elem_of_app. by left.
Qed.

Lemma aparece_antes_app_r l k v p :
  aparece_antes l v p → aparece_antes (k ++ l) v p.
Proof.
  intros (l1 & l2 & -> & Hp). exists (k ++ l1), l2.
  split; [by rewrite <-app_assoc|done].
Qed.

Lemma aparece_antes_final l v p : v ∈ l → aparece_antes (l ++ [p]) v p.
Proof.
  intros (l1 & l2 & ->)%list_elem_of_split. exists l1, (l2 ++ [p]).
  split; [by rewrite <-app_assoc|]. apply elem_of_app. right. left.
Qed.

Lemma recorrer_spec rec vs st st' :
  (∀ vecino st0 st1, vecino ∈ vars → vecino ∉ st0.1 →
     rec vecino st0 = Valor st1 → dfs_agrega csp vars vecino st0 st1) →
  recorrer rec vars vs st = Valor st' →
  recorrer_agrega csp vars vs st st'.
Proof.
  intros Hrec. revert st. induction vs as [|vecino resto IH]; intros st; simpl.
  - intros [= <-]. exists []. rewrite app_nil_r. split; [done|].
    split; [set_solver|]. split; [constructor|].
    repeat split; intros; by (exfalso; eapply elem_of_nil).
  - destruct (bool_decide_reflect (vecino ∈ vars)) as [Hin|Hin]; simpl.
    + destruct (bool_decide_reflect (vecino ∉ st.1)) as [Hno|Hno]; simpl.
      * intros H. apply ligar_Valor in H as (st1 & Hr & H).
        destruct (Hrec _ _ _ Hin Hno Hr)
          as (ns1 & Ho1 & Hv1 & Hnd1 & Hfr1 & Hvars1 & Hcl1 & Hpar1).
        destruct (IH _ H) as (ns2 & Ho2 & Hv2 & Hnd2 & Hfr2 & Hcl2 & Hvs2 & Hpar2).
        exists ((ns1 ++ [vecino]) ++ ns2).
        split; [by rewrite Ho2, Ho1, <-!app_assoc|].
        split; [rewrite Hv2, Hv1, list_to_set_app_L; set_solver|].
        split.
        { apply NoDup_app. split; [done|]. split; [|done].
          intros v Hv Hv2'. destruct (Hfr2 v Hv2') as [Hn _]. apply Hn.
          rewrite Hv1. apply elem_of_union. right.
          by apply elem_of_list_to_set. }
        split.
        { intros v [Hv|Hv]%elem_of_app.
          - split; [by apply Hfr1|].
            apply elem_of_app in Hv as [Hv|Hv%list_elem_of_singleton];
              [by apply Hvars1|by subst].
          - destruct (Hfr2 v Hv) as [Hn Hvv]. split; [|done].
            intros Hst. apply Hn. rewrite Hv1. apply elem_of_union. by left. }
        split.
        { intros v s w [Hv|Hv]%elem_of_app Hs Hw Hwv.
          - rewrite Hv2. apply elem_of_union. left. by eapply Hcl1.
          - by eapply Hcl2. }
        split.
        { intros w [Heq|Hw]%elem_of_cons Hwv.
          - subst w. rewrite Hv2, Hv1. apply elem_of_union. left.
            apply elem_of_union. right. apply elem_of_list_to_set.
            apply elem_of_app. right. left.
          - by apply Hvs2. }
        intros v [Hv|Hv]%elem_of_app.
        -- apply elem_of_app in Hv as [Hv|Hv%list_elem_of_singleton].
           ++ left. destruct (Hpar1 v Hv) as (p & s & Ha & Hs & Hvs).
              exists p, s. split; [|done]. by apply aparece_antes_app_l.
           ++ subst v. right. left.
        -- destruct (Hpar2 v Hv) as [(p & s & Ha & Hs & Hvs)|Hvr].
           ++ left. exists p, s. split; [|done]. by apply aparece_antes_app_r.
           ++ right. by right.
      * intros H.
        destruct (IH _ H) as (ns & Ho & Hv & Hnd & Hfr & Hcl & Hvs & Hpar).
        exists ns. do 5 (split; [done|]). split.
        -- intros w [Heq|Hw]%elem_of_cons Hwv; [|by apply Hvs].
           subst w. rewrite Hv. apply elem_of_union. left.
           destruct (decide (vecino ∈ st.1)); [done|tauto].
        -- intros v Hvn. destruct (Hpar v Hvn) as [?|?]; [by left|].
           right. by right.
    + intros H.
      destruct (IH _ H) as (ns & Ho & Hv & Hnd & Hfr & Hcl & Hvs & Hpar).
      exists ns. do 5 (split; [done|]). split.
      * intros w [Heq|Hw]%elem_of_cons Hwv; [by subst w|by apply Hvs].
      * intros v Hvn. destruct (Hpar v Hvn) as [?|?]; [by left|].
        right. by right.
Qed.

Lemma dfs_spec fuel var st st' :
  var ∉ st.1 →
  dfs fuel csp vars var st = Valor st' →
  dfs_agrega csp vars var st st'.
Proof.
  revert var st st'. induction fuel as [|fuel IH]; intros var st st' Hno;
    [done|].
  simpl. intros H. apply ligar_Valor in H as (vs & Hvs & H).
  apply ligar_Valor in H as (st1 & Hr & [= <-]).
  unfold indexar in Hvs. destruct (vecinos csp !! var) as [vs'|] eqn:Hvec;
    [|done]. injection Hvs as ->.
  apply recorrer_spec in Hr
    as (ns & Ho & Hv & Hnd & Hfr & Hcl & Hvss & Hpar).
  2: { intros vecino st0 st2 _ Hn Hd. by apply IH. }
  simpl in *.
  assert (Hvar_ns : var ∉ ns).
  { intros Hin. destruct (Hfr var Hin) as [Hn _]. apply Hn. set_solver. }
  exists ns. split; [by rewrite Ho, <-app_assoc|].
  split; [rewrite Hv, list_to_set_app_L; set_solver|].
  split.
  { apply NoDup_app. split; [done|]. split; [|apply NoDup_singleton].
    intros v Hvn Hv'%list_elem_of_singleton. by subst. }
  split.
  { intros v [Hvn|Hv'%list_elem_of_singleton]%elem_of_app; [|by subst].
    destruct (Hfr v Hvn) as [Hn _]. set_solver. }
  split; [intros v Hvn; by apply Hfr|].
  split.
  { intros v s w [Hvn|Hv'%list_elem_of_singleton]%elem_of_app Hs Hw Hwv.
    - by eapply Hcl.
    - subst v. assert (s = vs) as -> by congruence. by apply Hvss. }
  intros v Hvn. destruct (Hpar v Hvn) as [(p & s & Ha & Hs & Hvs)|Hvr].
  - exists p, s. split; [|done]. by apply aparece_antes_app_l.
  - exists var, vs. split; [|done]. by apply aparece_antes_final.
Qed.

(** X25: the list returned by [ordenar_topologicamente] has no duplicates and
    ends with the root; its members are the root or variables of the given
    set; every member but the root stands before some member that has it as a
    neighbour (children before parents); and every neighbour, within the
    given set, of a member is a member. *)
Theorem ordenar_topologicamente_postorden raiz orden :
  ordenar_topologicamente csp raiz vars = Valor orden →
  NoDup orden ∧ last orden = Some raiz
  ∧ (∀ v, v ∈ orden → v = raiz ∨ v ∈ vars)
  ∧ (∀ v, v ∈ orden → v ≠ raiz →
       ∃ p s, aparece_antes orden v p ∧ vecinos csp !! p = Some s ∧ v ∈ s)
  ∧ (∀ v s w, v ∈ orden → vecinos csp !! v = Some s → w ∈ s → w ∈ vars →
              w ∈ orden).
Proof.
  unfold ordenar_topologicamente. intros H.
  apply ligar_Valor in H as (st & Hd & [= <-]).
  apply dfs_spec in Hd as (ns & Ho & Hv & Hnd & Hfr & Hvars & Hcl & Hpar);
    [|set_solver].
  simpl in *. rewrite Ho.
  split; [done|]. split; [by rewrite last_snoc|]. split.
  { intros v [Hvn|Hv'%list_elem_of_singleton]%elem_of_app; [|by left].
    right. by apply Hvars. }
  split.
  { intros v [Hvn|Hv'%list_elem_of_singleton]%elem_of_app Hne; [|done].
    by apply Hpar. }
  intros v s w Hvn Hs Hw Hwv.
  specialize (Hcl v s w Hvn Hs Hw Hwv). rewrite Hv in Hcl.
  apply elem_of_union in Hcl as [?%not_elem_of_empty|Hcl]; [done|].
  by apply elem_of_list_to_set in Hcl.
Qed.

End orden.

(** ** Cutset conditioning: the domains after the call *)

Section acondicionamiento.
Import Cutset.
Context (csp : CSP).





End acondicionamiento.

Section acondicionamiento_final.
Import Cutset.
Context (csp : CSP).



End acondicionamiento_final.


(** ** The example problems (001_Proble_Satis_Restri.py, 003_Comp_Hacia_Del.py) *)

Lemma ProblemaReinas_4 : Problemas.ProblemaReinas 4 = Valor reinas4.
Proof. vm_compute. reflexivity. Qed.

Section problemas.
Import Problemas.

Lemma foldl_insert_lookup {V} (v : V) (l : list string) (acc : gmap string V) x :
  foldl (λ d k, <[k := v]> d) acc l !! x
  = if bool_decide (x ∈ l) then Some v else acc !! x.
Proof.
  revert acc. induction l as [|k l IH]; intros acc.
  - cbn [foldl]. case_bool_decide as H; [by apply elem_of_nil in H|done].
  - cbn [foldl]. rewrite IH.
    destruct (decide (x = k)) as [->|Hne].
    + rewrite lookup_insert_eq.
      rewrite (bool_decide_eq_true_2 (k ∈ k :: l)) by left.
      by case_bool_decide.
    + rewrite lookup_insert_ne by done.
      repeat case_bool_decide; try done; set_solver.
Qed.

Lemma elem_of_rango (c : Z) (n : nat) :
  c ∈ Z.of_nat <$> seq 0 n ↔ (0 ≤ c < Z.of_nat n)%Z.
Proof.
  rewrite list_elem_of_fmap. split.
  - intros (i & -> & Hi%elem_of_seq). lia.
  - intros Hc. exists (Z.to_nat c). split; [lia|]. apply elem_of_seq. lia.
Qed.

Lemma asignar_clave_elem_of clave f restr r :
  r ∈ asignar_clave clave f restr → r = (clave, f) ∨ r ∈ restr.
Proof.
  induction restr as [|r' restr IH]; simpl.
  - intros ?%list_elem_of_singleton. by left.
  - case_bool_decide.
    + intros [->|Hr]%elem_of_cons; [by left|]. right. by right.
    + intros [->|Hr]%elem_of_cons; [right; left|].
      destruct (IH Hr) as [?|?]; [by left|]. right. by right.
Qed.

Lemma asignar_clave_claves clave f restr k :
  k ∈ (asignar_clave clave f restr).*1 ↔ k = clave ∨ k ∈ restr.*1.
Proof.
  induction restr as [|r' restr IH]; simpl.
  - rewrite list_elem_of_singleton, elem_of_nil. tauto.
  - case_bool_decide as Hk; simpl.
    + rewrite !elem_of_cons. subst clave. naive_solver.
    + rewrite !elem_of_cons, IH. tauto.
Qed.

Lemma asignar_clave_nueva clave f restr :
  clave ∉ restr.*1 → asignar_clave clave f restr = restr ++ [(clave, f)].
Proof.
  induction restr as [|r' restr IH]; simpl; [done|].
  intros Hn. apply not_elem_of_cons in Hn as [Hne Hn].
  rewrite bool_decide_eq_false_2 by done. by rewrite IH.
Qed.

Lemma foldl_asignar_nuevas {A} (k : A → list string) (f : A → list Z → bool)
    (l : list A) acc :
  NoDup (acc.*1 ++ (k <$> l)) →
  foldl (λ restr x, asignar_clave (k x) (f x) restr) acc l
  = acc ++ ((λ x, (k x, f x)) <$> l).
Proof.
  revert acc. induction l as [|x l IH]; intros acc Hnd; simpl.
  - by rewrite app_nil_r.
  - apply NoDup_app in Hnd as (Hacc & Hdis & Hl).
    apply NoDup_cons in Hl as [Hx Hl].
    rewrite asignar_clave_nueva.
    2: { intros Hin. apply (Hdis _ Hin). left. }
    rewrite IH.
    + by rewrite <-app_assoc.
    + rewrite fmap_app. simpl. rewrite <-app_assoc. simpl.
      apply NoDup_app. split; [done|]. split.
      * intros y Hy [->|Hy']%elem_of_cons.
        -- apply (Hdis _ Hy). left.
        -- apply (Hdis _ Hy). by right.
      * by constructor.
Qed.

Lemma foldl_asignar_todas {A} (k : A → list string) (f : A → list Z → bool)
    (l : list A) acc :
  (∀ r, r ∈ foldl (λ restr x, asignar_clave (k x) (f x) restr) acc l →
        r ∈ acc ∨ ∃ x, x ∈ l ∧ r = (k x, f x))
  ∧ (∀ c, c ∈ (foldl (λ restr x, asignar_clave (k x) (f x) restr) acc l).*1
          ↔ c ∈ acc.*1 ∨ c ∈ k <$> l).
Proof.
  revert acc. induction l as [|x l IH]; intros acc; simpl.
  - split; [by left|]. intros c. rewrite elem_of_nil. tauto.
  - destruct (IH (asignar_clave (k x) (f x) acc)) as [Hr Hc]. split.
    + intros r Hin. destruct (Hr r Hin) as [Ha|(y & Hy & ->)].
      * apply asignar_clave_elem_of in Ha as [->|Ha]; [|by left].
        right. exists x. split; [left|done].
      * right. exists y. split; [by right|done].
    + intros c. rewrite Hc, asignar_clave_claves, elem_of_cons. tauto.
Qed.

Lemma nombre_reina_inj : Inj (=) (=) nombre_reina.
Proof.
  intros i j H. unfold nombre_reina in H. simpl in H.
  injection H as H. by apply (inj pretty).
Qed.

Lemma elem_of_pares n i j : (i, j) ∈ pares n ↔ i < j < n.
Proof.
  unfold pares. rewrite list_elem_of_bind. split.
  - intros (i' & Hin & Hi'%elem_of_seq).
    apply list_elem_of_bind in Hin as (j' & Hin & Hj'%elem_of_seq).
    apply list_elem_of_singleton in Hin as [= -> ->]. lia.
  - intros Hij. exists i. split; [|apply elem_of_seq; lia].
    apply list_elem_of_bind. exists j. split; [by left|].
    apply elem_of_seq. lia.
Qed.

Lemma NoDup_pares n : NoDup (pares n).
Proof.
  unfold pares. apply NoDup_bind; [| |apply NoDup_seq].
  - intros i1 i2 [i j] _ _ H1 H2.
    apply list_elem_of_bind in H1 as (j1 & H1 & _).
    apply list_elem_of_bind in H2 as (j2 & H2 & _).
    apply list_elem_of_singleton in H1. apply list_elem_of_singleton in H2.
    by simplify_eq.
  - intros i _. apply NoDup_bind; [| |apply NoDup_seq].
    + intros j1 j2 [i' j] _ _ H1 H2.
      apply list_elem_of_singleton in H1. apply list_elem_of_singleton in H2.
      by simplify_eq.
    + intros j _. apply NoDup_singleton.
Qed.

Lemma length_fila (i k m : nat) :
  length (seq k m ≫= λ j, [(i, j)]) = m.
Proof.
  revert k. induction m as [|m IH]; intros k; [done|].
  cbn [seq]. rewrite bind_cons, length_app, IH. done.
Qed.

Lemma length_pares_desde n (l : list nat) :
  length (l ≫= λ i, seq (S i) (n - S i) ≫= λ j, [(i, j)])
  = sum_list ((λ i, n - S i) <$> l).
Proof.
  induction l as [|i l IH]; [done|].
  rewrite bind_cons, length_app, IH, fmap_cons, length_fila. done.
Qed.

Lemma suma_triangular n m :
  n ≤ m →
  2 * sum_list ((λ i, m - S i) <$> seq 0 n) + n * (n + 1) = 2 * n * m.
Proof.
  induction n as [|n IH]; [done|]. intros Hn.
  rewrite seq_S, fmap_app, sum_list_with_app. simpl.
  specialize (IH ltac:(lia)). nia.
Qed.

Lemma length_pares n : 2 * length (pares n) = n * (n - 1).
Proof.
  unfold pares. rewrite length_pares_desde.
  pose proof (suma_triangular n n (le_n n)). destruct n; [done|]. simpl in *. nia.
Qed.

(** The record that [ProblemaReinas(n)] builds. *)
Lemma ProblemaReinas_campos n :
  ∃ csp, ProblemaReinas n = Valor csp
    ∧ variables csp = nombre_reina <$> seq 0 n
    ∧ (∀ x, dominios csp !! x
            = if bool_decide (x ∈ nombre_reina <$> seq 0 n)
              then Some (Z.of_nat <$> seq 0 n) else None)
    ∧ restricciones csp
      = (λ ij, ([nombre_reina ij.1; nombre_reina ij.2],
                reina (Z.of_nat ij.1) (Z.of_nat ij.2))) <$> pares n.
Proof.
  unfold ProblemaReinas, nuevo_CSP.
  set (vars := nombre_reina <$> seq 0 n).
  set (doms := foldl _ ∅ vars).
  rewrite (foldl_asignar_nuevas
             (λ ij, [nombre_reina ij.1; nombre_reina ij.2])
             (λ ij, reina (Z.of_nat ij.1) (Z.of_nat ij.2))).
  2: { simpl. apply NoDup_fmap_2_strong; [|apply NoDup_pares].
       intros [i j] [i' j'] _ _ Heq. cbn [fst snd] in Heq.
       assert (Hi : nombre_reina i = nombre_reina i') by congruence.
       assert (Hj : nombre_reina j = nombre_reina j') by congruence.
       apply nombre_reina_inj in Hi, Hj. by subst. }
  rewrite app_nil_l.
  set (restr := _ <$> pares n).
  pose proof (_calcular_vecinos_spec vars restr) as Hs.
  destruct (_calcular_vecinos vars restr) as [vec| |]; [| |done].
  - rewrite ligar_valor. eexists. split; [done|]. simpl.
    split; [done|]. split; [|done].
    intros x. unfold doms. by rewrite foldl_insert_lookup, lookup_empty.
  - exfalso. destruct Hs as (al & x & y & Hal & Hx & Hy & Hne & Hn).
    apply Hn. unfold restr in Hal. rewrite <-list_fmap_compose in Hal.
    apply list_elem_of_fmap in Hal as ([i j] & -> & [Hi Hj]%elem_of_pares).
    simpl in Hx. unfold vars.
    apply elem_of_cons in Hx as [->|Hx].
    + apply list_elem_of_fmap_2, elem_of_seq. lia.
    + apply list_elem_of_singleton in Hx as ->.
      apply list_elem_of_fmap_2, elem_of_seq. lia.
Qed.

Lemma valores_de_par (a : gmap string Z) x y vx vy :
  a !! x = Some vx → a !! y = Some vy → valores_de a [x; y] = Some [vx; vy].
Proof. intros Hx Hy. unfold valores_de. simpl. by rewrite Hx, Hy. Qed.

Lemma valores_de_par_inv (a : gmap string Z) x y vs :
  valores_de a [x; y] = Some vs →
  ∃ vx vy, a !! x = Some vx ∧ a !! y = Some vy ∧ vs = [vx; vy].
Proof.
  unfold valores_de. simpl.
  destruct (a !! x) as [vx|]; [|done]. destruct (a !! y) as [vy|]; [|done].
  simpl. intros [= <-]. by exists vx, vy.
Qed.

Lemma reina_true (i j : nat) fi fj :
  i < j →
  reina (Z.of_nat i) (Z.of_nat j) [fi; fj] = true
  ↔ fi ≠ fj ∧ Z.abs (fi - fj) ≠ Z.of_nat (j - i).
Proof.
  intros Hij. unfold reina.
  rewrite andb_true_iff, !negb_true_iff, !Z.eqb_neq.
  replace (Z.abs (Z.of_nat i - Z.of_nat j)) with (Z.of_nat (j - i)) by lia.
  done.
Qed.

(** X27: for every [n], [ProblemaReinas(n)] is built without exception; the
    instance is well formed and binary, and it has [n (n - 1) / 2]
    constraints. *)
Theorem ProblemaReinas_bien_formado n :
  ∃ csp, ProblemaReinas n = Valor csp ∧ bien_formado csp ∧ binario csp
    ∧ 2 * length (restricciones csp) = n * (n - 1).
Proof.
  destruct (ProblemaReinas_campos n) as (csp & Hc & Hv & Hd & Hr).
  exists csp. split; [done|]. split; [|split].
  - split; [|split; [|split]].
    + rewrite Hv. apply NoDup_fmap_2; [apply nombre_reina_inj|apply NoDup_seq].
    + intros v Hin. rewrite Hd. rewrite Hv in Hin.
      by rewrite bool_decide_eq_true_2.
    + intros r v. rewrite Hr, Hv.
      intros ([i j] & -> & [Hi Hj]%elem_of_pares)%list_elem_of_fmap Hin.
      simpl in Hin. apply elem_of_cons in Hin as [->|Hin].
      * apply list_elem_of_fmap_2, elem_of_seq. lia.
      * apply list_elem_of_singleton in Hin as ->.
        apply list_elem_of_fmap_2, elem_of_seq. lia.
    + intros r. rewrite Hr. by intros ([i j] & -> & _)%list_elem_of_fmap.
  - split.
    + intros r. rewrite Hr.
      intros ([i j] & -> & [Hi Hj]%elem_of_pares)%list_elem_of_fmap.
      exists (nombre_reina i), (nombre_reina j). split; [done|].
      intros Heq%nombre_reina_inj. simpl in *. lia.
    + intros x y. rewrite Hr, <-list_fmap_compose.
      intros ([i j] & Heq & [Hi Hj]%elem_of_pares)%list_elem_of_fmap
             ([i' j'] & Heq' & [Hi' Hj']%elem_of_pares)%list_elem_of_fmap.
      simpl in *.
      assert (Hx : nombre_reina i = nombre_reina j') by congruence.
      assert (Hy : nombre_reina j = nombre_reina i') by congruence.
      apply nombre_reina_inj in Hx, Hy. lia.
  - rewrite Hr, length_fmap. apply length_pares.
Qed.

(** X28: the solutions of [ProblemaReinas(n)] are exactly the placements of [n]
    queens, one per column [Q0 .. Q(n-1)] with a row in [0 .. n-1], in which no
    two queens share a row or a diagonal. *)
Theorem ProblemaReinas_soluciones n csp (a : gmap string Z) :
  ProblemaReinas n = Valor csp →
  solucion csp a
  ↔ dom a = list_to_set (nombre_reina <$> seq 0 n)
    ∧ (∀ i, i < n →
         ∃ f, a !! nombre_reina i = Some f ∧ (0 ≤ f < Z.of_nat n)%Z)
    ∧ (∀ i j fi fj, i < j < n →
         a !! nombre_reina i = Some fi → a !! nombre_reina j = Some fj →
         fi ≠ fj ∧ Z.abs (fi - fj) ≠ Z.of_nat (j - i)).
Proof.
  intros Hp. destruct (ProblemaReinas_campos n) as (csp' & Hc & Hv & Hd & Hr).
  assert (csp' = csp) as -> by congruence. clear Hc.
  unfold solucion, completa. rewrite Hv. split.
  - intros (Hdom & Hen & Hsat). split; [done|]. split.
    + intros i Hi.
      assert (nombre_reina i ∈ dom a) as [f Hf]%elem_of_dom.
      { rewrite Hdom. apply elem_of_list_to_set, list_elem_of_fmap_2,
          elem_of_seq. lia. }
      exists f. split; [done|].
      destruct (Hen _ _ Hf) as (d & Hdd & Hfd). rewrite Hd in Hdd.
      case_bool_decide; [|done]. injection Hdd as <-.
      by apply elem_of_rango.
    + intros i j fi fj Hij Hfi Hfj.
      destruct (Hsat ([nombre_reina i; nombre_reina j],
                      reina (Z.of_nat i) (Z.of_nat j))) as (vs & Hvs & Ht).
      { rewrite Hr. apply list_elem_of_fmap. exists (i, j).
        split; [done|]. by apply elem_of_pares. }
      cbn [fst snd] in *. rewrite (valores_de_par a _ _ fi fj Hfi Hfj) in Hvs.
      injection Hvs as <-. apply reina_true in Ht; [done|lia].
  - intros (Hdom & Hrango & Hataque). split; [done|]. split.
    + intros x v Hx.
      assert (x ∈ dom a) as Hin by (apply elem_of_dom; eauto).
      rewrite Hdom in Hin. apply elem_of_list_to_set in Hin.
      rewrite Hd, bool_decide_eq_true_2 by done.
      eexists. split; [done|].
      apply list_elem_of_fmap in Hin as (i & -> & Hi%elem_of_seq).
      destruct (Hrango i) as (f & Hf & Hfr); [lia|].
      assert (f = v) as -> by congruence. by apply elem_of_rango.
    + intros r. rewrite Hr.
      intros ([i j] & -> & [Hi Hj]%elem_of_pares)%list_elem_of_fmap.
      cbn [fst snd] in *.
      destruct (Hrango i) as (fi & Hfi & _); [lia|].
      destruct (Hrango j) as (fj & Hfj & _); [lia|].
      exists [fi; fj]. split; [by apply valores_de_par|].
      apply reina_true; [done|]. by apply (Hataque i j).
Qed.

Lemma distintos_true cu cv : distintos [cu; cv] = true ↔ cu ≠ cv.
Proof. unfold distintos. by rewrite negb_true_iff, Z.eqb_neq. Qed.

(** The dictionary of constraints that [ProblemaColoracionGrafo] builds. *)
Lemma restricciones_coloracion (aristas : list (string * string)) r :
  let restr :=
    foldl (λ restr ar, asignar_clave [ar.1; ar.2] distintos restr) [] aristas in
  (r ∈ restr → ∃ u v, (u, v) ∈ aristas ∧ r = ([u; v], distintos))
  ∧ ∀ u v, (u, v) ∈ aristas → ([u; v], distintos) ∈ restr.
Proof.
  intros restr.
  destruct (foldl_asignar_todas (λ ar : string * string, [ar.1; ar.2])
              (λ _, distintos) aristas []) as [Hr Hc].
  fold restr in Hr, Hc.
  assert (Hel : ∀ r, r ∈ restr →
            ∃ u v, (u, v) ∈ aristas ∧ r = ([u; v], distintos)).
  { intros r' Hin. destruct (Hr r' Hin) as [?%elem_of_nil|([u v] & Huv & ->)];
      [done|]. by exists u, v. }
  split; [apply Hel|].
  intros u v Huv.
  assert ([u; v] ∈ restr.*1) as (r' & Heq & Hin)%list_elem_of_fmap.
  { apply Hc. right. apply list_elem_of_fmap. by exists (u, v). }
  destruct (Hel r' Hin) as (u' & v' & _ & ->). simpl in Heq.
  by rewrite Heq.
Qed.

(** X29: [ProblemaColoracionGrafo(nodos, aristas, k)] raises exactly when an
    edge with two different endpoints has an endpoint that is not a node; when
    it returns, the variables are the nodes and the solutions are exactly the
    colourings of the nodes with colours in [0 .. k-1] that give different
    colours to the endpoints of every edge. *)
Theorem ProblemaColoracionGrafo_soluciones nodos aristas k :
  (ProblemaColoracionGrafo nodos aristas k = Excepcion
   ↔ ∃ u v, (u, v) ∈ aristas ∧ u ≠ v ∧ (u ∉ nodos ∨ v ∉ nodos))
  ∧ ∀ csp, ProblemaColoracionGrafo nodos aristas k = Valor csp →
      variables csp = nodos
      ∧ ∀ a : gmap string Z,
          solucion csp a
          ↔ dom a = list_to_set nodos
            ∧ (∀ u c, a !! u = Some c → (0 ≤ c < Z.of_nat k)%Z)
            ∧ ∀ u v, (u, v) ∈ aristas →
                ∃ cu cv, a !! u = Some cu ∧ a !! v = Some cv ∧ cu ≠ cv.
Proof.
  unfold ProblemaColoracionGrafo.
  set (doms := foldl _ ∅ nodos).
  set (restr := foldl _ [] aristas).
  assert (Hrestr : ∀ r, (r ∈ restr →
              ∃ u v, (u, v) ∈ aristas ∧ r = ([u; v], distintos))
            ∧ ∀ u v, (u, v) ∈ aristas → ([u; v], distintos) ∈ restr)
    by (intros r; apply restricciones_coloracion).
  split.
  - destruct (nuevo_CSP_excepcion_sii nodos doms restr) as [_ ->]. split.
    + intros (r & x & y & Hr & Hx & Hy & Hne & Hn).
      apply Hrestr in Hr as (u & v & Huv & ->). simpl in *.
      exists u, v. split; [done|].
      apply elem_of_cons in Hx as [->|Hx%list_elem_of_singleton];
        apply elem_of_cons in Hy as [->|Hy%list_elem_of_singleton];
        subst; try done; split; auto.
    + intros (u & v & Huv & Hne & [Hn|Hn]).
      * exists ([u; v], distintos), u, v.
        split; [by apply (Hrestr ([], distintos))|]. simpl.
        split; [left|]. split; [right; left|]. done.
      * exists ([u; v], distintos), v, u.
        split; [by apply (Hrestr ([], distintos))|]. simpl.
        split; [right; left|]. split; [left|]. split; [congruence|done].
  - intros csp Hc. apply nuevo_CSP_inv in Hc as (Hv & Hd & Hr & _).
    split; [done|]. intros a. unfold solucion, completa, satisface.
    rewrite Hv, Hd, Hr. split.
    + intros (Hdom & Hen & Hsat). split; [done|]. split.
      * intros u c Hu. destruct (Hen u c Hu) as (d & Hdd & Hcd).
        unfold doms in Hdd. rewrite foldl_insert_lookup in Hdd.
        case_bool_decide; [|by rewrite lookup_empty in Hdd].
        injection Hdd as <-. by apply elem_of_rango.
      * intros u v Huv.
        destruct (Hsat ([u; v], distintos)) as (vs & Hvs & Ht);
          [by apply (Hrestr ([], distintos))|].
        apply valores_de_par_inv in Hvs as (cu & cv & Hcu & Hcv & ->).
        exists cu, cv. split; [done|]. split; [done|].
        by apply distintos_true.
    + intros (Hdom & Hrango & Hprop). split; [done|]. split.
      * intros u c Hu.
        assert (u ∈ dom a) as Hin by (apply elem_of_dom; eauto).
        rewrite Hdom in Hin. apply elem_of_list_to_set in Hin.
        eexists. split.
        -- unfold doms. rewrite foldl_insert_lookup.
           by rewrite bool_decide_eq_true_2.
        -- apply elem_of_rango. by eapply Hrango.
      * intros r Hin. apply Hrestr in Hin as (u & v & Huv & ->).
        destruct (Hprop u v Huv) as (cu & cv & Hcu & Hcv & Hne).
        exists [cu; cv]. split; [by apply valores_de_par|].
        by apply distintos_true.
Qed.

End problemas.

(** ** Instances of the theorems above *)

Lemma triangulo_binario : binario triangulo.
Proof.
  split.
  - intros r Hr. simpl in Hr.
    repeat (apply elem_of_cons in Hr as [->|Hr]; [by eexists _, _|]).
    by apply elem_of_nil in Hr.
  - intros x y Hxy Hyx. simpl in Hxy, Hyx.
    repeat (apply elem_of_cons in Hxy as [Hxy|Hxy];
            [injection Hxy as -> ->; set_solver|]).
    by apply elem_of_nil in Hxy.
Qed.

Lemma nuevo_CSP_vecinos_testigo :
  nuevo_CSP (variables dos_variables) (dominios dos_variables)
            (restricciones dos_variables) = Valor dos_variables
  ∧ dom (vecinos dos_variables) = list_to_set (variables dos_variables).
Proof.
  split; [exact dos_variables_init|].
  exact (proj1 (proj2 (proj2 (proj2
           (nuevo_CSP_vecinos _ _ _ _ dos_variables_init))))).
Defined.

Lemma es_consistente_local_testigo :
  nuevo_CSP (variables dos_variables) (dominios dos_variables)
            (restricciones dos_variables) = Valor dos_variables
  ∧ (∀ s y, vecinos dos_variables !! "A" = Some s → y ∈ s →
            ({[ "C" := 5%Z ]} : gmap string Z) !! y = (∅ : gmap string Z) !! y)
  ∧ es_consistente dos_variables "A" 1%Z {[ "C" := 5%Z ]}
    = es_consistente dos_variables "A" 1%Z ∅.
Proof.
  assert (∀ s y, vecinos dos_variables !! "A" = Some s → y ∈ s →
            ({[ "C" := 5%Z ]} : gmap string Z) !! y = (∅ : gmap string Z) !! y)
    as H.
  { intros s y Hs Hy. vm_compute in Hs. injection Hs as <-.
    apply list_elem_of_singleton in Hy as ->. reflexivity. }
  split; [exact dos_variables_init|]. split; [exact H|].
  exact (es_consistente_local dos_variables "A" 1%Z ∅ {[ "C" := 5%Z ]}
           dos_variables_init H).
Defined.

Lemma valores_legales_decrecen_testigo :
  (∅ : gmap string Z) ⊆ {[ "A" := 1%Z ]}
  ∧ (obtener_valores_legales dos_variables "B" {[ "A" := 1%Z ]} = Excepcion
     ↔ dominios dos_variables !! "B" = None).
Proof.
  assert ((∅ : gmap string Z) ⊆ {[ "A" := 1%Z ]}) as H
    by apply map_empty_subseteq.
  split; [exact H|].
  exact (proj1 (proj2 (valores_legales_decrecen dos_variables "B" ∅
                         {[ "A" := 1%Z ]} H))).
Defined.

Lemma backtracking_decide_testigo :
  bien_formado triangulo
  ∧ ((∃ sol, Backtracking.resolver triangulo = Valor (Asignacion sol)
             ∧ solucion triangulo sol)
     ∨ (Backtracking.resolver triangulo = Valor Ninguno
        ∧ ∀ a, ¬ solucion triangulo a)).
Proof.
  split; [exact triangulo_bien_formado|].
  exact (backtracking_decide triangulo triangulo_bien_formado).
Defined.

Lemma mejorado_decide_testigo :
  bien_formado triangulo
  ∧ nuevo_CSP (variables triangulo) (dominios triangulo)
              (restricciones triangulo) = Valor triangulo
  ∧ decide_instancia triangulo (BacktrackingMejorado.resolver triangulo).
Proof.
  split; [exact triangulo_bien_formado|]. split; [exact triangulo_init|].
  exact (mejorado_decide triangulo triangulo_bien_formado
           triangulo_init).
Defined.

Lemma forward_checking_decide_testigo :
  bien_formado triangulo
  ∧ nuevo_CSP (variables triangulo) (dominios triangulo)
              (restricciones triangulo) = Valor triangulo
  ∧ decide_instancia triangulo (ForwardChecking.resolver triangulo).
Proof.
  split; [exact triangulo_bien_formado|]. split; [exact triangulo_init|].
  exact (forward_checking_decide triangulo triangulo_bien_formado triangulo_init).
Defined.

Lemma asignacion_devuelta_completa_testigo :
  Backtracking.resolver dos_variables
  = Valor (Asignacion {[ "A" := 1%Z; "B" := 2%Z ]})
  ∧ NoDup (variables dos_variables)
  ∧ completa dos_variables {[ "A" := 1%Z; "B" := 2%Z ]}.
Proof.
  split; [exact dos_variables_bt|].
  exact (asignacion_devuelta_completa dos_variables _
           (or_introl dos_variables_bt)).
Defined.

Lemma ac3_arco_consistente_testigo :
  bien_formado triangulo ∧ binario triangulo
  ∧ nuevo_CSP (variables triangulo) (dominios triangulo)
              (restricciones triangulo) = Valor triangulo
  ∧ ∃ exito doms,
      Propagacion.ac3 triangulo None = Valor (exito, doms)
      ∧ (exito = true →
         ∀ x y, es_arco triangulo x y → arco_consistente triangulo doms x y).
Proof.
  split; [exact triangulo_bien_formado|]. split; [exact triangulo_binario|].
  split; [exact triangulo_init|].
  exact (ac3_arco_consistente triangulo triangulo_bien_formado triangulo_binario
           triangulo_init).
Defined.

Lemma es_consistente_binaria_simetrica_testigo :
  ¬ (["A"; "B"] ∈ (restricciones dos_variables).*1
     ∧ ["B"; "A"] ∈ (restricciones dos_variables).*1)
  ∧ Propagacion.es_consistente_binaria dos_variables "A" 1%Z "B" 2%Z
    = Propagacion.es_consistente_binaria dos_variables "B" 2%Z "A" 1%Z.
Proof.
  assert (¬ (["A"; "B"] ∈ (restricciones dos_variables).*1
             ∧ ["B"; "A"] ∈ (restricciones dos_variables).*1)) as H.
  { intros [_ H]. simpl in H. apply list_elem_of_singleton in H. discriminate H. }
  split; [exact H|].
  exact (es_consistente_binaria_simetrica dos_variables "A" 1%Z "B" 2%Z H).
Defined.

Lemma lcv_ordenada_testigo :
  BacktrackingMejorado._ordenar_valores_lcv reinas4 "Q1" {[ "Q0" := 0%Z ]}
  = Valor [3; 2]%Z
  ∧ ∃ legales,
      obtener_valores_legales reinas4 "Q1" {[ "Q0" := 0%Z ]} = Valor legales
      ∧ [3; 2]%Z ≡ₚ legales
      ∧ ∀ l1 v l2 w l3, [3; 2]%Z = l1 ++ v :: l2 ++ w :: l3 →
          ∃ kv kw,
            BacktrackingMejorado.contar_conflictos reinas4 "Q1"
              {[ "Q0" := 0%Z ]} v = Valor kv
            ∧ BacktrackingMejorado.contar_conflictos reinas4 "Q1"
                {[ "Q0" := 0%Z ]} w = Valor kw
            ∧ (kv ≤ kw)%Z.
Proof.
  assert (BacktrackingMejorado._ordenar_valores_lcv reinas4 "Q1"
            {[ "Q0" := 0%Z ]} = Valor [3; 2]%Z) as H
    by (vm_compute; reflexivity).
  split; [exact H|].
  exact (lcv_ordenada reinas4 "Q1" {[ "Q0" := 0%Z ]} [3; 2]%Z H).
Defined.

Lemma minimizar_elige_minimos_testigo :
  [1; 2]%Z ≠ []
  ∧ (MinConflicts.minimizar dos_variables "A" {[ "A" := 1%Z; "B" := 1%Z ]}
       [1; 2]%Z).2 ≠ [].
Proof.
  assert ([1; 2]%Z ≠ []) as H by discriminate.
  split; [exact H|].
  destruct (minimizar_elige_minimos dos_variables "A"
              {[ "A" := 1%Z; "B" := 1%Z ]} [1; 2]%Z H) as (m & _ & _ & Hne).
  exact Hne.
Defined.

Lemma paso_no_aumenta_violadas_testigo :
  ({[ "A" := 1%Z; "B" := 1%Z ]} : gmap string Z) !! "A" = Some 1%Z
  ∧ 1%Z ∈ [1; 2]%Z
  ∧ 2%Z ∈ (MinConflicts.minimizar dos_variables "A"
             {[ "A" := 1%Z; "B" := 1%Z ]} [1; 2]%Z).2
  ∧ numero_violadas dos_variables (<["A" := 2%Z]> {[ "A" := 1%Z; "B" := 1%Z ]})
    ≤ numero_violadas dos_variables {[ "A" := 1%Z; "B" := 1%Z ]}.
Proof.
  assert (({[ "A" := 1%Z; "B" := 1%Z ]} : gmap string Z) !! "A" = Some 1%Z)
    as H1 by (vm_compute; reflexivity).
  assert (1%Z ∈ [1; 2]%Z) as H2 by apply list_elem_of_here.
  assert (2%Z ∈ (MinConflicts.minimizar dos_variables "A"
                   {[ "A" := 1%Z; "B" := 1%Z ]} [1; 2]%Z).2) as H3.
  { assert ((MinConflicts.minimizar dos_variables "A"
               {[ "A" := 1%Z; "B" := 1%Z ]} [1; 2]%Z).2 = [2]%Z) as ->
      by (vm_compute; reflexivity).
    apply list_elem_of_here. }
  split; [exact H1|]. split; [exact H2|]. split; [exact H3|].
  exact (paso_no_aumenta_violadas dos_variables "A" _ 1%Z [1; 2]%Z 2%Z
           H1 H2 H3).
Defined.

Lemma generar_combinaciones_producto_testigo :
  NoDup ["A"; "B"] ∧ length ["A"; "B"] ≤ length [[1; 2]; [1; 2]]%Z
  ∧ ∃ l, Cutset.generar_combinaciones ["A"; "B"] [[1; 2]; [1; 2]]%Z = Valor l
      ∧ length l = 4.
Proof.
  assert (NoDup ["A"; "B"]) as H1
    by (apply (bool_decide_unpack _); vm_compute; exact I).
  assert (length ["A"; "B"] ≤ length [[1; 2]; [1; 2]]%Z) as H2
    by (simpl; lia).
  split; [exact H1|]. split; [exact H2|].
  destruct (generar_combinaciones_producto ["A"; "B"] [[1; 2]; [1; 2]]%Z H1 H2)
    as (l & Hl & Hlen & _).
  exists l. split; [exact Hl|exact Hlen].
Defined.

Lemma generar_combinaciones_sin_dominio_testigo :
  length [[1]%Z] < length ["A"; "B"]
  ∧ Forall (λ d : list Z, d ≠ []) [[1]%Z]
  ∧ Cutset.generar_combinaciones ["A"; "B"] [[1]%Z] = Excepcion.
Proof.
  assert (length [[1]%Z] < length ["A"; "B"]) as H1 by (simpl; lia).
  assert (Forall (λ d : list Z, d ≠ []) [[1]%Z]) as H2
    by (repeat constructor; discriminate).
  split; [exact H1|]. split; [exact H2|].
  exact (generar_combinaciones_sin_dominio ["A"; "B"] [[1]%Z] H1 H2).
Defined.


Lemma ordenar_topologicamente_postorden_testigo :
  Cutset.ordenar_topologicamente triangulo "A" ["A"; "B"; "C"]
  = Valor ["C"; "B"; "A"]
  ∧ NoDup ["C"; "B"; "A"] ∧ last ["C"; "B"; "A"] = Some "A".
Proof.
  assert (Cutset.ordenar_topologicamente triangulo "A" ["A"; "B"; "C"]
          = Valor ["C"; "B"; "A"]) as H by (vm_compute; reflexivity).
  split; [exact H|].
  destruct (ordenar_topologicamente_postorden triangulo ["A"; "B"; "C"] "A" _ H)
    as (Hnd & Hlast & _).
  split; [exact Hnd|exact Hlast].
Defined.

Lemma arbol_estrecha_dominios_testigo :
  Cutset.resolver_arbol_csp dos_variables ["B"] {[ "A" := 1%Z ]}
  = Valor (Asignacion {[ "A" := 1%Z; "B" := 2%Z ]},
           {[ "A" := [1; 2]%Z; "B" := [2]%Z ]})
  ∧ dom ({[ "A" := [1; 2]%Z; "B" := [2]%Z ]} : gmap string (list Z))
    = dom (dominios dos_variables).
Proof.
  assert (Cutset.resolver_arbol_csp dos_variables ["B"] {[ "A" := 1%Z ]}
          = Valor (Asignacion {[ "A" := 1%Z; "B" := 2%Z ]},
                   {[ "A" := [1; 2]%Z; "B" := [2]%Z ]})) as H
    by (vm_compute; reflexivity).
  split; [exact H|].
  exact (proj1 (arbol_estrecha_dominios dos_variables _ _ _ _ H)).
Defined.


Lemma ProblemaReinas_soluciones_testigo :
  Problemas.ProblemaReinas 4 = Valor reinas4
  ∧ (solucion reinas4 {[ "Q0" := 1%Z; "Q1" := 3%Z; "Q2" := 0%Z; "Q3" := 2%Z ]}
     ↔ dom ({[ "Q0" := 1%Z; "Q1" := 3%Z; "Q2" := 0%Z; "Q3" := 2%Z ]}
              : gmap string Z)
       = list_to_set (Problemas.nombre_reina <$> seq 0 4)
       ∧ (∀ i, i < 4 →
            ∃ f, ({[ "Q0" := 1%Z; "Q1" := 3%Z; "Q2" := 0%Z; "Q3" := 2%Z ]}
                    : gmap string Z) !! Problemas.nombre_reina i = Some f
                 ∧ (0 ≤ f < Z.of_nat 4)%Z)
       ∧ (∀ i j fi fj, i < j < 4 →
            ({[ "Q0" := 1%Z; "Q1" := 3%Z; "Q2" := 0%Z; "Q3" := 2%Z ]}
               : gmap string Z) !! Problemas.nombre_reina i = Some fi →
            ({[ "Q0" := 1%Z; "Q1" := 3%Z; "Q2" := 0%Z; "Q3" := 2%Z ]}
               : gmap string Z) !! Problemas.nombre_reina j = Some fj →
            fi ≠ fj ∧ Z.abs (fi - fj) ≠ Z.of_nat (j - i))).
Proof.
  split; [exact ProblemaReinas_4|].
  exact (ProblemaReinas_soluciones 4 reinas4 _ ProblemaReinas_4).
Defined.
